(** * Versioned virtual file store, version registry and session lifecycle

    A shallow embedding of the TypeScript core of the site generator
    ([backend/src/vfs/VFS.ts], [backend/src/vfs/VersionManager.ts],
    [backend/src/sessions/SessionManager.ts]) together with the part of the
    JavaScript runtime these classes rely on: strings as sequences of UTF-16
    code units, insertion-ordered [Map]s and [Set]s, ordinary objects with
    their property order, [Date] time values and a heap of shared objects. *)

From Stdlib Require Import ZArith NArith Lia String Ascii List DecimalString.
From stdpp Require Import base tactics option list numbers sorting.

(** ** JavaScript strings *)

(** A JavaScript string is a sequence of UTF-16 code units; [length],
    [includes], [startsWith] and [split] all work on code units. *)
Definition jsstring : Type := list N.

(** An ASCII literal of the source, as code units. *)
Definition js (s : string) : jsstring :=
  List.map N_of_ascii (list_ascii_of_string s).

Module JsString.

(** [s.startsWith(p)] *)
Fixpoint startsWith (p s : jsstring) : bool :=
  match p, s with
  | [], _ => true
  | _ :: _, [] => false
  | c :: p', d :: s' => (c =? d)%N && startsWith p' s'
  end.

(** [s.includes(needle)] *)
Fixpoint includes (needle s : jsstring) : bool :=
  startsWith needle s ||
  match s with
  | [] => false
  | _ :: s' => includes needle s'
  end.

(** [s.split(sep)] for a separator of one code unit. The result is never
    empty: [''.split('/')] is [['']]. *)
Fixpoint split (sep : N) (s : jsstring) : list jsstring :=
  match s with
  | [] => [[]]
  | c :: s' =>
    if (c =? sep)%N then [] :: split sep s'
    else match split sep s' with
         | seg :: segs => (c :: seg) :: segs
         | [] => [[c]]
         end
  end.

(** [segments.join(sep)] *)
Fixpoint join (sep : jsstring) (l : list jsstring) : jsstring :=
  match l with
  | [] => []
  | [x] => x
  | x :: rest => x ++ sep ++ join sep rest
  end.

(** The regular expression [/^[a-zA-Z]:/] of [validatePath]. *)
Definition is_ascii_letter (c : N) : bool :=
  ((97 <=? c) && (c <=? 122) || (65 <=? c) && (c <=? 90))%N.

Definition drive_prefix (s : jsstring) : bool :=
  match s with
  | c :: d :: _ => is_ascii_letter c && (d =? 58)%N
  | _ => false
  end.

Definition is_high_surrogate (c : N) : bool := ((55296 <=? c) && (c <=? 56319))%N.
Definition is_low_surrogate (c : N) : bool := ((56320 <=? c) && (c <=? 57343))%N.

(** [new Blob([s]).size]: the number of bytes of the UTF-8 encoding of [s].
    A surrogate pair is one code point of four bytes; a lone surrogate is
    replaced by U+FFFD, three bytes. *)
Fixpoint utf8_size (s : jsstring) : N :=
  match s with
  | [] => 0
  | c :: rest =>
    if (c <? 128)%N then 1 + utf8_size rest
    else if (c <? 2048)%N then 2 + utf8_size rest
    else if is_high_surrogate c then
      match rest with
      | d :: rest' =>
        if is_low_surrogate d then 4 + utf8_size rest' else 3 + utf8_size rest
      | [] => 3
      end
    else 3 + utf8_size rest
  end%N.

(** [String(n)] for an integer [n], as a template literal interpolates it. *)
Definition of_N (n : N) : jsstring := js (NilEmpty.string_of_uint (N.to_uint n)).

Definition of_Z (z : Z) : jsstring :=
  if (z <? 0)%Z then js "-" ++ of_N (Z.abs_N z) else of_N (Z.to_N z).

(** Truthiness of a string: only the empty string is falsy. *)
Definition truthy (s : jsstring) : bool :=
  match s with [] => false | _ :: _ => true end.

End JsString.

(** ** JavaScript [Map] with string keys

    A [Map] iterates in insertion order, so it is kept as the list of its
    entries, oldest first. [set] on an existing key replaces the value where
    the entry stands; on a new key it appends. *)
Module JsMap.

Definition t (V : Type) : Type := list (jsstring * V).

Definition empty {V} : t V := [].

Fixpoint get {V} (k : jsstring) (m : t V) : option V :=
  match m with
  | [] => None
  | (k', v) :: m' => if decide (k = k') then Some v else get k m'
  end.

Definition has {V} (k : jsstring) (m : t V) : bool :=
  match get k m with Some _ => true | None => false end.

Fixpoint set {V} (k : jsstring) (v : V) (m : t V) : t V :=
  match m with
  | [] => [(k, v)]
  | (k', v') :: m' =>
    if decide (k = k') then (k', v) :: m' else (k', v') :: set k v m'
  end.

(** [m.delete(k)]: the entry of [k], if there is one, is dropped; the order
    of the others is kept. *)
Definition delete {V} (k : jsstring) (m : t V) : t V :=
  List.filter (λ e, negb (bool_decide (e.1 = k))) m.

Definition keys {V} (m : t V) : list jsstring := List.map fst m.

Definition values {V} (m : t V) : list V := List.map snd m.

Definition size {V} (m : t V) : nat := length m.

(** [new Map(iterable)]: the entries are [set] one after the other. *)
Definition of_entries {V} (l : list (jsstring * V)) : t V :=
  fold_left (λ acc e, set e.1 e.2 acc) l empty.

(** The representation invariant of a [Map]: no key occurs twice. *)
Definition wf {V} (m : t V) : Prop := NoDup (keys m).

End JsMap.

(** ** JavaScript [Set] of strings, in insertion order *)
Module JsSet.

Definition t : Type := list jsstring.

Definition add (x : jsstring) (s : t) : t :=
  if bool_decide (x ∈ s) then s else s ++ [x].

(** [new Set(iterable)] *)
Definition of_list (l : list jsstring) : t :=
  fold_left (λ acc x, add x acc) l [].

End JsSet.

(** ** Ordinary objects used as records ([Record<string, string>])

    The own properties are kept in creation order. Enumeration
    ([Object.entries]) lists the array-index keys first, in ascending numeric
    order, then the other keys in creation order. *)
Module JsObject.

Definition t (V : Type) : Type := list (jsstring * V).

Definition digit_of (c : N) : option N :=
  if ((48 <=? c) && (c <=? 57))%N then Some (c - 48)%N else None.

Fixpoint parse_digits (acc : N) (s : jsstring) : option N :=
  match s with
  | [] => Some acc
  | c :: s' =>
    match digit_of c with
    | Some d => parse_digits (10 * acc + d)%N s'
    | None => None
    end
  end.

(** A property key is an array index when it is the canonical decimal form
    of an integer below [2^32 - 1]. *)
Definition array_index (k : jsstring) : option N :=
  match k with
  | [] => None
  | c :: rest =>
    if ((c =? 48)%N && negb (bool_decide (rest = []))) then None
    else match parse_digits 0 k with
         | Some n => if (n <? 4294967295)%N then Some n else None
         | None => None
         end
  end.

(** [Object.fromEntries(iterable)]: each pair defines (or redefines) an own
    data property. *)
Definition fromEntries {V} (l : list (jsstring * V)) : t V :=
  fold_left (λ o e, JsMap.set e.1 e.2 o) l [].

Definition index_props {V} (o : t V) : list (N * (jsstring * V)) :=
  omap (λ e, match array_index e.1 with Some i => Some (i, e) | None => None end) o.

Definition named_props {V} (o : t V) : list (jsstring * V) :=
  List.filter (λ e, match array_index e.1 with Some _ => false | None => true end) o.

Definition index_le {V} (a b : N * (jsstring * V)) : Prop := (a.1 ≤ b.1)%N.

#[global] Instance index_le_dec {V} (a b : N * (jsstring * V)) :
  Decision (index_le a b) := N.le_dec a.1 b.1.

(** [Object.entries(o)] *)
Definition entries {V} (o : t V) : list (jsstring * V) :=
  List.map snd (merge_sort index_le (index_props o)) ++ named_props o.

End JsObject.

(** ** [Date]

    A [Date] holds a time value: an integral number of milliseconds since
    the epoch, at most 8.64e15 in absolute value, or NaN (an invalid date). *)
Module JsDate.

#[local] Open Scope Z_scope.

Inductive t : Type :=
  | TimeValue (ms : Z)
  | Invalid.

Definition msPerDay : Z := 86400000.
Definition maxTime : Z := 8640000000000000.

Definition in_range (ms : Z) : Prop := - maxTime ≤ ms ≤ maxTime.

(** [a < b] on two dates compares the time values; a comparison with NaN is
    false. *)
Definition lt (a b : t) : bool :=
  match a, b with
  | TimeValue x, TimeValue y => x <? y
  | _, _ => false
  end.

(** [new Date(ms)]: a time value out of range is clipped to NaN. *)
Definition of_time (ms : Z) : t :=
  if (- maxTime <=? ms) && (ms <=? maxTime) then TimeValue ms else Invalid.

(** [a.getTime()], [None] standing for NaN. *)
Definition getTime (a : t) : option Z :=
  match a with TimeValue x => Some x | Invalid => None end.

(** *** Proleptic Gregorian calendar

    Days are counted from 1970-01-01. The conversion works in eras of 400
    years that start on March 1st, so that the leap day is the last day of a
    year of the era. *)
Definition daysPerEra : Z := 146097.
Definition epochShift : Z := 719468.

(** Year of the era, month and day of the month of a day of the era. *)
Definition ymd_of_doe (doe : Z) : Z * Z * Z :=
  let yoe := (doe - doe / 1460 + doe / 36524 - doe / 146096) / 365 in
  let doy := doe - (365 * yoe + yoe / 4 - yoe / 100) in
  let mp := (5 * doy + 2) / 153 in
  let d := doy - (153 * mp + 2) / 5 + 1 in
  let m := if mp <? 10 then mp + 3 else mp - 9 in
  (yoe, m, d).

Definition doe_of_ymd (yoe m d : Z) : Z :=
  let mp := if 2 <? m then m - 3 else m + 9 in
  let doy := (153 * mp + 2) / 5 + d - 1 in
  yoe * 365 + yoe / 4 - yoe / 100 + doy.

Definition civil_from_days (z : Z) : Z * Z * Z :=
  let z' := z + epochShift in
  let era := z' / daysPerEra in
  let '(yoe, m, d) := ymd_of_doe (z' mod daysPerEra) in
  (yoe + era * 400 + (if m <=? 2 then 1 else 0), m, d).

Definition days_from_civil (y m d : Z) : Z :=
  let y' := y - (if m <=? 2 then 1 else 0) in
  (y' / 400) * daysPerEra + doe_of_ymd (y' mod 400) m d - epochShift.

(** A check run on each day of an era: it gives a year of the era below
    400, a month, a day of the month, and is recovered from them. *)
Definition doe_ok (doe : Z) : bool :=
  let '(yoe, m, d) := ymd_of_doe doe in
  (0 <=? yoe) && (yoe <? 400) && (1 <=? m) && (m <=? 12)
  && (1 <=? d) && (d <=? 31) && (doe_of_ymd yoe m d =? doe).

(** [f] holds on [n] consecutive integers from [start]. *)
Fixpoint all_from (f : Z → bool) (start : Z) (n : nat) : bool :=
  match n with
  | O => true
  | S n' => f start && all_from f (start + 1) n'
  end.

(** *** [toISOString] *)

Definition digit (n : Z) : N := Z.to_N (48 + n).

(** The decimal digits of [n] on exactly [w] positions, zero-padded. *)
Fixpoint pad (w : nat) (n : Z) : jsstring :=
  match w with
  | O => []
  | S w' => digit (n / 10 ^ Z.of_nat w') :: pad w' (n mod 10 ^ Z.of_nat w')
  end.

(** Years 0 to 9999 take four digits, the others a sign and six digits. *)
Definition year_string (y : Z) : jsstring :=
  if (0 <=? y) && (y <=? 9999) then pad 4 y
  else (if y <? 0 then js "-" else js "+") ++ pad 6 (Z.abs y).

(** [d.toISOString()]: [YYYY-MM-DDTHH:mm:ss.sssZ]; [None] stands for the
    [RangeError] thrown on an invalid date. *)
Definition toISOString (d : t) : option jsstring :=
  match d with
  | Invalid => None
  | TimeValue ms =>
    let day := ms / msPerDay in
    let tod := ms mod msPerDay in
    let '(y, m, dd) := civil_from_days day in
    Some (year_string y ++ js "-" ++ pad 2 m ++ js "-" ++ pad 2 dd ++ js "T"
          ++ pad 2 (tod / 3600000) ++ js ":" ++ pad 2 (tod / 60000 mod 60)
          ++ js ":" ++ pad 2 (tod / 1000 mod 60) ++ js "."
          ++ pad 3 (tod mod 1000) ++ js "Z")
  end.

(** *** [new Date(string)]

    Only the complete date-time form with the [Z] suffix, the one
    [toISOString] writes, is recognised here; any other text gives an invalid
    date. Field ranges are checked as V8 does (month 1-12, day 1-31). *)

(** Reads exactly [w] decimal digits. *)
Fixpoint digits (w : nat) (acc : Z) (s : jsstring) : option (Z * jsstring) :=
  match w with
  | O => Some (acc, s)
  | S w' =>
    match s with
    | c :: s' =>
      if ((48 <=? c) && (c <=? 57))%N
      then digits w' (10 * acc + (Z.of_N c - 48)) s'
      else None
    | [] => None
    end
  end.

Definition expect (c : N) (s : jsstring) : option jsstring :=
  match s with
  | d :: s' => if (c =? d)%N then Some s' else None
  | [] => None
  end.

Definition parse_year (s : jsstring) : option (Z * jsstring) :=
  match s with
  | 43%N :: s' => digits 6 0 s'
  | 45%N :: s' =>
    '(y, rest) ← digits 6 0 s';
    if y =? 0 then None else Some (- y, rest)
  | _ => digits 4 0 s
  end.

Definition parse_iso (s : jsstring) : option Z :=
  '(y, s) ← parse_year s;
  s ← expect 45 s;
  '(m, s) ← digits 2 0 s;
  s ← expect 45 s;
  '(d, s) ← digits 2 0 s;
  s ← expect 84 s;
  '(hh, s) ← digits 2 0 s;
  s ← expect 58 s;
  '(mm, s) ← digits 2 0 s;
  s ← expect 58 s;
  '(ss, s) ← digits 2 0 s;
  s ← expect 46 s;
  '(ms, s) ← digits 3 0 s;
  s ← expect 90 s;
  match s with
  | [] =>
    if (1 <=? m) && (m <=? 12) && (1 <=? d) && (d <=? 31)
       && (hh <=? 23) && (mm <=? 59) && (ss <=? 59)
    then Some (days_from_civil y m d * msPerDay
               + hh * 3600000 + mm * 60000 + ss * 1000 + ms)
    else None
  | _ :: _ => None
  end.

(** [new Date(s)] *)
Definition parse (s : jsstring) : t :=
  match parse_iso s with
  | Some ms => of_time ms
  | None => Invalid
  end.

End JsDate.

(** ** Types of [types/index.ts] and [types/session.ts] *)

Definition VersionId : Type := jsstring.

(** A reference to an object of the heap. *)
Abbreviation loc := nat (only parsing).

Module VersionStatus.

Inductive t : Type := BUILDING | VALID | FAILED.

#[global] Instance eq_dec : EqDecision t.
Proof. solve_decision. Defined.

Definition name (s : t) : jsstring :=
  match s with
  | BUILDING => js "BUILDING"
  | VALID => js "VALID"
  | FAILED => js "FAILED"
  end.

End VersionStatus.

Module Version.

(** [files] is a reference to a [Map<string, string>] object. *)
Record t : Type := mk {
  id : VersionId;
  timestamp : JsDate.t;
  files : loc;
  status : VersionStatus.t;
  errorLog : option jsstring;
}.

End Version.

Module FileDiff.

Inductive kind : Type := added | modified | deleted.

Record t : Type := mk {
  path : jsstring;
  type : kind;
  oldContent : option jsstring;
  newContent : option jsstring;
}.

#[global] Instance kind_eq_dec : EqDecision kind.
Proof. solve_decision. Defined.

#[global] Instance eq_dec : EqDecision t.
Proof. solve_decision. Defined.

End FileDiff.

Module SessionState.

Inductive t : Type :=
  | CREATED | GENERATING | BUILDING | VALIDATING | READY | FAILED | FIXING.

#[global] Instance eq_dec : EqDecision t.
Proof. solve_decision. Defined.

(** The string value of the enum member. *)
Definition name (s : t) : jsstring :=
  match s with
  | CREATED => js "CREATED"
  | GENERATING => js "GENERATING"
  | BUILDING => js "BUILDING"
  | VALIDATING => js "VALIDATING"
  | READY => js "READY"
  | FAILED => js "FAILED"
  | FIXING => js "FIXING"
  end.

End SessionState.

Module Session.

(** [metadata] is never inspected by the manager. *)
Record t : Type := mk {
  id : jsstring;
  userId : jsstring;
  state : SessionState.t;
  currentVersion : option jsstring;
  lastValidVersion : option jsstring;
  createdAt : JsDate.t;
  expiresAt : JsDate.t;
  metadata : option (JsObject.t jsstring);
}.

End Session.

(** ** Exceptions

    Every [throw new Error(...)] of the three classes, one constructor per
    throw site, and the [RangeError] of [toISOString]. *)
Inductive Error : Type :=
  | PathTooLong (len : nat)
  | PathTraversal
  | AbsolutePath
  | NullByte
  | FileTooLarge (size : N)
  | FileNotFound (path : jsstring)
  | SnapshotNotFound (id : VersionId)
  | VersionNotFound (id : VersionId)
  | SessionNotFound (id : jsstring)
  | InvalidTransition (from to : SessionState.t) (valid : list SessionState.t)
  | RangeError.

(** The four ways [validatePath] rejects a path. *)
Definition InvalidPath (e : Error) : Prop :=
  match e with
  | PathTooLong _ | PathTraversal | AbsolutePath | NullByte => True
  | _ => False
  end.

(** The text of the exception, as the template literals build it. *)
Definition message (e : Error) : jsstring :=
  match e with
  | PathTooLong len =>
    js "Path length " ++ JsString.of_N (N.of_nat len)
    ++ js " exceeds maximum " ++ JsString.of_N 4096
  | PathTraversal =>
    js "Path traversal detected: paths cannot contain "
    ++ [34; 46; 46; 34]%N
  | AbsolutePath => js "Absolute paths are not allowed"
  | NullByte => js "Null bytes are not allowed in paths"
  | FileTooLarge size =>
    js "File size " ++ JsString.of_N size
    ++ js " exceeds maximum allowed size " ++ JsString.of_N 10485760
  | FileNotFound path => js "File not found: " ++ path
  | SnapshotNotFound id => js "Snapshot not found: " ++ id
  | VersionNotFound id => js "Version not found: " ++ id
  | SessionNotFound id => js "Session not found: " ++ id
  | InvalidTransition from to valid =>
    js "Invalid state transition from " ++ SessionState.name from
    ++ js " to " ++ SessionState.name to ++ js ". Valid transitions: "
    ++ JsString.join (js ", ") (List.map SessionState.name valid)
  | RangeError => js "Invalid time value"
  end.

(** The outcome of a call that may throw. A method that also changes the
    state returns the outcome together with the state it leaves behind: an
    exception does not undo what was done before it. *)
Inductive result (A : Type) : Type :=
  | Ok (a : A)
  | Throw (e : Error).

Arguments Ok {A} a.
Arguments Throw {A} e.

(** ** The heap

    [Map<string, string>] objects and [Version] objects are shared by
    reference, so they live in a heap; a reference is the index of its cell.
    JavaScript has no dangling reference: a read beyond the heap gives a junk
    value that the invariants below rule out. *)
Module Heap.

Record t : Type := mk {
  maps : list (JsMap.t jsstring);
  versions : list Version.t;
}.

Definition empty : t := mk [] [].

Definition alloc_map (m : JsMap.t jsstring) (h : t) : loc * t :=
  (length (maps h), mk (maps h ++ [m]) (versions h)).

Definition read_map (l : loc) (h : t) : JsMap.t jsstring :=
  default JsMap.empty (maps h !! l).

Definition write_map (l : loc) (m : JsMap.t jsstring) (h : t) : t :=
  mk (<[l := m]> (maps h)) (versions h).

Definition junk_version : Version.t :=
  Version.mk [] JsDate.Invalid 0 VersionStatus.FAILED None.

Definition alloc_version (v : Version.t) (h : t) : loc * t :=
  (length (versions h), mk (maps h) (versions h ++ [v])).

Definition read_version (l : loc) (h : t) : Version.t :=
  default junk_version (versions h !! l).

(** Assignments to [Map] objects of the heap, one after the other. *)
Definition mutate (writes : list (loc * JsMap.t jsstring)) (h : t) : t :=
  fold_left (λ h w, write_map w.1 w.2 h) writes h.

(** Every [Map] of the heap has pairwise distinct keys. *)
Definition wf (h : t) : Prop :=
  ∀ l m, maps h !! l = Some m → JsMap.wf m.

End Heap.

(** ** [VFS] ([backend/src/vfs/VFS.ts]) *)
Module VFS.

(** [files] refers to the working [Map]; [snapshots] maps a version id to
    the [Map] retained for it. The [snapshots] map itself is private and
    never handed out, so it is kept by value. *)
Record t : Type := mk {
  files : loc;
  snapshots : JsMap.t loc;
}.

Definition state : Type := t * Heap.t.

Definition MAX_FILE_SIZE : N := 10 * 1024 * 1024.
Definition MAX_PATH_LENGTH : nat := 4096.

(** [new VFS()] *)
Definition new (h : Heap.t) : state :=
  let '(l, h') := Heap.alloc_map JsMap.empty h in
  (mk l JsMap.empty, h').

(** The working mapping of the store. *)
Definition working (st : state) : JsMap.t jsstring :=
  Heap.read_map (files st.1) st.2.

Definition validatePath (path : jsstring) : result () :=
  if (MAX_PATH_LENGTH <? length path)%nat then Throw (PathTooLong (length path))
  else if JsString.includes (js "..") path then Throw PathTraversal
  else if JsString.startsWith (js "/") path || JsString.drive_prefix path
  then Throw AbsolutePath
  else if JsString.includes [0%N] path then Throw NullByte
  else Ok ().

Definition normalizePath (path : jsstring) : jsstring :=
  JsString.join (js "/")
    (List.filter (λ segment, (0 <? length segment)%nat)
                 (JsString.split 47 path)).

(** [`v${Date.now()}-${Math.random().toString(36).substring(2, 11)}`]: the
    clock and the random digits are inputs. *)
Definition generateVersionId (now : Z) (rnd : jsstring) : VersionId :=
  js "v" ++ JsString.of_Z now ++ js "-" ++ rnd.

Definition write (path content : jsstring) (st : state) : result () * state :=
  match validatePath path with
  | Throw e => (Throw e, st)
  | Ok _ =>
    let contentSize := JsString.utf8_size content in
    if (MAX_FILE_SIZE <? contentSize)%N
    then (Throw (FileTooLarge contentSize), st)
    else
      let normalizedPath := normalizePath path in
      (Ok (), (st.1, Heap.write_map (files st.1)
                       (JsMap.set normalizedPath content (working st)) st.2))
  end.

Definition read (path : jsstring) (st : state) : result jsstring :=
  let normalizedPath := normalizePath path in
  match JsMap.get normalizedPath (working st) with
  | None => Throw (FileNotFound normalizedPath)
  | Some content => Ok content
  end.

Definition exists_ (path : jsstring) (st : state) : bool :=
  let normalizedPath := normalizePath path in
  JsMap.has normalizedPath (working st).

Definition delete (path : jsstring) (st : state) : state :=
  let normalizedPath := normalizePath path in
  (st.1, Heap.write_map (files st.1)
           (JsMap.delete normalizedPath (working st)) st.2).

Definition list_ (st : state) : list jsstring := JsMap.keys (working st).

(** Returns a reference to a fresh copy of the working [Map]. *)
Definition getAllFiles (st : state) : loc * state :=
  let '(l, h') := Heap.alloc_map (JsMap.of_entries (working st)) st.2 in
  (l, (st.1, h')).

Definition snapshot (now : Z) (rnd : jsstring) (st : state) : VersionId * state :=
  let versionId := generateVersionId now rnd in
  let '(snapshot, h') := Heap.alloc_map (JsMap.of_entries (working st)) st.2 in
  (versionId, (mk (files st.1) (JsMap.set versionId snapshot (snapshots st.1)), h')).

Definition restore (versionId : VersionId) (st : state) : result () * state :=
  match JsMap.get versionId (snapshots st.1) with
  | None => (Throw (SnapshotNotFound versionId), st)
  | Some snapshot =>
    let '(l, h') :=
      Heap.alloc_map (JsMap.of_entries (Heap.read_map snapshot st.2)) st.2 in
    (Ok (), (mk l (snapshots st.1), h'))
  end.

(** The body of the loop of [diff] for one path: at most one entry is
    pushed. *)
Definition diff_step (snapshot1 snapshot2 : JsMap.t jsstring)
    (diffs : list FileDiff.t) (path : jsstring) : list FileDiff.t :=
  let content1 := JsMap.get path snapshot1 in
  let content2 := JsMap.get path snapshot2 in
  match content1, content2 with
  | None, Some c2 => diffs ++ [FileDiff.mk path FileDiff.added None (Some c2)]
  | Some c1, None => diffs ++ [FileDiff.mk path FileDiff.deleted (Some c1) None]
  | _, _ =>
    if bool_decide (content1 ≠ content2)
    then diffs ++ [FileDiff.mk path FileDiff.modified content1 content2]
    else diffs
  end.

(** The entry the loop pushes for one path, if any. *)
Definition pushed (m1 m2 : JsMap.t jsstring) (path : jsstring) : list FileDiff.t :=
  diff_step m1 m2 [] path.

Definition diff_maps (snapshot1 snapshot2 : JsMap.t jsstring) : list FileDiff.t :=
  let allPaths := JsSet.of_list (JsMap.keys snapshot1 ++ JsMap.keys snapshot2) in
  fold_left (diff_step snapshot1 snapshot2) allPaths [].

Definition diff (v1 v2 : VersionId) (st : state) : result (list FileDiff.t) :=
  let snapshot1 := JsMap.get v1 (snapshots st.1) in
  let snapshot2 := JsMap.get v2 (snapshots st.1) in
  match snapshot1, snapshot2 with
  | None, _ => Throw (SnapshotNotFound v1)
  | Some _, None => Throw (SnapshotNotFound v2)
  | Some s1, Some s2 => Ok (diff_maps (Heap.read_map s1 st.2) (Heap.read_map s2 st.2))
  end.

(** [this.files.clear()] empties the working [Map] in place. *)
Definition clear (st : state) : state :=
  (mk (files st.1) JsMap.empty, Heap.write_map (files st.1) JsMap.empty st.2).

Definition getSnapshot (versionId : VersionId) (st : state) : option loc :=
  JsMap.get versionId (snapshots st.1).

(** The store's own references are live, and the working [Map] is not one
    of the retained snapshots. *)
Definition inv (st : state) : Prop :=
  Heap.wf st.2
  ∧ files st.1 < length (Heap.maps st.2)
  ∧ ∀ id l, JsMap.get id (snapshots st.1) = Some l →
            l < length (Heap.maps st.2) ∧ l ≠ files st.1.

(** The states a store goes through: built by [new VFS()], changed by its
    methods, while the rest of the program allocates objects of its own. *)
Inductive reachable : state → Prop :=
  | reach_new h : Heap.wf h → reachable (new h)
  | reach_write path content st :
      reachable st → reachable (write path content st).2
  | reach_delete path st : reachable st → reachable (delete path st)
  | reach_snapshot now rnd st : reachable st → reachable (snapshot now rnd st).2
  | reach_restore versionId st : reachable st → reachable (restore versionId st).2
  | reach_clear st : reachable st → reachable (clear st)
  | reach_getAllFiles st : reachable st → reachable (getAllFiles st).2
  | reach_alloc_map m st :
      JsMap.wf m → reachable st → reachable (st.1, (Heap.alloc_map m st.2).2)
  | reach_alloc_version v st :
      reachable st → reachable (st.1, (Heap.alloc_version v st.2).2).

(** A mutation of the live store: a [write], whether it returns or throws,
    or a [delete]. *)
Inductive op : Type :=
  | Write (path content : jsstring)
  | Delete (path : jsstring).

Definition run_op (st : state) (o : op) : state :=
  match o with
  | Write path content => (write path content st).2
  | Delete path => delete path st
  end.

Definition run_ops (ops : list op) (st : state) : state :=
  fold_left run_op ops st.

End VFS.

(** ** [VersionManager] ([backend/src/vfs/VersionManager.ts]) *)
Module VersionManager.

(** [versions] maps a version id to a reference to the tracked [Version]
    object; [sessionVersions] maps a session id to its array of ids. *)
Record t : Type := mk {
  versions : JsMap.t loc;
  sessionVersions : JsMap.t (list VersionId);
}.

Definition state : Type := t * Heap.t.

Definition new : t := mk JsMap.empty JsMap.empty.

Definition generateVersionId (now : Z) (rnd : jsstring) : VersionId :=
  js "v" ++ JsString.of_Z now ++ js "-" ++ rnd.

(** [createVersion(sessionId, files, status)]. [files] is a reference to the
    caller's [Map]; [idClock] and [rnd] feed [generateVersionId] and [now] is
    the clock read by [new Date()]. The result is a reference to the new
    [Version] object, the one that is also stored under its id. *)
Definition createVersion (sessionId : jsstring) (files : loc)
    (status : VersionStatus.t) (idClock : Z) (rnd : jsstring) (now : Z)
    (st : state) : loc * state :=
  let versionId := generateVersionId idClock rnd in
  let '(copy, h1) :=
    Heap.alloc_map (JsMap.of_entries (Heap.read_map files st.2)) st.2 in
  let version :=
    Version.mk versionId (JsDate.TimeValue now) copy status None in
  let '(ref, h2) := Heap.alloc_version version h1 in
  let versions' := JsMap.set versionId ref (versions st.1) in
  let sv :=
    if JsMap.has sessionId (sessionVersions st.1) then sessionVersions st.1
    else JsMap.set sessionId [] (sessionVersions st.1) in
  let sv' :=
    JsMap.set sessionId (default [] (JsMap.get sessionId sv) ++ [versionId]) sv in
  (ref, (mk versions' sv', h2)).

Definition getVersion (versionId : VersionId) (st : state) : option loc :=
  JsMap.get versionId (versions st.1).

(** The spread [{ ...version, status, errorLog, timestamp: new Date() }]
    builds a new object; the [files] reference is copied, not the [Map]. *)
Definition updateVersionStatus (versionId : VersionId)
    (status : VersionStatus.t) (errorLog : option jsstring) (now : Z)
    (st : state) : result () * state :=
  match JsMap.get versionId (versions st.1) with
  | None => (Throw (VersionNotFound versionId), st)
  | Some ref =>
    let version := Heap.read_version ref st.2 in
    let updatedVersion :=
      Version.mk (Version.id version) (JsDate.TimeValue now)
                 (Version.files version) status errorLog in
    let '(ref', h') := Heap.alloc_version updatedVersion st.2 in
    (Ok (),
     (mk (JsMap.set versionId ref' (versions st.1)) (sessionVersions st.1), h'))
  end.

(** The backwards search of [getLastValidVersion]. *)
Fixpoint last_valid (ids : list VersionId) (st : state) : option loc :=
  match ids with
  | [] => None
  | versionId :: older =>
    match JsMap.get versionId (versions st.1) with
    | Some ref =>
      if bool_decide (Version.status (Heap.read_version ref st.2)
                      = VersionStatus.VALID)
      then Some ref else last_valid older st
    | None => last_valid older st
    end
  end.

Definition getLastValidVersion (sessionId : jsstring) (st : state) : option loc :=
  match JsMap.get sessionId (sessionVersions st.1) with
  | None => None
  | Some versionIds => last_valid (rev versionIds) st
  end.

Definition getLatestVersion (sessionId : jsstring) (st : state) : option loc :=
  match JsMap.get sessionId (sessionVersions st.1) with
  | None => None
  | Some versionIds =>
    match last versionIds with
    | None => None
    | Some latestId => JsMap.get latestId (versions st.1)
    end
  end.

(** The storage format. *)
Record Serialized : Type := mkSerialized {
  s_id : jsstring;
  s_timestamp : jsstring;
  s_files : JsObject.t jsstring;
  s_status : VersionStatus.t;
  s_errorLog : option jsstring;
}.

Definition serializeVersion (version : Version.t) (h : Heap.t) : result Serialized :=
  match JsDate.toISOString (Version.timestamp version) with
  | None => Throw RangeError
  | Some iso =>
    Ok (mkSerialized (Version.id version) iso
          (JsObject.fromEntries (Heap.read_map (Version.files version) h))
          (Version.status version) (Version.errorLog version))
  end.

(** The result is a new [Version] object whose [files] is a new [Map]. *)
Definition deserializeVersion (data : Serialized) (h : Heap.t) : Version.t * Heap.t :=
  let '(files, h') :=
    Heap.alloc_map (JsMap.of_entries (JsObject.entries (s_files data))) h in
  (Version.mk (s_id data) (JsDate.parse (s_timestamp data)) files
              (s_status data) (s_errorLog data), h').

(** Every tracked reference points to an allocated [Version] object. *)
Definition inv (st : state) : Prop :=
  ∀ id ref, JsMap.get id (versions st.1) = Some ref →
            ref < length (Heap.versions st.2).

End VersionManager.

(** ** [SessionManager] ([backend/src/sessions/SessionManager.ts]) *)
Module SessionManager.

Import SessionState.

Definition VALID_TRANSITIONS (s : SessionState.t) : list SessionState.t :=
  match s with
  | CREATED => [GENERATING; FAILED]
  | GENERATING => [BUILDING; FAILED]
  | BUILDING => [VALIDATING; FAILED]
  | VALIDATING => [READY; FAILED]
  | READY => [GENERATING; BUILDING; FIXING]
  | FAILED => [FIXING; GENERATING]
  | FIXING => [BUILDING; FAILED]
  end.

(** A session object is reached only through the [sessions] map here, so an
    assignment to one of its fields is an update of its entry. *)
Record t : Type := mk {
  sessions : JsMap.t Session.t;
  sessionLocks : JsMap.t bool;
}.

Definition new : t := mk JsMap.empty JsMap.empty.

Definition generateSessionId (now : Z) (rnd : jsstring) : jsstring :=
  js "session-" ++ JsString.of_Z now ++ js "-" ++ rnd.

(** [userId] defaults to ['anonymous'] when the argument is omitted. *)
Definition createSession (userId : option jsstring)
    (metadata : option (JsObject.t jsstring))
    (idClock : Z) (rnd : jsstring) (now : Z) (st : t) : Session.t * t :=
  let sessionId := generateSessionId idClock rnd in
  let expiresAt := JsDate.of_time (now + 24 * 60 * 60 * 1000) in
  let session :=
    Session.mk sessionId (default (js "anonymous") userId) CREATED None None
               (JsDate.TimeValue now) expiresAt metadata in
  (session, mk (JsMap.set sessionId session (sessions st))
               (JsMap.set sessionId false (sessionLocks st))).

Definition deleteSession (sessionId : jsstring) (st : t) : t :=
  mk (JsMap.delete sessionId (sessions st))
     (JsMap.delete sessionId (sessionLocks st)).

(** [now] is the clock read by [new Date()]. *)
Definition getSession (sessionId : jsstring) (now : Z) (st : t) : option Session.t * t :=
  match JsMap.get sessionId (sessions st) with
  | Some session =>
    if JsDate.lt (Session.expiresAt session) (JsDate.TimeValue now)
    then (None, deleteSession sessionId st)
    else (Some session, st)
  | None => (None, st)
  end.

(** A version pointer is truthy when it is neither [null] nor empty. *)
Definition truthy_version (v : option jsstring) : bool :=
  match v with
  | Some s => JsString.truthy s
  | None => false
  end.

(** The result is the outcome, the manager after the call and the lines
    written by [console.log]. *)
Definition transitionState (sessionId : jsstring) (newState : SessionState.t)
    (log : jsstring) (st : t) : result () * t * list jsstring :=
  match JsMap.get sessionId (sessions st) with
  | None => (Throw (SessionNotFound sessionId), st, [])
  | Some session =>
    let validNextStates := VALID_TRANSITIONS (Session.state session) in
    if negb (bool_decide (newState ∈ validNextStates))
    then (Throw (InvalidTransition (Session.state session) newState
                   validNextStates), st, [])
    else
      let out :=
        if JsString.truthy log
        then [js "[Session " ++ sessionId ++ js "] "
              ++ name (Session.state session) ++ js " -> " ++ name newState
              ++ js ": " ++ log]
        else [] in
      let lastValid :=
        if bool_decide (newState = READY)
           && truthy_version (Session.currentVersion session)
        then Session.currentVersion session
        else Session.lastValidVersion session in
      let session' :=
        Session.mk (Session.id session) (Session.userId session) newState
                   (Session.currentVersion session) lastValid
                   (Session.createdAt session) (Session.expiresAt session)
                   (Session.metadata session) in
      (Ok (), mk (JsMap.set sessionId session' (sessions st)) (sessionLocks st),
       out)
  end.

Definition setCurrentVersion (sessionId versionId : jsstring) (st : t) :
    result () * t :=
  match JsMap.get sessionId (sessions st) with
  | None => (Throw (SessionNotFound sessionId), st)
  | Some session =>
    let session' :=
      Session.mk (Session.id session) (Session.userId session)
                 (Session.state session) (Some versionId)
                 (Session.lastValidVersion session)
                 (Session.createdAt session) (Session.expiresAt session)
                 (Session.metadata session) in
    (Ok (), mk (JsMap.set sessionId session' (sessions st)) (sessionLocks st))
  end.

Definition lockSession (sessionId : jsstring) (st : t) : bool * t :=
  match JsMap.get sessionId (sessionLocks st) with
  | Some true => (false, st)
  | _ => (true, mk (sessions st) (JsMap.set sessionId true (sessionLocks st)))
  end.

Definition unlockSession (sessionId : jsstring) (st : t) : t :=
  mk (sessions st) (JsMap.set sessionId false (sessionLocks st)).

Definition isLocked (sessionId : jsstring) (st : t) : bool :=
  default false (JsMap.get sessionId (sessionLocks st)).

(** One turn of the loop of [cleanupExpiredSessions]: the count so far and
    the manager, and the entry under the cursor. *)
Definition sweep_step (now : Z) (acc : nat * t) (e : jsstring * Session.t) : nat * t :=
  if JsDate.lt (Session.expiresAt e.2) (JsDate.TimeValue now)
  then (S acc.1, deleteSession e.1 acc.2) else acc.

(** The sweep visits the entries present when it starts; deleting the entry
    under the cursor does not disturb the iteration. *)
Definition cleanupExpiredSessions (now : Z) (st : t) : nat * t :=
  fold_left (sweep_step now) (sessions st) (0, st).

End SessionManager.

(** ** The specification's own words

    The predicates the claims are stated with: they follow the text of the
    specification, not the code. *)
Module Spec.

(** The rejections of the path policy, in the words of the specification. *)
Definition contains_dotdot (path : jsstring) : Prop :=
  ∃ pre post, path = pre ++ js ".." ++ post.

Definition leading_slash (path : jsstring) : Prop :=
  ∃ rest, path = js "/" ++ rest.

Definition drive_letter_prefix (path : jsstring) : Prop :=
  ∃ c rest, ((97 ≤ c ≤ 122) ∨ (65 ≤ c ≤ 90))%N ∧ path = c :: js ":" ++ rest.

Definition contains_null (path : jsstring) : Prop := 0%N ∈ path.

Definition too_long (path : jsstring) : Prop := 4096 < length path.

Definition unsafe (path : jsstring) : Prop :=
  contains_dotdot path ∨ leading_slash path ∨ drive_letter_prefix path
  ∨ contains_null path ∨ too_long path.

(** The entries of a diff that are about one path. *)
Definition entries_for (path : jsstring) (diffs : list FileDiff.t) : list FileDiff.t :=
  List.filter (λ d, bool_decide (FileDiff.path d = path)) diffs.

(** The classification of a path between two mappings, in the words of the
    specification. *)
Definition expected (m1 m2 : JsMap.t jsstring) (path : jsstring) : list FileDiff.t :=
  match JsMap.get path m1, JsMap.get path m2 with
  | None, Some c2 => [FileDiff.mk path FileDiff.added None (Some c2)]
  | Some c1, None => [FileDiff.mk path FileDiff.deleted (Some c1) None]
  | Some c1, Some c2 =>
    if decide (c1 = c2) then []
    else [FileDiff.mk path FileDiff.modified (Some c1) (Some c2)]
  | None, None => []
  end.

(** The transition table of section 4.4. *)
Definition allowed (s : SessionState.t) : list SessionState.t :=
  match s with
  | SessionState.CREATED => [SessionState.GENERATING; SessionState.FAILED]
  | SessionState.GENERATING => [SessionState.BUILDING; SessionState.FAILED]
  | SessionState.BUILDING => [SessionState.VALIDATING; SessionState.FAILED]
  | SessionState.VALIDATING => [SessionState.READY; SessionState.FAILED]
  | SessionState.READY =>
    [SessionState.GENERATING; SessionState.BUILDING; SessionState.FIXING]
  | SessionState.FAILED => [SessionState.FIXING; SessionState.GENERATING]
  | SessionState.FIXING => [SessionState.BUILDING; SessionState.FAILED]
  end.

(** The session after a successful transition: the new state, and the last
    valid version taken from a current version that is neither null nor
    empty when the target is [READY]. *)
Definition transitioned (session : Session.t) (target : SessionState.t) : Session.t :=
  Session.mk (Session.id session) (Session.userId session) target
             (Session.currentVersion session)
             (match target, Session.currentVersion session with
              | SessionState.READY, Some (c :: v) => Some (c :: v)
              | _, _ => Session.lastValidVersion session
              end)
             (Session.createdAt session) (Session.expiresAt session)
             (Session.metadata session).

End Spec.

(** ** Concrete runs *)
Module Scenario.

(** The scenario of the specification: two files, a snapshot, then a
    rewrite, a delete and a new file. *)
Definition scenario_before : VFS.state :=
  VFS.run_ops [VFS.Write (js "index.html") (js "A");
               VFS.Write (js "a.ts") (js "1")]
              (VFS.new Heap.empty).

Definition scenario_ops : list VFS.op :=
  [VFS.Write (js "index.html") (js "B"); VFS.Delete (js "a.ts");
   VFS.Write (js "b.ts") (js "2")].

(** The pipeline of the coordinator on the scenario store: a copy of the
    working mapping is handed to [createVersion]. *)
Definition version_files : loc * VFS.state :=
  VFS.getAllFiles scenario_before.

Definition version_created : loc * VersionManager.state :=
  VersionManager.createVersion (js "session-1") version_files.1
    VersionStatus.BUILDING 1700000000000 (js "q1w2e3") 1700000000005
    (VersionManager.new, version_files.2.2).

(** A version whose file names include array indices: the round trip lists
    them first, the mapping is the same. *)
Definition demo_heap : Heap.t :=
  Heap.mk [[(js "src/app.ts", js "export {}"); (js "10", js "ten");
            (js "2", js "two"); (js "index.html", js "<html>")]] [].

Definition demo_version : Version.t :=
  Version.mk (js "v1700000000000-q1w2e3") (JsDate.TimeValue 1700000000123) 0
             VersionStatus.FAILED (Some (js "build failed")).

(** A session driven through the public operations: created, given a current
    version, moved to [GENERATING], then to [VALIDATING]. *)
Definition demo_created : Session.t * SessionManager.t :=
  SessionManager.createSession (Some (js "user-1")) None 1700000000000
    (js "ab12cd") 1700000000000 SessionManager.new.

Definition demo_id : jsstring := Session.id demo_created.1.

Definition demo_generating : SessionManager.t :=
  (SessionManager.transitionState demo_id SessionState.GENERATING
     (js "Planning changes")
     (SessionManager.setCurrentVersion demo_id (js "v42") demo_created.2).2).1.2.

Definition demo_validating : SessionManager.t :=
  (SessionManager.transitionState demo_id SessionState.VALIDATING []
     (SessionManager.transitionState demo_id SessionState.BUILDING []
        demo_generating).1.2).1.2.

End Scenario.

(** ** Path segments *)
Module PathShape.

(** The segments a normalized path is made of: none is empty, none holds
    a slash. *)
Definition clean (segs : list jsstring) : Prop :=
  Forall (λ seg, seg ≠ [] ∧ 47%N ∉ seg) segs.

End PathShape.

(** ** Sequences of calls on a store, and what a stored key must satisfy *)
Module StoreCalls.

Import VFS.

(** A call of a method of the store that keeps the retained snapshots:
    every public method that changes something, [clear] apart. The clock
    and the random digits of [snapshot] come with the call. *)
Inductive call : Type :=
  | CallWrite (path content : jsstring)
  | CallDelete (path : jsstring)
  | CallRestore (versionId : VersionId)
  | CallGetAllFiles
  | CallSnapshot (now : Z) (rnd : jsstring).

Definition run_call (st : state) (c : call) : state :=
  match c with
  | CallWrite path content => (write path content st).2
  | CallDelete path => delete path st
  | CallRestore versionId => (restore versionId st).2
  | CallGetAllFiles => (getAllFiles st).2
  | CallSnapshot now rnd => (snapshot now rnd st).2
  end.

Definition run_calls (calls : list call) (st : state) : state :=
  fold_left run_call calls st.

(** The id a call retains a snapshot under, if it is a [snapshot]. *)
Definition snapshot_id (c : call) : option VersionId :=
  match c with
  | CallSnapshot now rnd => Some (generateVersionId now rnd)
  | _ => None
  end.

(** A key is safe when the path policy accepts it and it is its own
    normal form. *)
Definition safe_key (k : jsstring) : Prop :=
  validatePath k = Ok () ∧ normalizePath k = k.

(** Every key of the working mapping and of the retained snapshots is
    safe. *)
Definition keys_safe (st : state) : Prop :=
  (∀ k, k ∈ JsMap.keys (working st) → safe_key k)
  ∧ ∀ id s, getSnapshot id st = Some s →
            ∀ k, k ∈ JsMap.keys (Heap.read_map s st.2) → safe_key k.

(** The entry of the opposite diff: added and deleted are exchanged, and so
    are the old and the new content. *)
Definition mirror (d : FileDiff.t) : FileDiff.t :=
  FileDiff.mk (FileDiff.path d)
    (match FileDiff.type d with
     | FileDiff.added => FileDiff.deleted
     | FileDiff.deleted => FileDiff.added
     | FileDiff.modified => FileDiff.modified
     end)
    (FileDiff.newContent d) (FileDiff.oldContent d).

(** The scenario as calls: a snapshot, the three changes, a second
    snapshot. *)
Definition scenario_calls : list call :=
  [CallSnapshot 1700000000000 (js "k3x9q");
   CallWrite (js "index.html") (js "B"); CallDelete (js "a.ts");
   CallWrite (js "b.ts") (js "2");
   CallSnapshot 1700000000500 (js "zz9yx")].

Definition scenario_after : state :=
  run_calls scenario_calls Scenario.scenario_before.

Definition first_id : VersionId := generateVersionId 1700000000000 (js "k3x9q").
Definition second_id : VersionId := generateVersionId 1700000000500 (js "zz9yx").

End StoreCalls.

(** ** What the session manager's clock tests decide *)
Module Lifecycle.

(** The test [session.expiresAt < now] of [getSession] and of
    [cleanupExpiredSessions]. *)
Definition expired (now : Z) (session : Session.t) : bool :=
  JsDate.lt (Session.expiresAt session) (JsDate.TimeValue now).

(** The ids of the sessions that test as expired, in the order of the map. *)
Definition expired_ids (now : Z) (sessions : JsMap.t Session.t) : list jsstring :=
  List.map fst (List.filter (λ e, expired now e.2) sessions).

Definition day : Z := 24 * 60 * 60 * 1000.

End Lifecycle.

(** ** The remaining methods of [VersionManager] *)
Module VersionQueries.

Import VersionManager.

(** [v.timestamp.getTime()] of the record behind a reference. *)
Definition time_of (h : Heap.t) (ref : loc) : option Z :=
  JsDate.getTime (Version.timestamp (Heap.read_version ref h)).

(** The comparator [(a, b) => a.timestamp.getTime() - b.timestamp.getTime()]
    gives a negative number: [a] sorts before [b]. With an invalid date the
    difference is NaN, which is not negative. *)
Definition sorts_before (h : Heap.t) (a b : loc) : bool :=
  match time_of h a, time_of h b with
  | Some x, Some y => (x <? y)%Z
  | _, _ => false
  end.

(** [Array.prototype.sort] is stable: an element goes after the elements
    that sort before it and before all the others. For a comparator that
    orders the elements consistently (here: when every date is valid) the
    result of a stable sort does not depend on the algorithm; this is
    insertion from the right. *)
Fixpoint insert_sorted (h : Heap.t) (x : loc) (l : list loc) : list loc :=
  match l with
  | [] => [x]
  | y :: l' =>
    if sorts_before h y x then y :: insert_sorted h x l' else x :: y :: l'
  end.

Definition sort_by_timestamp (h : Heap.t) (l : list loc) : list loc :=
  fold_right (insert_sorted h) [] l.

(** [getSessionVersions(sessionId)]: the tracked versions of the ids of the
    session, sorted by timestamp. *)
Definition getSessionVersions (sessionId : jsstring) (st : state) : list loc :=
  match JsMap.get sessionId (sessionVersions st.1) with
  | None => []
  | Some versionIds =>
    sort_by_timestamp st.2
      (omap (λ id, JsMap.get id (versions st.1)) versionIds)
  end.

(** Both dates are valid and the first is not after the second. *)
Definition not_after (h : Heap.t) (a b : loc) : bool :=
  match time_of h a, time_of h b with
  | Some x, Some y => (x <=? y)%Z
  | _, _ => false
  end.

(** The test [version.timestamp < cutoffDate] of [garbageCollect]. *)
Definition older_than (cutoffDate : JsDate.t) (h : Heap.t) (ref : loc) : bool :=
  JsDate.lt (Version.timestamp (Heap.read_version ref h)) cutoffDate.

(** One turn of the loop over the session lists: the ids still tracked are
    kept; a list left empty is removed. *)
Definition prune_step (versions' : JsMap.t loc)
    (acc : JsMap.t (list VersionId)) (e : jsstring * list VersionId) :
    JsMap.t (list VersionId) :=
  let filtered := List.filter (λ id, JsMap.has id versions') e.2 in
  if (length filtered =? 0)%nat then JsMap.delete e.1 acc
  else JsMap.set e.1 filtered acc.

(** [garbageCollect(daysToKeep)], from the cutoff date on: [cutoffDate] is
    the date its first two lines compute from the clock and [daysToKeep] in
    local time. The loops visit the entries present when they start;
    deleting or replacing the entry under the cursor does not disturb the
    iteration. *)
Definition garbageCollect (cutoffDate : JsDate.t) (st : state) : nat * state :=
  let versionsToDelete :=
    List.map fst
      (List.filter (λ e, older_than cutoffDate st.2 e.2) (versions st.1)) in
  let versions' :=
    fold_left (λ acc id, JsMap.delete id acc) versionsToDelete (versions st.1) in
  let sessionVersions' :=
    fold_left (prune_step versions') (sessionVersions st.1)
              (sessionVersions st.1) in
  (length versionsToDelete, (mk versions' sessionVersions', st.2)).

Definition clear (st : state) : state := (new, st.2).

(** The id is tracked and its record is [VALID]. *)
Definition valid_at (st : state) (id : VersionId) : bool :=
  match JsMap.get id (versions st.1) with
  | Some ref =>
    bool_decide (Version.status (Heap.read_version ref st.2)
                 = VersionStatus.VALID)
  | None => false
  end.

(** What holds of a manager whatever was called on it: the maps have no
    key twice; a tracked reference points to an allocated record that
    carries the id it is stored under and a valid date; a session list is
    not empty and all its ids are tracked. *)
Definition consistent (st : state) : Prop :=
  JsMap.wf (versions st.1)
  ∧ JsMap.wf (sessionVersions st.1)
  ∧ (∀ id ref, JsMap.get id (versions st.1) = Some ref →
       ref < length (Heap.versions st.2)
       ∧ Version.id (Heap.read_version ref st.2) = id
       ∧ ∃ ms, JsDate.in_range ms
               ∧ Version.timestamp (Heap.read_version ref st.2)
                 = JsDate.TimeValue ms)
  ∧ ∀ sessionId ids, JsMap.get sessionId (sessionVersions st.1) = Some ids →
      ids ≠ []
      ∧ ∀ id, id ∈ ids → is_Some (JsMap.get id (versions st.1)).

(** The states of a manager: a new one, and what its methods make of one
    whose clock reads valid dates. The heap is shared with the rest of the
    program, which may allocate in it; records are never overwritten. *)
Inductive reachable : state → Prop :=
  | reach_new h : reachable (new, h)
  | reach_createVersion st sessionId files status idClock rnd now :
      reachable st → JsDate.in_range now →
      reachable (createVersion sessionId files status idClock rnd now st).2
  | reach_updateVersionStatus st versionId status errorLog now :
      reachable st → JsDate.in_range now →
      reachable (updateVersionStatus versionId status errorLog now st).2
  | reach_garbageCollect st cutoffDate :
      reachable st → reachable (garbageCollect cutoffDate st).2
  | reach_clear st : reachable st → reachable (clear st)
  | reach_heap st h' :
      reachable st → Heap.versions st.2 `prefix_of` Heap.versions h' →
      reachable (st.1, h').

End VersionQueries.

(** ** [ContextManager] ([backend/src/context/ContextManager.ts]): the
    conversation history *)
Module ContextManager.

Inductive Role : Type := user | assistant.

Record Message : Type := mkMessage {
  role : Role;
  content : jsstring;
  timestamp : JsDate.t;
}.

(** A history array is reached only through the [conversationHistory] map
    here, so a [push] or a [shift] on it is an update of its entry. *)
Record t : Type := mk {
  conversationHistory : JsMap.t (list Message);
}.

Definition new : t := mk JsMap.empty.

Definition maxHistoryLength : nat := 5.

(** [now] is the clock read by [new Date()]. *)
Definition addMessage (sessionId : jsstring) (role : Role) (content : jsstring)
    (now : Z) (cm : t) : t :=
  let histories :=
    if JsMap.has sessionId (conversationHistory cm) then conversationHistory cm
    else JsMap.set sessionId [] (conversationHistory cm) in
  let history :=
    default [] (JsMap.get sessionId histories)
    ++ [mkMessage role content (JsDate.TimeValue now)] in
  let history' :=
    if (maxHistoryLength <? length history)%nat then tail history
    else history in
  mk (JsMap.set sessionId history' histories).

Definition getConversationHistory (sessionId : jsstring) (cm : t) : list Message :=
  default [] (JsMap.get sessionId (conversationHistory cm)).

Definition clearHistory (sessionId : jsstring) (cm : t) : t :=
  mk (JsMap.delete sessionId (conversationHistory cm)).

(** A call of [addMessage], with the clock it reads. *)
Record Added : Type := mkAdded {
  a_session : jsstring;
  a_role : Role;
  a_content : jsstring;
  a_now : Z;
}.

Definition add (cm : t) (a : Added) : t :=
  addMessage (a_session a) (a_role a) (a_content a) (a_now a) cm.

Definition message_of (a : Added) : Message :=
  mkMessage (a_role a) (a_content a) (JsDate.TimeValue (a_now a)).

(** [array.slice(-n)]: the last [n] elements. *)
Definition slice_last {A} (n : nat) (l : list A) : list A :=
  drop (length l - n) l.

End ContextManager.

(** ** [Orchestrator] ([backend/src/orchestrator/Orchestrator.ts])

    The coordinator holds one store, one version manager, one session
    manager and one context manager. A pipeline is modelled as a single
    uninterrupted run: nothing else is called on the managers while it
    awaits the gateway. The gateway is outside the program: what its
    awaited calls return or throw is an input, taken at the declared types
    ([Plan], [FileSet]). *)
Module Orchestrator.

Import SessionState.

Record Plan : Type := mkPlan {
  intent : jsstring;
  affectedFiles : list jsstring;
  reasoning : jsstring;
  steps : list jsstring;
}.

Definition FileSet : Type := JsObject.t jsstring.

(** What a pipeline throws: an error of the store or of a manager, one of
    the two errors [fixErrors] makes itself, or whatever the gateway
    throws ([None] when that is not an [Error] object). *)
Inductive Thrown : Type :=
  | Raised (e : Error)
  | NoCurrentVersion
  | VersionMissing
  | Foreign (message : option jsstring).

(** [error instanceof Error ? error.message : 'Unknown error'] *)
Definition errorMessage (error : Thrown) : jsstring :=
  match error with
  | Raised e => message e
  | NoCurrentVersion => js "No current version to fix"
  | VersionMissing => js "Version not found"
  | Foreign (Some m) => m
  | Foreign None => js "Unknown error"
  end.

Inductive outcome (A : Type) : Type :=
  | Return (a : A)
  | Raise (e : Thrown).

Arguments Return {A} a.
Arguments Raise {A} e.

(** The injected components, the heap they share and the lines written by
    [console.log]. *)
Record t : Type := mk {
  vfs : VFS.t;
  versionManager : VersionManager.t;
  sessionManager : SessionManager.t;
  contextManager : ContextManager.t;
  heap : Heap.t;
  console : list jsstring;
}.

(** The clock and random readings of one run, in the order of the calls
    that make them, and the outcomes of the awaited gateway calls. *)
Record Env : Type := mkEnv {
  at_getSession : Z;
  at_userMessage : Z;
  plan_outcome : outcome Plan;
  at_planMessage : Z;
  generate_outcome : outcome FileSet;
  fix_outcome : outcome FileSet;
  idClock : Z;
  rnd : jsstring;
  at_createVersion : Z;
  at_updateVersionStatus : Z;
  at_doneMessage : Z;
}.

(** A computation on the components that returns or throws; what was done
    before a throw stays done. *)
Definition M (A : Type) : Type := t → outcome A * t.

Definition ret {A} (a : A) : M A := λ st, (Return a, st).

Definition raise {A} (e : Thrown) : M A := λ st, (Raise e, st).

Definition bind {A B} (m : M A) (f : A → M B) : M B :=
  λ st, match m st with
        | (Return a, st') => f a st'
        | (Raise e, st') => (Raise e, st')
        end.

(** [try { body } catch (error) { handler }] *)
Definition try_catch {A} (body : M A) (handler : Thrown → M A) : M A :=
  λ st, match body st with
        | (Return a, st') => (Return a, st')
        | (Raise e, st') => handler e st'
        end.

#[global] Instance M_ret : MRet M := @ret.
#[global] Instance M_bind : MBind M := λ A B f m, bind m f.

Definition of_result {A} (r : result A) : outcome A :=
  match r with
  | Ok a => Return a
  | Throw e => Raise (Raised e)
  end.

(** [await this.aiGateway. ...] *)
Definition await {A} (o : outcome A) : M A := λ st, (o, st).

(** The calls on the components. *)
Definition getSession (sessionId : jsstring) (now : Z) : M (option Session.t) :=
  λ st,
    let r := SessionManager.getSession sessionId now (sessionManager st) in
    (Return r.1,
     mk (vfs st) (versionManager st) r.2 (contextManager st) (heap st)
        (console st)).

Definition transitionState (sessionId : jsstring) (newState : SessionState.t)
    (log : jsstring) : M () :=
  λ st,
    let r := SessionManager.transitionState sessionId newState log
               (sessionManager st) in
    (of_result r.1.1,
     mk (vfs st) (versionManager st) r.1.2 (contextManager st) (heap st)
        (console st ++ r.2)).

Definition setCurrentVersion (sessionId versionId : jsstring) : M () :=
  λ st,
    let r := SessionManager.setCurrentVersion sessionId versionId
               (sessionManager st) in
    (of_result r.1,
     mk (vfs st) (versionManager st) r.2 (contextManager st) (heap st)
        (console st)).

Definition addMessage (sessionId : jsstring) (role : ContextManager.Role)
    (content : jsstring) (now : Z) : M () :=
  λ st,
    (Return (),
     mk (vfs st) (versionManager st) (sessionManager st)
        (ContextManager.addMessage sessionId role content now (contextManager st))
        (heap st) (console st)).

Definition getVersion (versionId : VersionId) : M (option loc) :=
  λ st, (Return (VersionManager.getVersion versionId
                   (versionManager st, heap st)), st).

Definition createVersion (sessionId : jsstring) (files : loc)
    (status : VersionStatus.t) (idClock : Z) (rnd : jsstring) (now : Z) : M loc :=
  λ st,
    let r := VersionManager.createVersion sessionId files status idClock rnd
               now (versionManager st, heap st) in
    (Return r.1,
     mk (vfs st) r.2.1 (sessionManager st) (contextManager st) r.2.2
        (console st)).

Definition updateVersionStatus (versionId : VersionId)
    (status : VersionStatus.t) (errorLog : option jsstring) (now : Z) : M () :=
  λ st,
    let r := VersionManager.updateVersionStatus versionId status errorLog now
               (versionManager st, heap st) in
    (of_result r.1,
     mk (vfs st) r.2.1 (sessionManager st) (contextManager st) r.2.2
        (console st)).

(** [version.id], read from the record. *)
Definition version_id (version : loc) : M VersionId :=
  λ st, (Return (Version.id (Heap.read_version version (heap st))), st).

Definition vfs_clear : M () :=
  λ st,
    let r := VFS.clear (vfs st, heap st) in
    (Return (),
     mk r.1 (versionManager st) (sessionManager st) (contextManager st) r.2
        (console st)).

Definition vfs_write (path content : jsstring) : M () :=
  λ st,
    let r := VFS.write path content (vfs st, heap st) in
    (of_result r.1,
     mk r.2.1 (versionManager st) (sessionManager st) (contextManager st)
        r.2.2 (console st)).

Definition vfs_getAllFiles : M loc :=
  λ st,
    let r := VFS.getAllFiles (vfs st, heap st) in
    (Return r.1,
     mk r.2.1 (versionManager st) (sessionManager st) (contextManager st)
        r.2.2 (console st)).

(** [for (const [path, content] of Object.entries(fileSet)) vfs.write(...)];
    the loop stops at the first write that throws. *)
Fixpoint write_all (entries : list (jsstring * jsstring)) : M () :=
  match entries with
  | [] => ret ()
  | (path, content) :: rest => vfs_write path content;; write_all rest
  end.

(** The [catch] block of both pipelines: the session is moved to [FAILED]
    with the message as log text, then the error is thrown again. If the
    move itself throws, that exception is the one that leaves the block. *)
Definition on_error {A} (sessionId : jsstring) (error : Thrown) : M A :=
  transitionState sessionId FAILED (errorMessage error);; raise error.

(** The [try] block of [execute]. Building and compressing the context
    read the components without changing them and cannot throw; their
    result only feeds the gateway calls, whose outcomes are in [env]. *)
Definition execute_try (sessionId userPrompt : jsstring) (env : Env) : M VersionId :=
  addMessage sessionId ContextManager.user userPrompt (at_userMessage env);;
  transitionState sessionId GENERATING (js "Planning changes");;
  plan ← await (plan_outcome env);
  addMessage sessionId ContextManager.assistant
             (js "Planning: " ++ reasoning plan) (at_planMessage env);;
  fileSet ← await (generate_outcome env);
  transitionState sessionId BUILDING (js "Committing changes");;
  vfs_clear;;
  write_all (JsObject.entries fileSet);;
  files ← vfs_getAllFiles;
  version ← createVersion sessionId files VersionStatus.BUILDING
              (idClock env) (rnd env) (at_createVersion env);
  versionId ← version_id version;
  setCurrentVersion sessionId versionId;;
  transitionState sessionId VALIDATING (js "Validating build");;
  updateVersionStatus versionId VersionStatus.VALID None
                      (at_updateVersionStatus env);;
  transitionState sessionId READY (js "Build complete");;
  addMessage sessionId ContextManager.assistant
             (js "Generated "
              ++ JsString.of_N (N.of_nat (length (JsObject.entries fileSet)))
              ++ js " files based on: " ++ reasoning plan)
             (at_doneMessage env);;
  ret versionId.

(** [execute(sessionId, userPrompt)] *)
Definition execute (sessionId userPrompt : jsstring) (env : Env) : M VersionId :=
  session ← getSession sessionId (at_getSession env);
  match session with
  | None => raise (Raised (SessionNotFound sessionId))
  | Some _ => try_catch (execute_try sessionId userPrompt env)
                        (on_error sessionId)
  end.

(** The [try] block of [fixErrors]. [currentVersion] is
    [session.currentVersion], read from the session object got at the
    start; the calls made before the read do not assign it. The build
    error only feeds the gateway call. *)
Definition fixErrors_try (sessionId : jsstring) (currentVersion : VersionId)
    (env : Env) : M VersionId :=
  transitionState sessionId FIXING (js "Fixing errors");;
  version ← getVersion currentVersion;
  match version with
  | None => raise VersionMissing
  | Some _ =>
    fixedFiles ← await (fix_outcome env);
    vfs_clear;;
    write_all (JsObject.entries fixedFiles);;
    filesMap ← vfs_getAllFiles;
    newVersion ← createVersion sessionId filesMap VersionStatus.BUILDING
                   (idClock env) (rnd env) (at_createVersion env);
    newId ← version_id newVersion;
    setCurrentVersion sessionId newId;;
    transitionState sessionId BUILDING (js "Rebuilding");;
    updateVersionStatus newId VersionStatus.VALID None
                        (at_updateVersionStatus env);;
    transitionState sessionId READY (js "Fix complete");;
    ret newId
  end.

(** [fixErrors(sessionId, error)] *)
Definition fixErrors (sessionId : jsstring) (env : Env) : M VersionId :=
  session ← getSession sessionId (at_getSession env);
  match session with
  | None => raise NoCurrentVersion
  | Some session =>
    match Session.currentVersion session with
    | Some currentVersion =>
      if JsString.truthy currentVersion
      then try_catch (fixErrors_try sessionId currentVersion env)
                     (on_error sessionId)
      else raise NoCurrentVersion
    | None => raise NoCurrentVersion
    end
  end.

(** The session of an id, as the session manager holds it. *)
Definition session_of (sessionId : jsstring) (st : t) : option Session.t :=
  JsMap.get sessionId (SessionManager.sessions (sessionManager st)).

Definition state_of (sessionId : jsstring) (st : t) : option SessionState.t :=
  Session.state <$> session_of sessionId st.

End Orchestrator.

(** ** What a pipeline run is expected to do *)
Module Pipeline.

Import SessionState Orchestrator.

(** [{P} m {Q} {E}]: from a state that satisfies [P], [m] returns a value
    and a state that satisfy [Q], or throws an error in a state that
    satisfy [E]. *)
Definition triple {A} (P : t → Prop) (m : M A) (Q : A → t → Prop)
    (E : Thrown → t → Prop) : Prop :=
  ∀ st, P st →
    match m st with
    | (Return a, st') => Q a st'
    | (Raise e, st') => E e st'
    end.

(** The session of [sessionId] is in state [s], with these two version
    pointers. *)
Definition sess (sessionId : jsstring) (s : SessionState.t)
    (current lastValid : option jsstring) (st : t) : Prop :=
  ∃ session,
    session_of sessionId st = Some session
    ∧ Session.state session = s
    ∧ Session.currentVersion session = current
    ∧ Session.lastValidVersion session = lastValid.

(** The error [write] throws for an entry, if it rejects it: that depends
    on the path and the content only. *)
Definition rejection (e : jsstring * jsstring) : option Error :=
  match VFS.validatePath e.1 with
  | Throw err => Some err
  | Ok _ =>
    if (VFS.MAX_FILE_SIZE <? JsString.utf8_size e.2)%N
    then Some (FileTooLarge (JsString.utf8_size e.2))
    else None
  end.

Fixpoint first_rejection (entries : list (jsstring * jsstring)) : option Error :=
  match entries with
  | [] => None
  | e :: rest =>
    match rejection e with
    | Some err => Some err
    | None => first_rejection rest
    end
  end.

(** The entries before the first one that is rejected. *)
Fixpoint accepted_prefix (entries : list (jsstring * jsstring)) :
    list (jsstring * jsstring) :=
  match entries with
  | [] => []
  | e :: rest =>
    match rejection e with
    | Some _ => []
    | None => e :: accepted_prefix rest
    end
  end.

(** The mapping after the entries were written one after the other: paths
    in normal form, a later entry for the same file replacing an earlier
    one. *)
Definition written (entries : list (jsstring * jsstring))
    (m : JsMap.t jsstring) : JsMap.t jsstring :=
  fold_left (λ acc e, JsMap.set (VFS.normalizePath e.1) e.2 acc) entries m.

(** The error [execute] ends with for a live session in state [s], if any:
    the first step that throws decides. *)
Definition execute_error (s : SessionState.t) (env : Env) : option Thrown :=
  if bool_decide (GENERATING ∈ SessionManager.VALID_TRANSITIONS s) then
    match plan_outcome env with
    | Raise e => Some e
    | Return _ =>
      match generate_outcome env with
      | Raise e => Some e
      | Return fileSet =>
        Raised <$> first_rejection (JsObject.entries fileSet)
      end
    end
  else Some (Raised (InvalidTransition s GENERATING
                       (SessionManager.VALID_TRANSITIONS s))).

(** The error [fixErrors] ends with for a live session in state [s] whose
    current version is tracked or not. *)
Definition fixErrors_error (s : SessionState.t) (tracked : bool) (env : Env) : Thrown :=
  if bool_decide (FIXING ∈ SessionManager.VALID_TRANSITIONS s) then
    if tracked then
      match fix_outcome env with
      | Raise e => e
      | Return fixedFiles =>
        match first_rejection (JsObject.entries fixedFiles) with
        | Some err => Raised err
        | None =>
          Raised (InvalidTransition BUILDING READY
                    (SessionManager.VALID_TRANSITIONS BUILDING))
        end
      end
    else VersionMissing
  else Raised (InvalidTransition s FIXING (SessionManager.VALID_TRANSITIONS s)).

(** The file set [fixErrors] commits, when it gets that far. *)
Definition fix_committed (s : SessionState.t) (tracked : bool) (env : Env) :
    option FileSet :=
  if bool_decide (FIXING ∈ SessionManager.VALID_TRANSITIONS s) && tracked then
    match fix_outcome env with
    | Return fixedFiles =>
      match first_rejection (JsObject.entries fixedFiles) with
      | None => Some fixedFiles
      | Some _ => None
      end
    | Raise _ => None
    end
  else None.

(** No version was created or replaced since [st0]. *)
Definition untouched_versions (st0 st : t) : Prop :=
  versionManager st = versionManager st0
  ∧ Heap.versions (heap st) = Heap.versions (heap st0).

(** The store and the [Map] objects are as in [st0]. *)
Definition untouched_store (st0 st : t) : Prop :=
  vfs st = vfs st0 ∧ heap st = heap st0.

(** The store retains no snapshot and, if it was in order in [st0], its
    working mapping is [m]. *)
Definition store_holds (st0 : t) (m : JsMap.t jsstring) (st : t) : Prop :=
  VFS.snapshots (vfs st) = JsMap.empty
  ∧ (VFS.inv (vfs st0, heap st0) →
     VFS.inv (vfs st, heap st) ∧ VFS.working (vfs st, heap st) = m).

(** The store after a run of [execute] that failed: untouched if the run
    did not get to the commit step, and otherwise cleared and holding what
    was written before the rejected file. *)
Definition store_after_failure (s : SessionState.t) (env : Env) (st0 st : t) : Prop :=
  match plan_outcome env, generate_outcome env with
  | Return _, Return fileSet =>
    if bool_decide (GENERATING ∈ SessionManager.VALID_TRANSITIONS s)
    then store_holds st0
           (written (accepted_prefix (JsObject.entries fileSet)) JsMap.empty) st
    else untouched_store st0 st
  | _, _ => untouched_store st0 st
  end.

(** The version of [versionId] is tracked with this status, and its files
    are [m] if the store was in order in [st0]. *)
Definition committed (st0 : t) (versionId : VersionId)
    (status : VersionStatus.t) (m : JsMap.t jsstring) (st : t) : Prop :=
  ∃ ref,
    VersionManager.getVersion versionId (versionManager st, heap st) = Some ref
    ∧ Version.id (Heap.read_version ref (heap st)) = versionId
    ∧ Version.status (Heap.read_version ref (heap st)) = status
    ∧ (VFS.inv (vfs st0, heap st0) →
       Heap.read_map (Version.files (Heap.read_version ref (heap st))) (heap st)
       = m).

End Pipeline.

(** ** A coordinator at work *)
Module PipelineScenario.

Import Orchestrator.

(** The store of the scenario with its snapshot, no version yet, and the
    demo session just created. *)
Definition store : VFS.state :=
  (VFS.snapshot 1700000000000 (js "k3x9q") Scenario.scenario_before).2.

Definition start : Orchestrator.t :=
  mk store.1 VersionManager.new Scenario.demo_created.2 ContextManager.new
     store.2 [].

Definition plan : Plan :=
  mkPlan (js "CREATE") [js "index.html"] (js "a landing page")
         [js "write the page"].

Definition generated : FileSet :=
  JsObject.fromEntries
    [(js "src//app.ts", js "export {}"); (js "index.html", js "<h1>Hi</h1>")].

Definition rejected : FileSet :=
  JsObject.fromEntries
    [(js "a.ts", js "1"); (js "../secret", js "x"); (js "b.ts", js "2")].

Definition env (files : FileSet) : Env :=
  mkEnv 1700000000100 1700000000101 (Return plan) 1700000000102
        (Return files) (Return files) 1700000000103 (js "r4nd0m")
        1700000000104 1700000000105 1700000000106.

(** The readings of a later run. *)
Definition later (files : FileSet) : Env :=
  mkEnv 1700000000200 1700000000201 (Return plan) 1700000000202
        (Return files) (Return files) 1700000000203 (js "n3xt01")
        1700000000204 1700000000205 1700000000206.

(** The same coordinator after a first successful run. *)
Definition after_first_run : Orchestrator.t :=
  (execute Scenario.demo_id (js "make a page") (env generated) start).2.

End PipelineScenario.

(** ** The session routes ([backend/src/api/routes/sessions.ts])

    The handlers of the prompt route and of the delete route, on the
    components of the coordinator. As for the pipelines, a handler is
    modelled as one uninterrupted run. *)
Module SessionRoutes.

Import SessionState Orchestrator.

(** The answers, by their status code. [ServerError] is the answer of the
    [catch] block of the prompt route; [Unhandled] is the answer of the
    server's error handler ([server.ts]) to an exception that leaves a
    route handler, a [TypeError] here, which has no status code of its
    own. *)
Inductive Reply : Type :=
  | Processed (versionId : VersionId) (state : SessionState.t)
  | NoContent
  | BadRequest
  | NotFound
  | Conflict
  | ServerError (message : jsstring)
  | Unhandled.

Definition status (reply : Reply) : nat :=
  match reply with
  | Processed _ _ => 200
  | NoContent => 204
  | BadRequest => 400
  | NotFound => 404
  | Conflict => 409
  | ServerError _ => 500
  | Unhandled => 500
  end.

(** The code units [String.prototype.trim] strips: white space and line
    terminators. *)
Definition is_white_space (c : N) : bool :=
  ((c =? 9) || (c =? 10) || (c =? 11) || (c =? 12) || (c =? 13) || (c =? 32)
   || (c =? 160) || (c =? 5760) || ((8192 <=? c) && (c <=? 8202))
   || (c =? 8232) || (c =? 8233) || (c =? 8239) || (c =? 8287)
   || (c =? 12288) || (c =? 65279))%N.

(** [prompt.trim().length === 0] *)
Definition blank (prompt : jsstring) : bool := forallb is_white_space prompt.

Definition with_sessions (sm : SessionManager.t) (st : t) : t :=
  mk (vfs st) (versionManager st) sm (contextManager st) (heap st) (console st).

(** [request.body] as the prompt route reads it: [None] when the request
    has no body ([undefined] or [null]); otherwise what its [prompt]
    property holds, [None] when that is missing or not a string. *)
Definition Body : Type := option (option jsstring).

(** [POST /api/v1/sessions/:id/prompt]. The handler first destructures
    [request.body], which throws a [TypeError] when there is no body: the
    exception leaves the handler before anything is looked up, and the
    server's error handler answers it. [at_route] and [at_reply] are the
    clock read by the two lookups of the handler itself. The lines written
    to the server log are left out. *)
Definition promptRoute (id : jsstring) (body : Body)
    (at_route at_reply : Z) (env : Env) (st : t) : Reply * t :=
  match body with
  | None => (Unhandled, st)
  | Some None => (BadRequest, st)
  | Some (Some prompt) =>
    if blank prompt then (BadRequest, st)
    else
      let found := SessionManager.getSession id at_route (sessionManager st) in
      let st1 := with_sessions found.2 st in
      match found.1 with
      | None => (NotFound, st1)
      | Some _ =>
        if SessionManager.isLocked id (sessionManager st1) then (Conflict, st1)
        else
          let st2 :=
            with_sessions
              (SessionManager.lockSession id (sessionManager st1)).2 st1 in
          let run := execute id prompt env st2 in
          let answered :=
            match run.1 with
            | Return versionId =>
              let again :=
                SessionManager.getSession id at_reply (sessionManager run.2) in
              (Processed versionId
                 (match again.1 with
                  | Some session => Session.state session
                  | None => READY
                  end),
               with_sessions again.2 run.2)
            | Raise error => (ServerError (errorMessage error), run.2)
            end in
          (answered.1,
           with_sessions
             (SessionManager.unlockSession id (sessionManager answered.2))
             answered.2)
      end
  end.

(** [DELETE /api/v1/sessions/:id] *)
Definition deleteRoute (id : jsstring) (now : Z) (st : t) : Reply * t :=
  let found := SessionManager.getSession id now (sessionManager st) in
  match found.1 with
  | None => (NotFound, with_sessions found.2 st)
  | Some _ =>
    (NoContent, with_sessions (SessionManager.deleteSession id found.2) st)
  end.

End SessionRoutes.

(** * Properties *)

(** ** Strings *)
Module JsStringFacts.

Import JsString.

Lemma startsWith_spec (p s : jsstring) :
  startsWith p s = true ↔ ∃ rest, s = p ++ rest.
Proof.
  revert s. induction p as [|c p IH]; intros s; simpl.
  - split; [eauto | done].
  - destruct s as [|d s].
    + split; [done | intros [rest Hr]; done].
    + rewrite andb_true_iff, N.eqb_eq, IH. split.
      * intros [-> [rest ->]]. eauto.
      * intros [rest Hr]. injection Hr as -> ->. eauto.
Qed.

(** [includes] is the substring test. *)
Lemma includes_spec (needle s : jsstring) :
  includes needle s = true ↔ ∃ pre post, s = pre ++ needle ++ post.
Proof.
  induction s as [|d s IH].
  - simpl. rewrite orb_false_r, startsWith_spec. split.
    + intros [rest Hr]. exists [], rest. done.
    + intros (pre & post & Hs). symmetry in Hs.
      apply app_eq_nil in Hs as [-> Hs]. apply app_eq_nil in Hs as [-> ->].
      exists []. done.
  - cbn [includes]. rewrite orb_true_iff, startsWith_spec, IH. split.
    + intros [[rest Hr] | (pre & post & ->)].
      * exists [], rest. done.
      * exists (d :: pre), post. done.
    + intros (pre & post & Hs). destruct pre as [|c pre].
      * left. exists post. done.
      * right. injection Hs as -> ->. eauto.
Qed.

Lemma utf8_size_ascii (s : jsstring) :
  Forall (λ c, (c < 128)%N) s → utf8_size s = N.of_nat (length s).
Proof.
  induction 1 as [|c s Hc _ IH]; [done|].
  cbn [utf8_size length]. apply N.ltb_lt in Hc. rewrite Hc, IH. lia.
Qed.

End JsStringFacts.

(** ** Maps *)
Module JsMapFacts.

Import JsMap.

Section facts.
Context {V : Type}.
Implicit Types (m : JsMap.t V) (k : jsstring) (v : V).

Lemma get_set_eq k v m : get k (set k v m) = Some v.
Proof.
  induction m as [|[k' v'] m IH]; simpl.
  - by rewrite decide_True.
  - destruct (decide (k = k')) as [->|Hne]; simpl.
    + by rewrite decide_True.
    + by rewrite decide_False.
Qed.

Lemma get_set_ne k k' v m : k ≠ k' → get k (set k' v m) = get k m.
Proof.
  intros Hne. induction m as [|[k1 v1] m IH]; simpl.
  - by rewrite decide_False.
  - destruct (decide (k' = k1)) as [->|Hne1]; simpl.
    + by rewrite !decide_False.
    + by rewrite IH.
Qed.

Lemma get_delete_eq k m : get k (delete k m) = None.
Proof.
  induction m as [|[k1 v1] m IH]; [done|].
  unfold delete in *. simpl. case_bool_decide; simpl; [done|].
  by rewrite decide_False.
Qed.

Lemma get_delete_ne k k' m : k ≠ k' → get k (delete k' m) = get k m.
Proof.
  intros Hne. induction m as [|[k1 v1] m IH]; [done|].
  unfold delete in *. simpl. case_bool_decide; simpl; subst.
  - by rewrite decide_False.
  - by rewrite IH.
Qed.

Lemma get_None_keys k m : get k m = None ↔ k ∉ keys m.
Proof.
  induction m as [|[k1 v1] m IH]; simpl.
  - split; [intros _; apply not_elem_of_nil | done].
  - rewrite not_elem_of_cons. destruct (decide (k = k1)) as [->|Hne].
    + split; [done | by intros [? _]].
    + rewrite IH. tauto.
Qed.

Lemma get_Some_keys k m : is_Some (get k m) ↔ k ∈ keys m.
Proof.
  rewrite <-not_eq_None_Some, get_None_keys.
  destruct (decide (k ∈ keys m)); tauto.
Qed.

Lemma has_spec k m : has k m = true ↔ is_Some (get k m).
Proof.
  unfold has. destruct (get k m); split; [eauto | done | done | ].
  by intros [? ?].
Qed.

(** Deleting a key that is not there changes nothing. *)
Lemma delete_absent k m : get k m = None → delete k m = m.
Proof.
  induction m as [|[k1 v1] m IH]; [done|]. simpl.
  destruct (decide (k = k1)); [done|]. intros Hg.
  unfold delete in *. simpl. rewrite bool_decide_false by done. simpl.
  by rewrite IH.
Qed.

Lemma set_absent k v m : get k m = None → set k v m = m ++ [(k, v)].
Proof.
  induction m as [|[k1 v1] m IH]; [done|]. simpl.
  destruct (decide (k = k1)); [done|]. intros Hg. by rewrite IH.
Qed.

Lemma keys_set_present k v m : is_Some (get k m) → keys (set k v m) = keys m.
Proof.
  induction m as [|[k1 v1] m IH]; simpl.
  - by intros [? ?].
  - destruct (decide (k = k1)); simpl; [done|]. intros Hg. by rewrite IH.
Qed.

Lemma wf_set k v m : wf m → wf (set k v m).
Proof.
  unfold wf. intros Hwf. destruct (get k m) as [v0|] eqn:Hg.
  - by rewrite keys_set_present by eauto.
  - rewrite set_absent by done. unfold keys. rewrite map_app. simpl.
    apply NoDup_app. split_and!; [done| |apply NoDup_singleton].
    intros x Hx. rewrite list_elem_of_singleton. intros ->.
    by apply get_None_keys in Hg.
Qed.

Lemma wf_delete k m : wf m → wf (delete k m).
Proof.
  unfold wf, keys, delete. induction m as [|[k1 v1] m IH]; [done|].
  simpl. rewrite NoDup_cons. intros [Hk1 Hm].
  case_bool_decide; simpl; [by apply IH|].
  apply NoDup_cons. split; [|by apply IH].
  intros Hin. apply Hk1. apply list_elem_of_fmap in Hin as (e & -> & He).
  apply list_elem_of_fmap. exists e. split; [done|].
  apply list_elem_of_In, filter_In in He as [He _]. by apply list_elem_of_In.
Qed.

Lemma wf_empty : wf (@empty V).
Proof. apply NoDup_nil_2. Qed.

Lemma fold_set_fresh (l acc : JsMap.t V) :
  NoDup (keys acc ++ keys l) →
  fold_left (λ acc e, set e.1 e.2 acc) l acc = acc ++ l.
Proof.
  revert acc. induction l as [|[k v] l IH]; intros acc Hnd; simpl.
  - by rewrite app_nil_r.
  - rewrite set_absent.
    + rewrite IH; [by rewrite <-app_assoc|].
      unfold keys in *. rewrite map_app. simpl. by rewrite <-app_assoc.
    + apply get_None_keys. apply NoDup_app in Hnd as (_ & Hd & _).
      intros Hin. apply (Hd k Hin). simpl. left.
Qed.

(** Building a [Map] from the entries of a [Map] gives the same entries in
    the same order. *)
Lemma of_entries_wf m : wf m → of_entries m = m.
Proof. intros Hwf. unfold of_entries. by rewrite fold_set_fresh. Qed.

Lemma wf_fold_set (l acc : JsMap.t V) :
  wf acc → wf (fold_left (λ acc e, set e.1 e.2 acc) l acc).
Proof.
  revert acc. induction l as [|[k v] l IH]; intros acc Hwf; [done|].
  simpl. apply IH. by apply wf_set.
Qed.

Lemma wf_of_entries (l : list (jsstring * V)) : wf (of_entries l).
Proof. apply wf_fold_set, wf_empty. Qed.

(** In a well-formed [Map], [get] finds exactly the entries. *)
Lemma get_Some_elem_of k v m : wf m → get k m = Some v ↔ (k, v) ∈ m.
Proof.
  unfold wf, keys. induction m as [|[k1 v1] m IH]; simpl.
  - intros _. split; [done | by intros ?%elem_of_nil].
  - rewrite NoDup_cons. intros [Hk1 Hm]. rewrite elem_of_cons.
    destruct (decide (k = k1)) as [->|Hne].
    + split; [intros [= ->]; by left|]. intros [[= ->]|Hin]; [done|].
      exfalso. apply Hk1. apply list_elem_of_fmap. by exists (k1, v).
    + rewrite IH by done. split; [by right|].
      intros [[= ? _]|?]; done.
Qed.

End facts.

End JsMapFacts.

(** ** The heap *)
Module HeapFacts.

Import Heap.

Lemma read_map_alloc_new m h :
  read_map (alloc_map m h).1 (alloc_map m h).2 = m.
Proof.
  unfold read_map, alloc_map. simpl.
  by rewrite lookup_app_r, Nat.sub_diag by lia.
Qed.

Lemma read_map_alloc_old l m h :
  l < length (maps h) → read_map l (alloc_map m h).2 = read_map l h.
Proof.
  intros Hl. unfold read_map, alloc_map. simpl. by rewrite lookup_app_l.
Qed.

Lemma read_map_write_eq l m h :
  l < length (maps h) → read_map l (write_map l m h) = m.
Proof.
  intros Hl. unfold read_map, write_map. simpl.
  by rewrite list_lookup_insert_eq.
Qed.

Lemma read_map_write_ne l l' m h :
  l ≠ l' → read_map l (write_map l' m h) = read_map l h.
Proof.
  intros Hl. unfold read_map, write_map. simpl.
  by rewrite list_lookup_insert_ne.
Qed.

Lemma length_write_map l m h :
  length (maps (write_map l m h)) = length (maps h).
Proof. unfold write_map. simpl. apply length_insert. Qed.

Lemma length_alloc_map m h :
  length (maps (alloc_map m h).2) = S (length (maps h)).
Proof. unfold alloc_map. simpl. rewrite length_app. simpl. lia. Qed.

Lemma read_map_alloc_version l v h :
  read_map l (alloc_version v h).2 = read_map l h.
Proof. done. Qed.

Lemma read_version_alloc_new v h :
  read_version (alloc_version v h).1 (alloc_version v h).2 = v.
Proof.
  unfold read_version, alloc_version. simpl.
  by rewrite lookup_app_r, Nat.sub_diag by lia.
Qed.

Lemma read_version_alloc_old l v h :
  l < length (versions h) → read_version l (alloc_version v h).2 = read_version l h.
Proof.
  intros Hl. unfold read_version, alloc_version. simpl. by rewrite lookup_app_l.
Qed.

Lemma wf_read_map l h : wf h → JsMap.wf (read_map l h).
Proof.
  intros Hwf. unfold read_map. destruct (maps h !! l) as [m|] eqn:Hm; simpl.
  - by eapply Hwf.
  - apply JsMapFacts.wf_empty.
Qed.

Lemma wf_alloc_map m h : wf h → JsMap.wf m → wf (alloc_map m h).2.
Proof.
  intros Hwf Hm l m'. unfold alloc_map. simpl.
  intros [Hl | [_ Hl]]%lookup_app_Some; [by eapply Hwf|].
  apply list_lookup_singleton_Some in Hl as [_ <-]. done.
Qed.

Lemma wf_write_map l m h : wf h → JsMap.wf m → wf (write_map l m h).
Proof.
  intros Hwf Hm l' m'. unfold write_map. simpl.
  intros [(-> & <- & _) | [_ Hl]]%list_lookup_insert_Some; [done|].
  by eapply Hwf.
Qed.

Lemma wf_alloc_version v h : wf h → wf (alloc_version v h).2.
Proof. done. Qed.

Lemma wf_empty_heap : wf empty.
Proof. intros l m. simpl. by rewrite lookup_nil. Qed.

End HeapFacts.

(** ** The file store *)
Module VFSFacts.

Import VFS.

Lemma inv_new h : Heap.wf h → inv (new h).
Proof.
  intros Hwf. unfold new, inv. simpl. split_and!.
  - apply (HeapFacts.wf_alloc_map JsMap.empty h Hwf), JsMapFacts.wf_empty.
  - rewrite length_app. simpl. lia.
  - intros id l [=].
Qed.

Lemma validatePath_cases path :
  (∃ e, validatePath path = Throw e ∧ InvalidPath e) ∨ validatePath path = Ok ().
Proof.
  unfold validatePath.
  repeat match goal with
         | |- context [if ?b then _ else _] => destruct b
         end; (by right) || (left; eexists; split; [done | exact I]).
Qed.

(** What [write] does, case by case. *)
Lemma write_cases path content st :
  (∃ e, validatePath path = Throw e ∧ InvalidPath e
        ∧ write path content st = (Throw e, st))
  ∨ (validatePath path = Ok ()
     ∧ (MAX_FILE_SIZE < JsString.utf8_size content)%N
     ∧ write path content st = (Throw (FileTooLarge (JsString.utf8_size content)), st))
  ∨ (validatePath path = Ok ()
     ∧ (JsString.utf8_size content ≤ MAX_FILE_SIZE)%N
     ∧ write path content st =
       (Ok (), (st.1, Heap.write_map (files st.1)
                        (JsMap.set (normalizePath path) content (working st)) st.2))).
Proof.
  unfold write. destruct (validatePath_cases path) as [(e & -> & He) | ->].
  - left. eauto.
  - right. destruct (N.ltb_spec MAX_FILE_SIZE (JsString.utf8_size content)).
    + left. done.
    + right. done.
Qed.

(** Writing the working [Map] back into its cell changes nothing. *)
Lemma write_working_id st :
  (st.1, Heap.write_map (files st.1) (working st) st.2) = st.
Proof.
  destruct st as [v h]. simpl.
  unfold Heap.write_map, working, Heap.read_map. simpl.
  destruct (Heap.maps h !! files v) as [m|] eqn:Hm; simpl.
  - rewrite list_insert_id by done. by destruct h.
  - rewrite list_insert_ge by (by apply lookup_ge_None). by destruct h.
Qed.

(** Every mutation of the live store rewrites the cell of the working [Map]
    and nothing else. *)
Lemma run_op_shape st o :
  ∃ m, run_op st o = (st.1, Heap.write_map (files st.1) m st.2)
       ∧ (JsMap.wf (working st) → JsMap.wf m).
Proof.
  destruct o as [path content | path]; simpl.
  - destruct (write_cases path content st)
      as [(e & _ & _ & ->) | [(_ & _ & ->) | (_ & _ & ->)]]; simpl.
    + exists (working st). by rewrite write_working_id.
    + exists (working st). by rewrite write_working_id.
    + eexists. split; [done|]. apply JsMapFacts.wf_set.
  - eexists. split; [done|]. apply JsMapFacts.wf_delete.
Qed.

Lemma inv_write_working st m :
  inv st → JsMap.wf m → inv (st.1, Heap.write_map (files st.1) m st.2).
Proof.
  intros (Hwf & Hfiles & Hsnap) Hm. unfold inv. simpl. split_and!.
  - by apply HeapFacts.wf_write_map.
  - by rewrite length_insert.
  - intros id l Hl. rewrite length_insert. eauto.
Qed.

Lemma inv_run_op st o : inv st → inv (run_op st o).
Proof.
  intros Hinv. destruct (run_op_shape st o) as (m & -> & Hm).
  apply inv_write_working; [done|]. apply Hm.
  destruct Hinv as (Hwf & _). by apply HeapFacts.wf_read_map.
Qed.

Lemma inv_run_ops ops st : inv st → inv (run_ops ops st).
Proof.
  revert st. induction ops as [|o ops IH]; intros st Hinv; [done|].
  simpl. apply IH. by apply inv_run_op.
Qed.

(** Mutations of the live store keep the store record and every other cell
    of the heap. *)
Lemma run_ops_frame ops st :
  (run_ops ops st).1 = st.1
  ∧ length (Heap.maps (run_ops ops st).2) = length (Heap.maps st.2)
  ∧ ∀ l, l ≠ files st.1 →
         Heap.read_map l (run_ops ops st).2 = Heap.read_map l st.2.
Proof.
  revert st. induction ops as [|o ops IH]; intros st; [done|].
  simpl. destruct (IH (run_op st o)) as (IH1 & IH2 & IH3).
  destruct (run_op_shape st o) as (m & Hop & _).
  rewrite Hop in IH1, IH2, IH3. simpl in *.
  rewrite Hop. split_and!; [done| |].
  - by rewrite IH2, length_insert.
  - intros l Hl. rewrite IH3 by done. by apply HeapFacts.read_map_write_ne.
Qed.

(** A write that passes both checks stores the content under the
    normalized path. *)
Lemma write_accepts path content st :
  validatePath path = Ok () →
  (JsString.utf8_size content ≤ MAX_FILE_SIZE)%N →
  inv st →
  ∃ st', write path content st = (Ok (), st')
         ∧ inv st'
         ∧ working st' = JsMap.set (normalizePath path) content (working st)
         ∧ read path st' = Ok content.
Proof.
  intros Hok Hsize Hinv. unfold write. rewrite Hok.
  apply N.ltb_ge in Hsize. rewrite Hsize.
  eexists. split; [done|].
  assert (working (st.1, Heap.write_map (files st.1)
                    (JsMap.set (normalizePath path) content (working st)) st.2)
          = JsMap.set (normalizePath path) content (working st)) as Hw.
  { unfold working at 1. simpl. apply HeapFacts.read_map_write_eq.
    by destruct Hinv as (_ & ? & _). }
  split_and!.
  - apply inv_write_working; [done|]. apply JsMapFacts.wf_set.
    destruct Hinv as (Hwf & _). by apply HeapFacts.wf_read_map.
  - done.
  - unfold read. rewrite Hw. by rewrite JsMapFacts.get_set_eq.
Qed.

Lemma snapshot_shape now rnd st :
  Heap.wf st.2 →
  snapshot now rnd st
  = (generateVersionId now rnd,
     (mk (files st.1)
         (JsMap.set (generateVersionId now rnd) (length (Heap.maps st.2))
                    (snapshots st.1)),
      (Heap.alloc_map (working st) st.2).2)).
Proof.
  intros Hwf. unfold snapshot.
  rewrite JsMapFacts.of_entries_wf by (by apply HeapFacts.wf_read_map). done.
Qed.

Lemma inv_snapshot now rnd st : inv st → inv (snapshot now rnd st).2.
Proof.
  intros (Hwf & Hfiles & Hsnap). rewrite snapshot_shape by done.
  unfold inv. cbn [fst snd files snapshots]. split_and!.
  - apply HeapFacts.wf_alloc_map; [done | by apply HeapFacts.wf_read_map].
  - rewrite HeapFacts.length_alloc_map. lia.
  - intros id l. rewrite HeapFacts.length_alloc_map.
    destruct (decide (id = generateVersionId now rnd)) as [->|Hne].
    + rewrite JsMapFacts.get_set_eq. intros [= <-]. lia.
    + rewrite JsMapFacts.get_set_ne by done. intros [? ?]%Hsnap. lia.
Qed.

Lemma inv_restore id st : inv st → inv (restore id st).2.
Proof.
  intros (Hwf & Hfiles & Hsnap). unfold restore.
  destruct (JsMap.get id (snapshots st.1)) as [s|] eqn:Hs; [|done].
  unfold inv. cbn [fst snd files snapshots Heap.alloc_map Heap.maps].
  split_and!.
  - apply (HeapFacts.wf_alloc_map _ st.2 Hwf), JsMapFacts.wf_of_entries.
  - rewrite length_app. simpl. lia.
  - intros id' l [? ?]%Hsnap. rewrite length_app. simpl. lia.
Qed.

Lemma restore_Some id s st :
  JsMap.get id (snapshots st.1) = Some s →
  ∃ st', restore id st = (Ok (), st')
         ∧ working st' = JsMap.of_entries (Heap.read_map s st.2)
         ∧ snapshots st'.1 = snapshots st.1.
Proof.
  intros Hs. unfold restore. rewrite Hs. eexists. split; [done|].
  split; [|done]. unfold working, Heap.read_map. simpl.
  by rewrite lookup_app_r, Nat.sub_diag by lia.
Qed.

Lemma inv_clear st : inv st → inv (clear st).
Proof.
  intros (Hwf & Hfiles & Hsnap). unfold clear, inv. simpl. split_and!.
  - apply HeapFacts.wf_write_map; [done | apply JsMapFacts.wf_empty].
  - by rewrite length_insert.
  - intros id l [=].
Qed.

Lemma inv_getAllFiles st : inv st → inv (getAllFiles st).2.
Proof.
  intros (Hwf & Hfiles & Hsnap). unfold getAllFiles, inv.
  cbn [fst snd Heap.alloc_map Heap.maps]. split_and!.
  - apply (HeapFacts.wf_alloc_map _ st.2 Hwf), JsMapFacts.wf_of_entries.
  - rewrite length_app. simpl. lia.
  - intros id l [? ?]%Hsnap. rewrite length_app. simpl. lia.
Qed.

(** The invariant holds in every state the store goes through. *)
Lemma reachable_inv st : reachable st → inv st.
Proof.
  induction 1 as [h Hwf | path content st _ IH | path st _ IH | now rnd st _ IH
                  | versionId st _ IH | st _ IH | st _ IH | m st Hm _ IH
                  | v st _ IH].
  - by apply inv_new.
  - apply (inv_run_op st (Write path content) IH).
  - apply (inv_run_op st (Delete path) IH).
  - by apply inv_snapshot.
  - by apply inv_restore.
  - by apply inv_clear.
  - by apply inv_getAllFiles.
  - destruct IH as (Hwf & Hfiles & Hsnap). unfold inv. simpl. split_and!.
    + by apply HeapFacts.wf_alloc_map.
    + rewrite length_app. simpl. lia.
    + intros id l [? ?]%Hsnap. rewrite length_app. simpl. lia.
  - done.
Qed.

End VFSFacts.

(** ** Path policy *)
Module PathPolicyFacts.

Import JsString Spec.

Lemma drive_prefix_spec path :
  drive_prefix path = true ↔ drive_letter_prefix path.
Proof.
  unfold drive_prefix, drive_letter_prefix, is_ascii_letter.
  destruct path as [|c [|d rest]].
  - split; [done | by intros (? & ? & _ & ?)].
  - split; [done | by intros (? & ? & _ & ?)].
  - rewrite andb_true_iff, orb_true_iff, !andb_true_iff, !N.leb_le, N.eqb_eq.
    split.
    + intros [Hc ->]. exists c, rest. split; [lia | done].
    + intros (c' & rest' & Hc & [= -> -> ->]). split; [lia | done].
Qed.

Lemma includes_null_spec path :
  includes [0%N] path = true ↔ contains_null path.
Proof.
  rewrite JsStringFacts.includes_spec. unfold contains_null. split.
  - intros (pre & post & ->). rewrite elem_of_app. right. left.
  - intros (pre & post & ->)%list_elem_of_split. eauto.
Qed.

Lemma validatePath_Ok path : VFS.validatePath path = Ok () ↔ ¬ unsafe path.
Proof.
  unfold VFS.validatePath, unsafe, VFS.MAX_PATH_LENGTH.
  pose proof (Nat.ltb_lt 4096 (length path)) as Hlen.
  pose proof (JsStringFacts.includes_spec (js "..") path) as Hdots.
  pose proof (JsStringFacts.startsWith_spec (js "/") path) as Hslash.
  pose proof (drive_prefix_spec path) as Hdrive.
  pose proof (includes_null_spec path) as Hnull.
  fold (contains_dotdot path) in Hdots. fold (leading_slash path) in Hslash.
  fold (too_long path) in Hlen.
  destruct (4096 <? length path); [split; [done | tauto]|].
  destruct (includes (js "..") path); [split; [done | tauto]|].
  destruct (startsWith (js "/") path); [split; [done | tauto]|].
  destruct (drive_prefix path); [split; [done | tauto]|].
  destruct (includes [0%N] path); [split; [done | tauto]|].
  split; [|done]. intros _. intros [H|[H|[H|[H|H]]]].
  - by apply Hdots in H.
  - by apply Hslash in H.
  - by apply Hdrive in H.
  - by apply Hnull in H.
  - by apply Hlen in H.
Qed.

Lemma validatePath_unsafe path :
  unsafe path → ∃ e, VFS.validatePath path = Throw e ∧ InvalidPath e.
Proof.
  intros Hun. destruct (VFSFacts.validatePath_cases path) as [?|Hok]; [done|].
  by apply validatePath_Ok in Hok.
Qed.

End PathPolicyFacts.

(** ** Sets and the diff loop *)
Module DiffFacts.

Import VFS Spec.

Lemma fold_add_spec (l acc : list jsstring) :
  NoDup acc →
  NoDup (fold_left (λ acc x, JsSet.add x acc) l acc)
  ∧ ∀ x, x ∈ fold_left (λ acc x, JsSet.add x acc) l acc ↔ x ∈ acc ∨ x ∈ l.
Proof.
  revert acc. induction l as [|y l IH]; intros acc Hnd; simpl.
  - split; [done|]. intros x. rewrite elem_of_nil. tauto.
  - assert (NoDup (JsSet.add y acc)
            ∧ ∀ x, x ∈ JsSet.add y acc ↔ x ∈ acc ∨ x = y) as [Hnd' Hin].
    { unfold JsSet.add. case_bool_decide as Hy.
      - split; [done|]. intros x. split; [tauto|]. by intros [?| ->].
      - split.
        + apply NoDup_app. split_and!; [done| |apply NoDup_singleton].
          intros x Hx ->%list_elem_of_singleton. done.
        + intros x. by rewrite elem_of_app, list_elem_of_singleton. }
    destruct (IH _ Hnd') as [IH1 IH2]. split; [done|].
    intros x. rewrite IH2, Hin, elem_of_cons. tauto.
Qed.

(** A [Set] built from a list holds each element of the list once. *)
Lemma of_list_spec (l : list jsstring) :
  NoDup (JsSet.of_list l) ∧ ∀ x, x ∈ JsSet.of_list l ↔ x ∈ l.
Proof.
  destruct (fold_add_spec l [] (NoDup_nil_2 (A:=jsstring))) as [H1 H2]. split; [done|].
  intros x. unfold JsSet.of_list. rewrite H2, elem_of_nil. tauto.
Qed.

Lemma diff_step_pushed m1 m2 diffs path :
  diff_step m1 m2 diffs path = diffs ++ pushed m1 m2 path.
Proof.
  unfold pushed, diff_step.
  destruct (JsMap.get path m1), (JsMap.get path m2);
    try case_bool_decide; by rewrite ?app_nil_r.
Qed.

Lemma fold_diff_step m1 m2 paths diffs :
  fold_left (diff_step m1 m2) paths diffs
  = diffs ++ flat_map (pushed m1 m2) paths.
Proof.
  revert diffs. induction paths as [|p paths IH]; intros diffs; simpl.
  - by rewrite app_nil_r.
  - by rewrite IH, diff_step_pushed, <-app_assoc.
Qed.

Lemma pushed_path m1 m2 path d : d ∈ pushed m1 m2 path → FileDiff.path d = path.
Proof.
  unfold pushed, diff_step.
  destruct (JsMap.get path m1), (JsMap.get path m2);
    try case_bool_decide; simpl;
    rewrite ?list_elem_of_singleton, ?elem_of_nil; by (intros -> || intros []).
Qed.

Lemma entries_for_pushed m1 m2 p q :
  entries_for p (pushed m1 m2 q) = if decide (q = p) then pushed m1 m2 q else [].
Proof.
  unfold entries_for. pose proof (pushed_path m1 m2 q) as Hq.
  induction (pushed m1 m2 q) as [|d ds IH]; [by case_decide|].
  simpl. rewrite IH by (intros d' Hd'; apply Hq; by right).
  rewrite (Hq d) by left. case_decide; [by rewrite bool_decide_true|].
  by rewrite bool_decide_false.
Qed.

Lemma entries_for_flat_map m1 m2 p paths :
  NoDup paths →
  entries_for p (flat_map (pushed m1 m2) paths)
  = if decide (p ∈ paths) then pushed m1 m2 p else [].
Proof.
  induction 1 as [|q paths Hq Hnd IH]; cbn [flat_map].
  - case_decide as Hp; [by apply elem_of_nil in Hp | done].
  - unfold entries_for in *. rewrite List.filter_app.
    fold (entries_for p (pushed m1 m2 q)). rewrite entries_for_pushed, IH.
    destruct (decide (q = p)) as [->|Hne].
    + rewrite (decide_False (P := p ∈ paths)) by done.
      rewrite decide_True by left. apply app_nil_r.
    + destruct (decide (p ∈ paths)) as [Hin|Hout].
      * rewrite decide_True; [done | by right].
      * rewrite decide_False; [done|]. rewrite elem_of_cons.
        intros [?|?]; congruence.
Qed.

Lemma pushed_expected m1 m2 path : pushed m1 m2 path = expected m1 m2 path.
Proof.
  unfold pushed, diff_step, expected.
  destruct (JsMap.get path m1) as [c1|], (JsMap.get path m2) as [c2|]; simpl;
    try done.
  case_bool_decide; case_decide; congruence.
Qed.

Lemma diff_maps_entries m1 m2 path :
  entries_for path (diff_maps m1 m2) = expected m1 m2 path.
Proof.
  unfold diff_maps. rewrite fold_diff_step. simpl.
  destruct (of_list_spec (JsMap.keys m1 ++ JsMap.keys m2)) as [Hnd Hin].
  rewrite entries_for_flat_map by done. case_decide as Hp.
  - apply pushed_expected.
  - rewrite Hin, elem_of_app in Hp. unfold expected.
    rewrite (proj2 (JsMapFacts.get_None_keys path m1)) by tauto.
    rewrite (proj2 (JsMapFacts.get_None_keys path m2)) by tauto. done.
Qed.

End DiffFacts.

(** ** The file store: validation, diff and snapshots *)
Module VFSTheorems.

Import VFS Spec Scenario.

(** C6. [write] rejects every path that contains [..], starts with [/],
    has a drive-letter prefix, contains a null byte or is longer than 4096
    code units: it throws one of the invalid-path errors and leaves the store
    as it was. For a path that passes, content of more than 10 MiB (in UTF-8
    bytes) is rejected with the file-too-large error, the store unchanged;
    content of at most 10 MiB, the boundary included, is stored under the
    normalized path. *)
Theorem write_enforces_path_and_size_limits (path content : jsstring) (st : state) :
  (Spec.unsafe path →
   ∃ e, InvalidPath e ∧ write path content st = (Throw e, st))
  ∧ (¬ Spec.unsafe path →
     (10 * 1024 * 1024 < JsString.utf8_size content)%N →
     write path content st
     = (Throw (FileTooLarge (JsString.utf8_size content)), st))
  ∧ (¬ Spec.unsafe path →
     (JsString.utf8_size content ≤ 10 * 1024 * 1024)%N →
     inv st →
     ∃ st', write path content st = (Ok (), st')
            ∧ inv st'
            ∧ working st' = JsMap.set (normalizePath path) content (working st)
            ∧ read path st' = Ok content).
Proof.
  split_and!.
  - intros (e & He & Hinv)%PathPolicyFacts.validatePath_unsafe.
    exists e. split; [done|]. unfold write. by rewrite He.
  - intros Hok%PathPolicyFacts.validatePath_Ok Hsize. unfold write. rewrite Hok.
    apply N.ltb_lt in Hsize. unfold MAX_FILE_SIZE. by rewrite Hsize.
  - intros Hok%PathPolicyFacts.validatePath_Ok Hsize Hinv.
    by apply VFSFacts.write_accepts.
Qed.

Lemma write_enforces_path_and_size_limits_witness :
  let st := new Heap.empty in
  (∃ e, InvalidPath e ∧ write (js "../etc/passwd") (js "hack") st = (Throw e, st))
  ∧ (∃ st', write (js "src//index.ts") (js "ok") st = (Ok (), st')
            ∧ inv st'
            ∧ working st' = JsMap.set (js "src/index.ts") (js "ok") (working st)
            ∧ read (js "src//index.ts") st' = Ok (js "ok")).
Proof.
  intros st.
  destruct (write_enforces_path_and_size_limits (js "../etc/passwd") (js "hack") st)
    as (H1 & _ & _).
  destruct (write_enforces_path_and_size_limits (js "src//index.ts") (js "ok") st)
    as (_ & _ & H3).
  split.
  - apply H1. left. exists [], (js "/etc/passwd"). reflexivity.
  - apply H3.
    + apply PathPolicyFacts.validatePath_Ok. reflexivity.
    + vm_compute. discriminate.
    + apply VFSFacts.inv_new, HeapFacts.wf_empty_heap.
Defined.

(** Content of exactly 10 MiB is accepted. *)
Example write_at_the_boundary :
  let st := new Heap.empty in
  let content := repeat 120%N (N.to_nat (10 * 1024 * 1024)) in
  JsString.utf8_size content = (10 * 1024 * 1024)%N
  ∧ ∃ st', write (js "big.txt") content st = (Ok (), st')
           ∧ read (js "big.txt") st' = Ok content.
Proof.
  intros st content.
  assert (JsString.utf8_size content = (10 * 1024 * 1024)%N) as Hsize.
  { unfold content. rewrite JsStringFacts.utf8_size_ascii.
    - by rewrite repeat_length, N2Nat.id.
    - apply Forall_forall. intros c Hc%list_elem_of_In%repeat_spec. by subst. }
  split; [done|].
  destruct (VFSFacts.write_accepts (js "big.txt") content st)
    as (st' & Hw & _ & _ & Hr).
  - reflexivity.
  - rewrite Hsize. done.
  - apply VFSFacts.inv_new, HeapFacts.wf_empty_heap.
  - eauto.
Qed.

(** C10. [read], [exists] and [delete] do not validate the path, they only
    normalize it, whatever the path: the only error [read] can throw is the
    file-not-found one (so never an invalid-path error), [exists] and
    [delete] throw nothing. When the normalized path is absent from the
    store, [read] throws file-not-found, [exists] is false and [delete]
    leaves the store as it was; when it is present, [read] returns its
    content and [exists] is true, even for a path [write] would reject. *)
Theorem read_exists_delete_do_not_validate (path : jsstring) (st : state) :
  (∀ e, read path st = Throw e →
        e = FileNotFound (normalizePath path) ∧ ¬ InvalidPath e)
  ∧ (JsMap.get (normalizePath path) (working st) = None →
     read path st = Throw (FileNotFound (normalizePath path))
     ∧ exists_ path st = false
     ∧ delete path st = st)
  ∧ (∀ content,
       JsMap.get (normalizePath path) (working st) = Some content →
       read path st = Ok content ∧ exists_ path st = true).
Proof.
  split_and!.
  - intros e. unfold read.
    destruct (JsMap.get (normalizePath path) (working st)); [done|].
    intros [= <-]. split; [done | by intros []].
  - intros Habs. unfold read, exists_, delete, JsMap.has. rewrite Habs.
    split_and!; [done | done |].
    rewrite JsMapFacts.delete_absent by done. apply VFSFacts.write_working_id.
  - intros content Hget. unfold read, exists_, JsMap.has. by rewrite Hget.
Qed.

Lemma read_exists_delete_do_not_validate_witness :
  let st := (write (js "notes.txt") (js "n") (new Heap.empty)).2 in
  read (js "/etc/../passwd") st = Throw (FileNotFound (js "etc/../passwd"))
  ∧ exists_ (js "/etc/../passwd") st = false
  ∧ delete (js "/etc/../passwd") st = st.
Proof.
  intros st.
  destruct (read_exists_delete_do_not_validate (js "/etc/../passwd") st)
    as (_ & H2 & _).
  apply H2. reflexivity.
Defined.

(** C7. For two retained snapshots, the entries of [diff] about any path
    are exactly what the classification prescribes: a single [added] entry
    when the path is absent from the first and present in the second, a
    single [deleted] entry in the opposite case, a single [modified] entry
    when it is in both with different content, and no entry when the content
    is the same or the path is in neither. [diff] throws snapshot-not-found
    for the first id when it is unknown, else for the second when that one
    is. *)
Theorem diff_classifies_each_path_once (v1 v2 : VersionId) (st : state) :
  (JsMap.get v1 (snapshots st.1) = None →
   diff v1 v2 st = Throw (SnapshotNotFound v1))
  ∧ (is_Some (JsMap.get v1 (snapshots st.1)) →
     JsMap.get v2 (snapshots st.1) = None →
     diff v1 v2 st = Throw (SnapshotNotFound v2))
  ∧ (∀ s1 s2,
       JsMap.get v1 (snapshots st.1) = Some s1 →
       JsMap.get v2 (snapshots st.1) = Some s2 →
       ∃ diffs, diff v1 v2 st = Ok diffs
                ∧ ∀ path, Spec.entries_for path diffs
                          = Spec.expected (Heap.read_map s1 st.2)
                                               (Heap.read_map s2 st.2) path).
Proof.
  unfold diff. split_and!.
  - by intros ->.
  - by intros [s1 ->] ->.
  - intros s1 s2 -> ->. eexists. split; [done|].
    intros path. apply DiffFacts.diff_maps_entries.
Qed.

(** C2. Once [snapshot()] has returned an id, no sequence of writes and
    deletes on the live store changes the retained snapshot: it still holds
    the mapping that was current when [snapshot()] was called, a [diff] with
    any other retained snapshot is computed from that mapping (and from the
    unchanged content of the other one), on either side, and [restore] of the
    id brings that mapping back as the working mapping. *)
Theorem snapshot_isolation (st : state) (now : Z) (rnd : jsstring) (ops : list op) :
  inv st →
  let m0 := working st in
  let S := (snapshot now rnd st).1 in
  let st1 := (snapshot now rnd st).2 in
  let st2 := run_ops ops st1 in
  (∃ s, getSnapshot S st2 = Some s ∧ Heap.read_map s st2.2 = m0)
  ∧ (∀ B b, getSnapshot B st1 = Some b →
            getSnapshot B st2 = Some b
            ∧ Heap.read_map b st2.2 = Heap.read_map b st1.2
            ∧ diff S B st2 = Ok (diff_maps m0 (Heap.read_map b st1.2))
            ∧ diff B S st2 = Ok (diff_maps (Heap.read_map b st1.2) m0))
  ∧ (∃ st3, restore S st2 = (Ok (), st3)
            ∧ working st3 = m0
            ∧ list_ st3 = JsMap.keys m0
            ∧ ∀ path, read path st3 = read path st).
Proof.
  intros Hinv m0 S st1 st2.
  pose proof (VFSFacts.inv_snapshot now rnd st Hinv) as Hinv1.
  fold st1 in Hinv1.
  destruct Hinv as (Hwf & Hfiles & Hsnap).
  pose proof (VFSFacts.snapshot_shape now rnd st Hwf) as Hshape.
  assert (S = generateVersionId now rnd) as HS by (unfold S; by rewrite Hshape).
  assert (st1 = (mk (files st.1)
                    (JsMap.set S (length (Heap.maps st.2)) (snapshots st.1)),
                 (Heap.alloc_map m0 st.2).2)) as Hst1.
  { unfold st1. by rewrite Hshape, HS. }
  destruct (VFSFacts.run_ops_frame ops st1) as (Hrec & Hlen & Hframe).
  fold st2 in Hrec, Hlen, Hframe.
  assert (JsMap.get S (snapshots st2.1) = Some (length (Heap.maps st.2))) as HgetS.
  { rewrite Hrec, Hst1. simpl. apply JsMapFacts.get_set_eq. }
  assert (files st1.1 = files st.1) as Hf1 by (by rewrite Hst1).
  assert (Heap.read_map (length (Heap.maps st.2)) st2.2 = m0) as HreadS.
  { rewrite Hframe by (rewrite Hf1; lia). rewrite Hst1. simpl.
    apply (HeapFacts.read_map_alloc_new m0 st.2). }
  assert (∀ B b, getSnapshot B st1 = Some b →
                 getSnapshot B st2 = Some b
                 ∧ Heap.read_map b st2.2 = Heap.read_map b st1.2) as Hother.
  { intros B b HB. unfold getSnapshot. rewrite Hrec. split; [done|].
    apply Hframe. destruct Hinv1 as (_ & _ & Hsnap1).
    by destruct (Hsnap1 B b HB). }
  split_and!.
  - exists (length (Heap.maps st.2)). done.
  - intros B b HB. destruct (Hother B b HB) as [HB2 Hb2].
    split_and!; [done | done | |].
    + unfold diff. unfold getSnapshot in HB2. rewrite HgetS, HB2.
      by rewrite HreadS, Hb2.
    + unfold diff. unfold getSnapshot in HB2. rewrite HgetS, HB2.
      by rewrite HreadS, Hb2.
  - destruct (VFSFacts.restore_Some S _ st2 HgetS) as (st3 & Hr & Hw & _).
    rewrite HreadS in Hw.
    rewrite JsMapFacts.of_entries_wf in Hw by (by apply HeapFacts.wf_read_map).
    exists st3. split_and!; [done | done | by unfold list_; rewrite Hw |].
    intros path. unfold read. by rewrite Hw.
Qed.

Lemma inv_scenario_before : inv scenario_before.
Proof. apply VFSFacts.inv_run_ops, VFSFacts.inv_new, HeapFacts.wf_empty_heap. Qed.

Lemma snapshot_isolation_witness :
  let st := scenario_before in
  let S := (snapshot 1700000000000 (js "k3x9q") st).1 in
  let st2 := run_ops scenario_ops (snapshot 1700000000000 (js "k3x9q") st).2 in
  ∃ st3, restore S st2 = (Ok (), st3)
         ∧ working st3 = [(js "index.html", js "A"); (js "a.ts", js "1")].
Proof.
  intros st S st2.
  destruct (snapshot_isolation st 1700000000000 (js "k3x9q") scenario_ops
              inv_scenario_before) as (_ & _ & st3 & H3 & Hw & _).
  exists st3. split; [exact H3 | exact Hw].
Defined.

(** The diff of the scenario, as the specification lists it. *)
Example scenario_diff :
  let st1 := (snapshot 1700000000000 (js "k3x9q") scenario_before).2 in
  let st2 := (snapshot 1700000000001 (js "p0w2z") (run_ops scenario_ops st1)).2 in
  diff (generateVersionId 1700000000000 (js "k3x9q"))
       (generateVersionId 1700000000001 (js "p0w2z")) st2
  = Ok [FileDiff.mk (js "index.html") FileDiff.modified (Some (js "A")) (Some (js "B"));
        FileDiff.mk (js "a.ts") FileDiff.deleted (Some (js "1")) None;
        FileDiff.mk (js "b.ts") FileDiff.added None (Some (js "2"))].
Proof. vm_compute. reflexivity. Qed.

Lemma diff_classifies_each_path_once_witness :
  let st1 := (snapshot 1700000000000 (js "k3x9q") scenario_before).2 in
  let st2 := (snapshot 1700000000001 (js "p0w2z") (run_ops scenario_ops st1)).2 in
  diff (js "v0-missing") (generateVersionId 1700000000000 (js "k3x9q")) st2
  = Throw (SnapshotNotFound (js "v0-missing"))
  ∧ ∃ diffs,
      diff (generateVersionId 1700000000000 (js "k3x9q"))
           (generateVersionId 1700000000001 (js "p0w2z")) st2 = Ok diffs
      ∧ Spec.entries_for (js "a.ts") diffs
        = [FileDiff.mk (js "a.ts") FileDiff.deleted (Some (js "1")) None]
      ∧ Spec.entries_for (js "README.md") diffs = [].
Proof.
  intros st1 st2.
  destruct (diff_classifies_each_path_once (js "v0-missing")
              (generateVersionId 1700000000000 (js "k3x9q")) st2) as (H1 & _ & _).
  destruct (diff_classifies_each_path_once
              (generateVersionId 1700000000000 (js "k3x9q"))
              (generateVersionId 1700000000001 (js "p0w2z")) st2) as (_ & _ & H3).
  split.
  - apply H1. reflexivity.
  - destruct (H3 1 2) as (diffs & Hd & He); [reflexivity | reflexivity |].
    exists diffs. split; [exact Hd|].
    split; [rewrite (He (js "a.ts")) | rewrite (He (js "README.md"))];
      reflexivity.
Defined.

End VFSTheorems.

(** ** The session lifecycle *)
Module SessionTheorems.

Import SessionState SessionManager Spec Scenario.

Lemma VALID_TRANSITIONS_allowed s : VALID_TRANSITIONS s = allowed s.
Proof. by destruct s. Qed.

Lemma transitionState_found st sessionId session target log :
  JsMap.get sessionId (sessions st) = Some session →
  ((target ∉ allowed (Session.state session))
   ∧ transitionState sessionId target log st
     = (Throw (InvalidTransition (Session.state session) target
                 (allowed (Session.state session))), st, []))
  ∨ ((target ∈ allowed (Session.state session))
     ∧ ∃ out, transitionState sessionId target log st
              = (Ok (),
                 mk (JsMap.set sessionId (transitioned session target) (sessions st))
                    (sessionLocks st),
                 out)).
Proof.
  intros Hs. unfold transitionState. rewrite Hs. cbv zeta.
  change (VALID_TRANSITIONS (Session.state session))
    with (allowed (Session.state session)).
  case_bool_decide as Hin; simpl; [right | left; done].
  split; [done|]. eexists. f_equal. f_equal. f_equal. f_equal.
  unfold transitioned. f_equal.
  destruct target; try done. simpl.
  by destruct (Session.currentVersion session) as [[|c v]|].
Qed.

(** C4. For an existing session in state [s]: a target outside the allowed
    set of [s] makes [transitionState] throw the invalid-transition error,
    whose message names [s], the target and the whole allowed set, and the
    manager, hence the session's state, is what it was; a target inside the
    allowed set makes the call return and the session's state become the
    target. *)
Theorem transitions_follow_the_table (st : t) (sessionId : jsstring)
    (session : Session.t) (target : SessionState.t) (log : jsstring) :
  JsMap.get sessionId (sessions st) = Some session →
  let s := Session.state session in
  (target ∉ allowed s →
   ∃ e st', transitionState sessionId target log st = (Throw e, st', [])
            ∧ e = InvalidTransition s target (allowed s)
            ∧ message e
              = js "Invalid state transition from " ++ name s ++ js " to "
                ++ name target ++ js ". Valid transitions: "
                ++ JsString.join (js ", ") (List.map name (allowed s))
            ∧ st' = st
            ∧ Session.state <$> JsMap.get sessionId (sessions st') = Some s)
  ∧ (target ∈ allowed s →
     ∃ st' out, transitionState sessionId target log st = (Ok (), st', out)
                ∧ Session.state <$> JsMap.get sessionId (sessions st')
                  = Some target).
Proof.
  intros Hs s. split; intros Hin.
  - destruct (transitionState_found st sessionId session target log Hs)
      as [[_ ->] | [? _]]; [|done].
    eexists _, _. split_and!; [done | done | done | done |].
    by rewrite Hs.
  - destruct (transitionState_found st sessionId session target log Hs)
      as [[? _] | [_ [out ->]]]; [done|].
    eexists _, _. split; [done|]. simpl. by rewrite JsMapFacts.get_set_eq.
Qed.

Lemma transitions_follow_the_table_witness :
  (∃ e st', transitionState demo_id READY [] demo_generating = (Throw e, st', [])
            ∧ message e
              = js "Invalid state transition from GENERATING to READY. Valid transitions: BUILDING, FAILED"
            ∧ Session.state <$> JsMap.get demo_id (sessions st') = Some GENERATING)
  ∧ (∃ st' out, transitionState demo_id BUILDING [] demo_generating = (Ok (), st', out)
                ∧ Session.state <$> JsMap.get demo_id (sessions st') = Some BUILDING).
Proof.
  assert (∃ session, JsMap.get demo_id (sessions demo_generating) = Some session
                     ∧ Session.state session = GENERATING) as (session & Hs & Hst).
  { eexists. split; [vm_compute; reflexivity | reflexivity]. }
  destruct (transitions_follow_the_table demo_generating demo_id session READY [] Hs)
    as [H1 _].
  destruct (transitions_follow_the_table demo_generating demo_id session BUILDING [] Hs)
    as [_ H2].
  rewrite Hst in H1, H2. split.
  - destruct H1 as (e & st' & Ht & -> & Hm & -> & Hstate).
    + vm_compute. intros H. repeat (inversion H as [|? ? ? H']; clear H; rename H' into H).
    + eexists _, _. split; [exact Ht|]. split; [reflexivity | exact Hstate].
  - apply H2. vm_compute. apply list_elem_of_here.
Defined.

(** C5, as the code has it. After a successful transition the session is
    the old one with the new state and, when the target is [READY] and
    [currentVersion] is neither null nor the empty string, with
    [lastValidVersion] set to [currentVersion]; in every other case
    [lastValidVersion] is kept. The other fields, the other sessions and the
    locks are untouched. *)
Theorem ready_records_last_valid_version (st st' : t) (sessionId : jsstring)
    (session : Session.t) (target : SessionState.t) (log : jsstring)
    (out : list jsstring) :
  JsMap.get sessionId (sessions st) = Some session →
  transitionState sessionId target log st = (Ok (), st', out) →
  ∃ session',
    JsMap.get sessionId (sessions st') = Some session'
    ∧ Session.state session' = target
    ∧ Session.lastValidVersion session'
      = match target, Session.currentVersion session with
        | READY, Some (c :: v) => Some (c :: v)
        | _, _ => Session.lastValidVersion session
        end
    ∧ Session.id session' = Session.id session
    ∧ Session.userId session' = Session.userId session
    ∧ Session.currentVersion session' = Session.currentVersion session
    ∧ Session.createdAt session' = Session.createdAt session
    ∧ Session.expiresAt session' = Session.expiresAt session
    ∧ Session.metadata session' = Session.metadata session
    ∧ sessionLocks st' = sessionLocks st
    ∧ ∀ other, other ≠ sessionId →
               JsMap.get other (sessions st') = JsMap.get other (sessions st).
Proof.
  intros Hs Ht.
  destruct (transitionState_found st sessionId session target log Hs)
    as [[_ Hthrow] | [_ [out' Hok]]]; [congruence|].
  rewrite Hok in Ht. injection Ht as <- <-.
  exists (transitioned session target). simpl.
  rewrite JsMapFacts.get_set_eq. split_and!; try done.
  intros other Hne. by apply JsMapFacts.get_set_ne.
Qed.

Lemma ready_records_last_valid_version_witness :
  ∃ session',
    JsMap.get demo_id (sessions (transitionState demo_id READY [] demo_validating).1.2)
    = Some session'
    ∧ Session.state session' = READY
    ∧ Session.lastValidVersion session' = Some (js "v42").
Proof.
  destruct (JsMap.get demo_id (sessions demo_validating)) as [session|] eqn:Hs;
    [|vm_compute in Hs; discriminate].
  destruct (ready_records_last_valid_version demo_validating
              (transitionState demo_id READY [] demo_validating).1.2
              demo_id session READY [] [] Hs)
    as (session' & Hg & Hst & Hlv & _).
  { vm_compute. reflexivity. }
  exists session'. split; [exact Hg|]. split; [exact Hst|].
  rewrite Hlv. vm_compute in Hs. injection Hs as <-. reflexivity.
Defined.

(** C5 as stated fails for a current version that is the empty string: it
    is not null, yet the transition into [READY] leaves [lastValidVersion]
    at [null]. *)
Lemma ready_with_empty_current_version_counterexample :
  let st0 := (setCurrentVersion demo_id [] demo_created.2).2 in
  let st1 := (transitionState demo_id GENERATING [] st0).1.2 in
  let st2 := (transitionState demo_id BUILDING [] st1).1.2 in
  let st3 := (transitionState demo_id VALIDATING [] st2).1.2 in
  ∃ session session' st4,
    JsMap.get demo_id (sessions st3) = Some session
    ∧ Session.currentVersion session = Some []
    ∧ transitionState demo_id READY [] st3 = (Ok (), st4, [])
    ∧ JsMap.get demo_id (sessions st4) = Some session'
    ∧ Session.lastValidVersion session' = None
    ∧ Session.lastValidVersion session' ≠ Session.currentVersion session.
Proof.
  intros st0 st1 st2 st3. eexists _, _, _.
  split; [vm_compute; reflexivity|].
  split; [reflexivity|].
  split; [vm_compute; reflexivity|].
  split; [vm_compute; reflexivity|].
  split; [reflexivity | discriminate].
Qed.

Lemma get_Some_entry {V} (k : jsstring) (v : V) (m : JsMap.t V) :
  JsMap.get k m = Some v → (k, v) ∈ m.
Proof.
  induction m as [|[k1 v1] m IH]; simpl; [done|].
  destruct (decide (k = k1)) as [->|Hne].
  - intros [= ->]. left.
  - intros Hg. right. by apply IH.
Qed.

Lemma get_delete_None {V} (k k' : jsstring) (m : JsMap.t V) :
  JsMap.get k m = None → JsMap.get k (JsMap.delete k' m) = None.
Proof.
  intros Hg. destruct (decide (k = k')) as [->|Hne].
  - apply JsMapFacts.get_delete_eq.
  - by rewrite JsMapFacts.get_delete_ne.
Qed.

Lemma sweep_keeps_absent now id l acc :
  JsMap.get id (sessions acc.2) = None →
  JsMap.get id (sessions (fold_left (sweep_step now) l acc).2) = None.
Proof.
  revert acc. induction l as [|e l IH]; intros acc Hacc; [done|].
  simpl. apply IH. unfold sweep_step.
  destruct (JsDate.lt _ _); [|done]. simpl. by apply get_delete_None.
Qed.

Lemma sweep_evicts now id session l acc :
  (id, session) ∈ l →
  JsDate.lt (Session.expiresAt session) (JsDate.TimeValue now) = true →
  JsMap.get id (sessions (fold_left (sweep_step now) l acc).2) = None.
Proof.
  intros Hin Hexp. revert acc.
  induction l as [|e l IH]; intros acc; [by apply elem_of_nil in Hin|].
  apply elem_of_cons in Hin as [<- | Hin]; simpl.
  - apply sweep_keeps_absent. unfold sweep_step. simpl. rewrite Hexp. simpl.
    apply JsMapFacts.get_delete_eq.
  - by apply IH.
Qed.

(** The sweep removes every session whose expiry has passed. *)
Lemma cleanupExpiredSessions_evicts now id session st :
  JsMap.get id (sessions st) = Some session →
  JsDate.lt (Session.expiresAt session) (JsDate.TimeValue now) = true →
  JsMap.get id (sessions (cleanupExpiredSessions now st).2) = None.
Proof.
  intros Hg Hexp. apply (sweep_evicts now id session); [|done].
  by apply get_Some_entry.
Qed.

Lemma transitionState_absent st sessionId target log :
  JsMap.get sessionId (sessions st) = None →
  transitionState sessionId target log st
  = (Throw (SessionNotFound sessionId), st, []).
Proof. intros Hg. unfold transitionState. by rewrite Hg. Qed.

(** C3, as the code has it. [transitionState] looks the id up in the table
    of sessions and does not read [expiresAt]: it throws session-not-found
    exactly when the id has no entry, so for an id never created, after
    [deleteSession], and for a session past its expiry once [getSession] or
    the sweep has evicted it. *)
Theorem transitionState_needs_a_tracked_session (st : t) (sessionId : jsstring)
    (target : SessionState.t) (log : jsstring) :
  transitionState sessionId target log new
  = (Throw (SessionNotFound sessionId), new, [])
  ∧ (JsMap.get sessionId (sessions st) = None ↔
     transitionState sessionId target log st
     = (Throw (SessionNotFound sessionId), st, []))
  ∧ transitionState sessionId target log (deleteSession sessionId st)
    = (Throw (SessionNotFound sessionId), deleteSession sessionId st, [])
  ∧ (∀ session now,
       JsMap.get sessionId (sessions st) = Some session →
       JsDate.lt (Session.expiresAt session) (JsDate.TimeValue now) = true →
       (getSession sessionId now st).1 = None
       ∧ transitionState sessionId target log (getSession sessionId now st).2
         = (Throw (SessionNotFound sessionId), (getSession sessionId now st).2, [])
       ∧ transitionState sessionId target log (cleanupExpiredSessions now st).2
         = (Throw (SessionNotFound sessionId),
            (cleanupExpiredSessions now st).2, [])).
Proof.
  split_and!.
  - by apply transitionState_absent.
  - split; [apply transitionState_absent|].
    destruct (JsMap.get sessionId (sessions st)) as [session|] eqn:Hs; [|done].
    destruct (transitionState_found st sessionId session target log Hs)
      as [[_ ->] | [_ [out ->]]]; discriminate.
  - apply transitionState_absent. simpl. apply JsMapFacts.get_delete_eq.
  - intros session now Hg Hexp. unfold getSession. rewrite Hg, Hexp. simpl.
    split_and!; [done | |].
    + apply transitionState_absent. simpl. apply JsMapFacts.get_delete_eq.
    + apply transitionState_absent.
      by apply (cleanupExpiredSessions_evicts now sessionId session).
Qed.

Lemma transitionState_needs_a_tracked_session_witness :
  let st := demo_created.2 in
  let later := (1700000000000 + 24 * 60 * 60 * 1000 + 1)%Z in
  (getSession demo_id later st).1 = None
  ∧ transitionState demo_id GENERATING [] (getSession demo_id later st).2
    = (Throw (SessionNotFound demo_id), (getSession demo_id later st).2, [])
  ∧ transitionState demo_id GENERATING [] (cleanupExpiredSessions later st).2
    = (Throw (SessionNotFound demo_id), (cleanupExpiredSessions later st).2, []).
Proof.
  intros st later.
  destruct (transitionState_needs_a_tracked_session st demo_id GENERATING [])
    as (_ & _ & _ & H).
  apply (H demo_created.1); reflexivity.
Defined.

(** C3 as stated fails: a session whose expiry has passed, and that
    [getSession] reports absent, is still found by [transitionState], which
    carries the transition out. *)
Lemma transitionState_on_expired_session_counterexample :
  let st := demo_created.2 in
  let later := (1700000000000 + 24 * 60 * 60 * 1000 + 1)%Z in
  JsDate.lt (Session.expiresAt demo_created.1) (JsDate.TimeValue later) = true
  ∧ (getSession demo_id later st).1 = None
  ∧ transitionState demo_id GENERATING [] st
    ≠ (Throw (SessionNotFound demo_id), st, [])
  ∧ ∃ st', transitionState demo_id GENERATING [] st = (Ok (), st', [])
           ∧ Session.state <$> JsMap.get demo_id (sessions st') = Some GENERATING.
Proof.
  intros st later. split_and!; [reflexivity | reflexivity | |].
  - vm_compute. discriminate.
  - eexists. split; vm_compute; reflexivity.
Qed.

(** C9. [lockSession] is a test-and-set that never waits: on an id that is
    not locked it returns [true] and marks the id locked; on a locked id it
    returns [false] and changes nothing; [unlockSession] clears the flag
    whatever it was. Hence lock, lock, unlock, lock on an unlocked id answer
    [true], [false], nothing, [true]. No call touches the sessions. *)
Theorem lock_is_test_and_set (st : t) (sessionId : jsstring) :
  (isLocked sessionId st = false →
   (lockSession sessionId st).1 = true
   ∧ isLocked sessionId (lockSession sessionId st).2 = true)
  ∧ (isLocked sessionId st = true → lockSession sessionId st = (false, st))
  ∧ isLocked sessionId (unlockSession sessionId st) = false
  ∧ sessions (lockSession sessionId st).2 = sessions st
  ∧ sessions (unlockSession sessionId st) = sessions st
  ∧ (isLocked sessionId st = false →
     let first := lockSession sessionId st in
     let second := lockSession sessionId first.2 in
     let third := lockSession sessionId (unlockSession sessionId second.2) in
     first.1 = true ∧ second.1 = false ∧ second.2 = first.2 ∧ third.1 = true).
Proof.
  assert (∀ s, isLocked sessionId s = false →
               (lockSession sessionId s).1 = true
               ∧ isLocked sessionId (lockSession sessionId s).2 = true) as Hfree.
  { intros s. unfold isLocked, lockSession.
    destruct (JsMap.get sessionId (sessionLocks s)) as [[|]|]; simpl;
      [done | |]; intros _; by rewrite JsMapFacts.get_set_eq. }
  assert (∀ s, isLocked sessionId s = true → lockSession sessionId s = (false, s))
    as Hheld.
  { intros s. unfold isLocked, lockSession.
    by destruct (JsMap.get sessionId (sessionLocks s)) as [[|]|]. }
  assert (∀ s, isLocked sessionId (unlockSession sessionId s) = false) as Hunlock.
  { intros s. unfold isLocked, unlockSession. simpl.
    by rewrite JsMapFacts.get_set_eq. }
  split_and!; [apply Hfree | apply Hheld | apply Hunlock | | done |].
  - unfold lockSession.
    by destruct (JsMap.get sessionId (sessionLocks st)) as [[|]|].
  - intros Hst first second third.
    destruct (Hfree st Hst) as [H1 H1'].
    pose proof (Hheld first.2 H1') as H2.
    destruct (Hfree (unlockSession sessionId second.2) (Hunlock _)) as [H3 _].
    subst second. rewrite H2. done.
Qed.

Lemma lock_is_test_and_set_witness :
  let first := lockSession demo_id demo_created.2 in
  let second := lockSession demo_id first.2 in
  let third := lockSession demo_id (unlockSession demo_id second.2) in
  first.1 = true ∧ second.1 = false ∧ second.2 = first.2 ∧ third.1 = true.
Proof.
  destruct (lock_is_test_and_set demo_created.2 demo_id) as (_ & _ & _ & _ & _ & H).
  apply H. reflexivity.
Defined.

End SessionTheorems.

(** ** The version registry *)
Module VersionTheorems.

Import VersionManager Scenario.

Lemma inv_new_manager h : inv (new, h).
Proof. intros id ref [=]. Qed.

Lemma createVersion_shape sessionId files status idClock rnd now st :
  Heap.wf st.2 →
  let m := Heap.read_map files st.2 in
  let versionId := generateVersionId idClock rnd in
  let version :=
    Version.mk versionId (JsDate.TimeValue now) (length (Heap.maps st.2))
               status None in
  let r := createVersion sessionId files status idClock rnd now st in
  r.1 = length (Heap.versions st.2)
  ∧ versions r.2.1 = JsMap.set versionId (length (Heap.versions st.2)) (versions st.1)
  ∧ r.2.2 = Heap.mk (Heap.maps st.2 ++ [m]) (Heap.versions st.2 ++ [version]).
Proof.
  intros Hwf m versionId version. unfold createVersion.
  rewrite JsMapFacts.of_entries_wf by (by apply HeapFacts.wf_read_map). done.
Qed.

Lemma inv_createVersion sessionId files status idClock rnd now st :
  Heap.wf st.2 → inv st →
  inv (createVersion sessionId files status idClock rnd now st).2.
Proof.
  intros Hwf Hinv id ref.
  destruct (createVersion_shape sessionId files status idClock rnd now st Hwf)
    as (_ & -> & ->).
  simpl. rewrite length_app. simpl.
  destruct (decide (id = generateVersionId idClock rnd)) as [->|Hne].
  - rewrite JsMapFacts.get_set_eq. intros [= <-]. lia.
  - rewrite JsMapFacts.get_set_ne by done. intros ?%Hinv. lia.
Qed.

Lemma inv_updateVersionStatus versionId status errorLog now st :
  inv st → inv (updateVersionStatus versionId status errorLog now st).2.
Proof.
  intros Hinv id ref. unfold updateVersionStatus.
  destruct (JsMap.get versionId (versions st.1)) as [old|] eqn:Hold;
    [|apply Hinv].
  simpl. rewrite length_app. simpl.
  destruct (decide (id = versionId)) as [->|Hne].
  - rewrite JsMapFacts.get_set_eq. intros [= <-]. lia.
  - rewrite JsMapFacts.get_set_ne by done. intros ?%Hinv. lia.
Qed.

Lemma read_map_mutate l writes h :
  Forall (λ w, w.1 ≠ l) writes →
  Heap.read_map l (Heap.mutate writes h) = Heap.read_map l h.
Proof.
  intros Hw. revert h. induction Hw as [|w writes Hne _ IH]; intros h; [done|].
  simpl. unfold Heap.mutate in IH. rewrite IH.
  by apply HeapFacts.read_map_write_ne.
Qed.

Lemma updateVersionStatus_tracked versionId ref status errorLog now st :
  JsMap.get versionId (versions st.1) = Some ref →
  let old := Heap.read_version ref st.2 in
  let updated :=
    Version.mk (Version.id old) (JsDate.TimeValue now) (Version.files old)
               status errorLog in
  updateVersionStatus versionId status errorLog now st
  = (Ok (),
     (mk (JsMap.set versionId (length (Heap.versions st.2)) (versions st.1))
         (sessionVersions st.1),
      (Heap.alloc_version updated st.2).2)).
Proof. intros Hget. unfold updateVersionStatus. by rewrite Hget. Qed.

(** C1. A version minted by [createVersion] holds its own copy of the
    mapping it was given: whatever is later assigned to the [Map] objects
    that existed before the call, among them the mapping passed in and the
    working [Map] of a store under any sequence of writes and deletes, the
    version's files are the mapping as it was at creation. And
    [updateVersionStatus] on a tracked id allocates a replacement record,
    with the same id and the same file mapping, the new status and error log
    and a new timestamp, and puts it under the id: a lookup made afterwards
    gives the replacement, while the record obtained before is unchanged. *)
Theorem versions_are_replaced_not_mutated :
  (∀ (st : state) sessionId files status idClock rnd now,
     Heap.wf st.2 → inv st →
     let m := Heap.read_map files st.2 in
     let created := createVersion sessionId files status idClock rnd now st in
     let version := Heap.read_version created.1 created.2.2 in
     getVersion (Version.id version) created.2 = Some created.1
     ∧ inv created.2
     ∧ Version.status version = status
     ∧ Heap.read_map (Version.files version) created.2.2 = m
     ∧ (∀ writes,
          Forall (λ w, w.1 < length (Heap.maps st.2)) writes →
          Heap.read_map (Version.files version) (Heap.mutate writes created.2.2) = m)
     ∧ (∀ (store : VFS.t) ops,
          VFS.files store < length (Heap.maps st.2) →
          Heap.read_map (Version.files version)
                        (VFS.run_ops ops (store, created.2.2)).2 = m))
  ∧ (∀ (st : state) versionId ref status errorLog now,
       inv st →
       getVersion versionId st = Some ref →
       let old := Heap.read_version ref st.2 in
       ∃ st' ref',
         updateVersionStatus versionId status errorLog now st = (Ok (), st')
         ∧ getVersion versionId st' = Some ref'
         ∧ ref' ≠ ref
         ∧ Heap.read_version ref' st'.2
           = Version.mk (Version.id old) (JsDate.TimeValue now)
                        (Version.files old) status errorLog
         ∧ Heap.read_version ref st'.2 = old
         ∧ Heap.maps st'.2 = Heap.maps st.2
         ∧ Heap.read_map (Version.files (Heap.read_version ref' st'.2)) st'.2
           = Heap.read_map (Version.files old) st.2
         ∧ inv st').
Proof.
  split.
  - intros st sessionId files status idClock rnd now Hwf Hinv m created version.
    pose proof (inv_createVersion sessionId files status idClock rnd now st Hwf Hinv)
      as Hinv'. fold created in Hinv'.
    destruct (createVersion_shape sessionId files status idClock rnd now st Hwf)
      as (Hr & Hv & Hh). fold created in Hr, Hv, Hh. fold m in Hh.
    assert (version = Version.mk (generateVersionId idClock rnd)
                        (JsDate.TimeValue now) (length (Heap.maps st.2))
                        status None) as Hversion.
    { unfold version, Heap.read_version. rewrite Hr, Hh. simpl.
      by rewrite lookup_app_r, Nat.sub_diag by lia. }
    assert (Heap.read_map (length (Heap.maps st.2)) created.2.2 = m) as Hm.
    { unfold Heap.read_map. rewrite Hh. simpl.
      by rewrite lookup_app_r, Nat.sub_diag by lia. }
    rewrite Hversion. cbn [Version.id Version.files Version.status].
    split_and!; [| done | done | done | |].
    + unfold getVersion. rewrite Hv, Hr. apply JsMapFacts.get_set_eq.
    + intros writes Hw. rewrite read_map_mutate; [done|].
      eapply Forall_impl; [exact Hw|]. simpl. intros w. lia.
    + intros store ops Hstore.
      destruct (VFSFacts.run_ops_frame ops (store, created.2.2)) as (_ & _ & Hf).
      rewrite Hf; [done|]. simpl. lia.
  - intros st versionId ref status errorLog now Hinv Hget old.
    unfold getVersion in Hget. pose proof (Hinv _ _ Hget) as Href.
    pose proof (inv_updateVersionStatus versionId status errorLog now st Hinv)
      as Hinv'.
    rewrite (updateVersionStatus_tracked versionId ref status errorLog now st Hget)
      in *.
    fold old in Hinv' |- *.
    set (updated := Version.mk (Version.id old) (JsDate.TimeValue now)
                               (Version.files old) status errorLog) in *.
    eexists _, _. split; [done|]. unfold getVersion. cbn [fst snd versions].
    rewrite JsMapFacts.get_set_eq.
    pose proof (HeapFacts.read_version_alloc_new updated st.2) as Hnew.
    cbn [fst Heap.alloc_version] in Hnew. rewrite Hnew.
    split_and!; [done | lia | done | | done | done | done].
    by apply HeapFacts.read_version_alloc_old.
Qed.

Lemma versions_are_replaced_not_mutated_witness :
  let version := Heap.read_version version_created.1 version_created.2.2 in
  Heap.read_map (Version.files version)
    (VFS.run_ops Scenario.scenario_ops (version_files.2.1, version_created.2.2)).2
  = [(js "index.html", js "A"); (js "a.ts", js "1")]
  ∧ ∃ st' ref',
      updateVersionStatus (Version.id version) VersionStatus.VALID None
                          1700000000009 version_created.2 = (Ok (), st')
      ∧ getVersion (Version.id version) st' = Some ref'
      ∧ Version.status (Heap.read_version ref' st'.2) = VersionStatus.VALID
      ∧ Version.status (Heap.read_version version_created.1 st'.2)
        = VersionStatus.BUILDING.
Proof.
  intros version.
  destruct versions_are_replaced_not_mutated as [Hcreate Hupdate].
  assert (VFS.inv version_files.2) as (Hwf & _ & _)
    by apply VFSFacts.inv_getAllFiles, VFSTheorems.inv_scenario_before.
  destruct (Hcreate (new, version_files.2.2) (js "session-1") version_files.1
              VersionStatus.BUILDING 1700000000000%Z (js "q1w2e3")
              1700000000005%Z Hwf (inv_new_manager _))
    as (Hget & Hinv & _ & _ & _ & Hstore).
  fold version_created in Hget, Hinv, Hstore. fold version in Hget, Hstore.
  split.
  - rewrite Hstore; [reflexivity | vm_compute; lia].
  - destruct (Hupdate version_created.2 (Version.id version) version_created.1
                VersionStatus.VALID None 1700000000009%Z Hinv Hget)
      as (st' & ref' & Hu & Hg & _ & Hnew & Hold & _).
    exists st', ref'. rewrite Hnew, Hold. done.
Defined.

End VersionTheorems.

(** ** Dates *)
Module DateFacts.

Import JsDate.

#[local] Open Scope Z_scope.

Lemma all_from_spec f start n :
  all_from f start n = true →
  ∀ i, start ≤ i < start + Z.of_nat n → f i = true.
Proof.
  revert start. induction n as [|n IH]; intros start Hall i Hi; [lia|].
  simpl in Hall. apply andb_true_iff in Hall as [Hstart Hrest].
  destruct (decide (i = start)) as [->|Hne]; [done|].
  apply (IH (start + 1)); [done | lia].
Qed.

Lemma every_doe_ok : all_from doe_ok 0 (Z.to_nat daysPerEra) = true.
Proof. vm_compute. reflexivity. Qed.

Lemma ymd_of_doe_spec doe :
  0 ≤ doe < daysPerEra →
  ∃ yoe m d, ymd_of_doe doe = (yoe, m, d)
             ∧ 0 ≤ yoe < 400 ∧ 1 ≤ m ≤ 12 ∧ 1 ≤ d ≤ 31
             ∧ doe_of_ymd yoe m d = doe.
Proof.
  intros Hdoe.
  pose proof (all_from_spec _ _ _ every_doe_ok doe) as Hok.
  rewrite Z2Nat.id in Hok by done. specialize (Hok ltac:(lia)).
  unfold doe_ok in Hok. destruct (ymd_of_doe doe) as [[yoe m] d].
  exists yoe, m, d. split; [done|].
  repeat (apply andb_true_iff in Hok as [Hok ?]). lia.
Qed.

(** The calendar conversion is invertible, and gives a month and a day in
    range. *)
Lemma civil_from_days_spec z :
  ∃ y m d, civil_from_days z = (y, m, d)
           ∧ days_from_civil y m d = z
           ∧ 1 ≤ m ≤ 12 ∧ 1 ≤ d ≤ 31
           ∧ 400 * ((z + epochShift) / daysPerEra) ≤ y
             ≤ 400 * ((z + epochShift) / daysPerEra) + 400.
Proof.
  unfold civil_from_days.
  assert (0 ≤ (z + epochShift) mod daysPerEra < daysPerEra) as Hdoe
    by (apply Z.mod_pos_bound; done).
  destruct (ymd_of_doe_spec _ Hdoe) as (yoe & m & d & -> & Hyoe & Hm & Hd & Hback).
  set (era := (z + epochShift) / daysPerEra) in *.
  eexists _, m, d. split; [done|]. split_and!; try lia.
  - unfold days_from_civil.
    replace (yoe + era * 400 + (if m <=? 2 then 1 else 0)
             - (if m <=? 2 then 1 else 0)) with (yoe + era * 400) by lia.
    rewrite Z.div_add, Z.mod_add, Z.div_small, Z.mod_small by lia.
    rewrite Hback. simpl.
    pose proof (Z.div_mod (z + epochShift) daysPerEra ltac:(done)). 
    fold era in H. lia.
  - destruct (m <=? 2); lia.
  - destruct (m <=? 2); lia.
Qed.

Lemma digits_pad w n acc rest :
  0 ≤ n < 10 ^ Z.of_nat w →
  digits w acc (pad w n ++ rest) = Some (acc * 10 ^ Z.of_nat w + n, rest).
Proof.
  revert n acc. induction w as [|w IH]; intros n acc Hn.
  - simpl in *. f_equal. f_equal. lia.
  - cbn [pad digits app].
    assert (10 ^ Z.of_nat (S w) = 10 * 10 ^ Z.of_nat w) as Hpow.
    { rewrite Nat2Z.inj_succ, Z.pow_succ_r by lia. done. }
    assert (0 < 10 ^ Z.of_nat w) as Hpos by (apply Z.pow_pos_nonneg; lia).
    assert (0 ≤ n / 10 ^ Z.of_nat w < 10) as Hq.
    { split; [apply Z.div_pos; lia|]. apply Z.div_lt_upper_bound; lia. }
    unfold digit.
    replace ((48 <=? Z.to_N (48 + n / 10 ^ Z.of_nat w))%N
             && (Z.to_N (48 + n / 10 ^ Z.of_nat w) <=? 57)%N) with true.
    2:{ symmetry. apply andb_true_iff. rewrite !N.leb_le. lia. }
    rewrite IH by (apply Z.mod_pos_bound; lia).
    f_equal. f_equal. rewrite Hpow.
    pose proof (Z.div_mod n (10 ^ Z.of_nat w) ltac:(lia)). 
    rewrite Z2N.id by lia. lia.
Qed.

Lemma parse_year_digit c s :
  (48 ≤ c ≤ 57)%N → parse_year (c :: s) = digits 4 0 (c :: s).
Proof.
  intros Hc. unfold parse_year. destruct c as [|p]; [lia|].
  repeat (destruct p as [p|p|]; try reflexivity; try lia).
Qed.

Lemma parse_year_string y rest :
  -999999 ≤ y ≤ 999999 →
  parse_year (year_string y ++ rest) = Some (y, rest).
Proof.
  intros Hy. unfold year_string.
  destruct (Z.leb_spec 0 y) as [Hpos|Hneg]; simpl andb.
  - destruct (Z.leb_spec y 9999) as [Hsmall|Hbig].
    + transitivity (digits 4 0 (pad 4 y ++ rest)).
      * cbn [pad app]. apply parse_year_digit.
        assert (0 ≤ y / 10 ^ Z.of_nat 3 < 10) as Hq.
        { split; [apply Z.div_pos; simpl; lia|].
          apply Z.div_lt_upper_bound; simpl; lia. }
        unfold digit. lia.
      * rewrite digits_pad by (simpl; lia). f_equal; f_equal; lia.
    + destruct (Z.ltb_spec y 0) as [?|_]; [lia|].
      change (js "+") with [43%N]. cbn [app parse_year].
      rewrite Z.abs_eq by lia.
      rewrite digits_pad by (simpl; lia). f_equal; f_equal; lia.
  - destruct (Z.ltb_spec y 0) as [_|?]; [|lia].
    change (js "-") with [45%N]. cbn [app parse_year].
    rewrite Z.abs_neq by lia.
    rewrite digits_pad by (simpl; lia). cbn [mbind option_bind].
    rewrite Z.mul_0_l, Z.add_0_l.
    destruct (Z.eqb_spec (- y) 0) as [?|_]; [lia|]. f_equal; f_equal; lia.
Qed.

Lemma expect_here c rest : expect c ([c] ++ rest) = Some rest.
Proof. simpl. by rewrite N.eqb_refl. Qed.

(** The time within the day splits into hours, minutes, seconds and
    milliseconds. *)
Lemma time_within_day tod :
  0 ≤ tod < msPerDay →
  0 ≤ tod / 3600000 ≤ 23
  ∧ 0 ≤ tod / 60000 mod 60 ≤ 59
  ∧ 0 ≤ tod / 1000 mod 60 ≤ 59
  ∧ 0 ≤ tod mod 1000 ≤ 999
  ∧ tod / 3600000 * 3600000 + tod / 60000 mod 60 * 60000
    + tod / 1000 mod 60 * 1000 + tod mod 1000 = tod.
Proof.
  unfold msPerDay. intros Htod.
  pose proof (Z.div_mod tod 1000 ltac:(lia)) as H0.
  pose proof (Z.mod_pos_bound tod 1000 ltac:(lia)) as B0.
  pose proof (Z.div_mod (tod / 1000) 60 ltac:(lia)) as H1.
  pose proof (Z.mod_pos_bound (tod / 1000) 60 ltac:(lia)) as B1.
  pose proof (Z.div_mod (tod / 1000 / 60) 60 ltac:(lia)) as H2.
  pose proof (Z.mod_pos_bound (tod / 1000 / 60) 60 ltac:(lia)) as B2.
  replace (tod / 60000) with (tod / 1000 / 60)
    by (rewrite Z.div_div by lia; done).
  replace (tod / 3600000) with (tod / 1000 / 60 / 60)
    by (rewrite !Z.div_div by lia; done).
  lia.
Qed.

(** [new Date(d.toISOString())] is [d], for every valid date [d]. *)
Lemma parse_toISOString ms :
  in_range ms →
  ∃ iso, toISOString (TimeValue ms) = Some iso ∧ parse iso = TimeValue ms.
Proof.
  intros Hms.
  assert ((- maxTime <=? ms) && (ms <=? maxTime) = true) as Hclip
    by (rewrite andb_true_iff, !Z.leb_le; done).
  unfold in_range, maxTime in Hms. unfold toISOString.
  destruct (civil_from_days_spec (ms / msPerDay))
    as (y & m & d & -> & Hback & Hm & Hd & Hy).
  eexists. split; [done|].
  pose proof (Z.div_mod ms msPerDay ltac:(done)) as Hsplit.
  pose proof (Z.mod_pos_bound ms msPerDay ltac:(done)) as Htod.
  destruct (time_within_day _ Htod) as (Hhh & Hmm & Hss & Hmmm & Hsum).
  assert (-999999 ≤ y ≤ 999999) as Hyear.
  { unfold msPerDay, epochShift, daysPerEra in *.
    assert (-100000000 ≤ ms / 86400000 ≤ 100000000) as Hday.
    { split; [apply Z.div_le_lower_bound | apply Z.div_le_upper_bound]; lia. }
    assert (-680 ≤ (ms / 86400000 + 719468) / 146097 ≤ 690) as Hera.
    { split; [apply Z.div_le_lower_bound | apply Z.div_le_upper_bound]; lia. }
    lia. }
  unfold parse, parse_iso.
  rewrite parse_year_string by done. cbn [mbind option_bind].
  rewrite expect_here. cbn [mbind option_bind].
  rewrite digits_pad by (simpl; lia). cbn [mbind option_bind].
  rewrite expect_here. cbn [mbind option_bind].
  rewrite digits_pad by (simpl; lia). cbn [mbind option_bind].
  rewrite expect_here. cbn [mbind option_bind].
  rewrite digits_pad by (simpl; lia). cbn [mbind option_bind].
  rewrite expect_here. cbn [mbind option_bind].
  rewrite digits_pad by (simpl; lia). cbn [mbind option_bind].
  rewrite expect_here. cbn [mbind option_bind].
  rewrite digits_pad by (simpl; lia). cbn [mbind option_bind].
  rewrite expect_here. cbn [mbind option_bind].
  rewrite digits_pad by (simpl; lia). cbn [mbind option_bind].
  change (js "Z") with ([90%N] ++ []). rewrite expect_here.
  cbn [mbind option_bind].
  rewrite !Z.mul_0_l, !Z.add_0_l.
  replace ((1 <=? m) && (m <=? 12) && (1 <=? d) && (d <=? 31)
           && (ms mod msPerDay / 3600000 <=? 23)
           && (ms mod msPerDay / 60000 mod 60 <=? 59)
           && (ms mod msPerDay / 1000 mod 60 <=? 59)) with true.
  2:{ symmetry. rewrite !andb_true_iff, !Z.leb_le. lia. }
  rewrite Hback.
  replace (ms / msPerDay * msPerDay + ms mod msPerDay / 3600000 * 3600000
           + ms mod msPerDay / 60000 mod 60 * 60000
           + ms mod msPerDay / 1000 mod 60 * 1000 + ms mod msPerDay mod 1000)
    with ms by lia.
  unfold of_time. by rewrite Hclip.
Qed.

End DateFacts.

(** ** Objects as records *)
Module ObjectFacts.

Import JsObject.

Section facts.
Context {V : Type}.
Implicit Types (o : JsObject.t V).

Lemma props_Permutation o :
  List.map snd (index_props o) ++ named_props o ≡ₚ o.
Proof.
  unfold index_props, named_props. induction o as [|e o IH]; [done|].
  simpl. destruct (array_index e.1); simpl.
  - by rewrite IH.
  - by rewrite <-Permutation_middle, IH.
Qed.

(** Enumeration reorders the properties, it neither drops nor repeats one. *)
Lemma entries_Permutation o : entries o ≡ₚ o.
Proof.
  unfold entries. etrans; [|apply props_Permutation].
  apply Permutation_app; [|done]. apply Permutation_map.
  apply merge_sort_Permutation.
Qed.

Lemma wf_Permutation (l1 l2 : list (jsstring * V)) :
  l1 ≡ₚ l2 → JsMap.wf l1 → JsMap.wf l2.
Proof.
  unfold JsMap.wf, JsMap.keys. intros Hp Hwf.
  by rewrite <-(Permutation_map fst Hp).
Qed.

Lemma get_Permutation (l1 l2 : list (jsstring * V)) k :
  l1 ≡ₚ l2 → JsMap.wf l1 → JsMap.get k l1 = JsMap.get k l2.
Proof.
  intros Hp Hwf. pose proof (wf_Permutation l1 l2 Hp Hwf) as Hwf2.
  apply option_eq. intros v.
  rewrite !JsMapFacts.get_Some_elem_of by done. by rewrite Hp.
Qed.

(** A [Map] written to an object and read back has the same entries, up to
    their order. *)
Lemma map_through_object (m : JsMap.t V) :
  JsMap.wf m →
  JsMap.of_entries (entries (fromEntries m)) ≡ₚ m
  ∧ JsMap.wf (JsMap.of_entries (entries (fromEntries m))).
Proof.
  intros Hwf.
  assert (fromEntries m = m) as -> by apply (JsMapFacts.of_entries_wf m Hwf).
  pose proof (entries_Permutation m) as Hp. symmetry in Hp.
  pose proof (wf_Permutation _ _ Hp Hwf) as Hwf'.
  rewrite JsMapFacts.of_entries_wf by done. by split.
Qed.

End facts.

End ObjectFacts.

(** ** Serialization *)
Module SerializationTheorems.

Import VersionManager Scenario.

(** The round trip of a version whose timestamp is a valid date. *)
Lemma round_trip_of_a_dated_version (version : Version.t) (h h' : Heap.t) (ms : Z) :
  Heap.wf h →
  Version.timestamp version = JsDate.TimeValue ms →
  JsDate.in_range ms →
  ∃ data,
    serializeVersion version h = Ok data
    ∧ let restored := deserializeVersion data h' in
      let files := Heap.read_map (Version.files version) h in
      let files' := Heap.read_map (Version.files restored.1) restored.2 in
      Version.id restored.1 = Version.id version
      ∧ Version.status restored.1 = Version.status version
      ∧ Version.errorLog restored.1 = Version.errorLog version
      ∧ Version.timestamp restored.1 = Version.timestamp version
      ∧ (∀ path, JsMap.get path files' = JsMap.get path files)
      ∧ files' ≡ₚ files
      ∧ JsMap.size files' = JsMap.size files.
Proof.
  intros Hwf Hts Hms. unfold serializeVersion. rewrite Hts.
  destruct (DateFacts.parse_toISOString ms Hms) as (iso & -> & Hparse).
  eexists. split; [done|]. unfold deserializeVersion. simpl.
  set (files := Heap.read_map (Version.files version) h).
  assert (JsMap.wf files) as Hfiles by (by apply HeapFacts.wf_read_map).
  destruct (ObjectFacts.map_through_object files Hfiles) as [Hperm Hwf'].
  assert (Heap.read_map (length (Heap.maps h'))
            (Heap.mk (Heap.maps h'
                      ++ [JsMap.of_entries
                            (JsObject.entries (JsObject.fromEntries files))])
                     (Heap.versions h'))
          = JsMap.of_entries (JsObject.entries (JsObject.fromEntries files)))
    as ->.
  { unfold Heap.read_map. simpl. by rewrite lookup_app_r, Nat.sub_diag by lia. }
  split_and!; [done | done | done | done | | done |].
  - intros path. by apply ObjectFacts.get_Permutation.
  - unfold JsMap.size. by rewrite Hperm.
Qed.

(** A version with an invalid date cannot be serialized: [toISOString]
    throws. *)
Lemma invalid_date_is_not_serialized (version : Version.t) (h : Heap.t) :
  Version.timestamp version = JsDate.Invalid →
  serializeVersion version h = Throw RangeError.
Proof. intros Hts. unfold serializeVersion. by rewrite Hts. Qed.

(** C8. For a version whose timestamp is a valid date, [serializeVersion]
    returns, and [deserializeVersion] of its result, in whatever heap,
    gives a version with the same id, status and error log, the same
    timestamp to the millisecond, and a file mapping that holds the same
    path and content pairs: every lookup agrees, and the entries are those of
    the original up to their order. For a version whose timestamp is an
    invalid date there is no round trip: [serializeVersion] throws a
    [RangeError]. *)
Theorem serialization_round_trip (version : Version.t) (h h' : Heap.t) :
  Heap.wf h →
  (∀ ms,
     Version.timestamp version = JsDate.TimeValue ms →
     JsDate.in_range ms →
     ∃ data,
       serializeVersion version h = Ok data
       ∧ let restored := deserializeVersion data h' in
         let files := Heap.read_map (Version.files version) h in
         let files' := Heap.read_map (Version.files restored.1) restored.2 in
         Version.id restored.1 = Version.id version
         ∧ Version.status restored.1 = Version.status version
         ∧ Version.errorLog restored.1 = Version.errorLog version
         ∧ Version.timestamp restored.1 = Version.timestamp version
         ∧ (∀ path, JsMap.get path files' = JsMap.get path files)
         ∧ files' ≡ₚ files
         ∧ JsMap.size files' = JsMap.size files)
  ∧ (Version.timestamp version = JsDate.Invalid →
     serializeVersion version h = Throw RangeError).
Proof.
  intros Hwf. split.
  - intros ms Hts Hms. by apply (round_trip_of_a_dated_version version h h' ms).
  - apply invalid_date_is_not_serialized.
Qed.

Lemma wf_demo_heap : Heap.wf demo_heap.
Proof.
  intros [|l] m Hl; [|done]. injection Hl as <-.
  apply (bool_decide_unpack _). vm_compute. exact I.
Qed.

Lemma serialization_round_trip_witness :
  ∃ data,
    serializeVersion demo_version demo_heap = Ok data
    ∧ s_timestamp data = js "2023-11-14T22:13:20.123Z"
    ∧ let restored := deserializeVersion data Heap.empty in
      Version.id restored.1 = js "v1700000000000-q1w2e3"
      ∧ Version.timestamp restored.1 = JsDate.TimeValue 1700000000123
      ∧ JsMap.get (js "10") (Heap.read_map (Version.files restored.1) restored.2)
        = Some (js "ten").
Proof.
  destruct (serialization_round_trip demo_version demo_heap Heap.empty
              wf_demo_heap) as [Hvalid _].
  destruct (Hvalid 1700000000123%Z eq_refl)
    as (data & Hs & Hid & _ & _ & Hts & Hget & _).
  { vm_compute. split; discriminate. }
  exists data. split; [exact Hs|]. split.
  - vm_compute in Hs. injection Hs as <-. reflexivity.
  - split; [exact Hid|]. split; [exact Hts|]. rewrite Hget. reflexivity.
Defined.

(** The order of the entries is not kept: array-index names come first. *)
Example round_trip_reorders :
  match serializeVersion demo_version demo_heap with
  | Ok data =>
    let restored := deserializeVersion data Heap.empty in
    JsMap.keys (Heap.read_map (Version.files restored.1) restored.2)
    = [js "2"; js "10"; js "src/app.ts"; js "index.html"]
  | Throw _ => False
  end.
Proof. vm_compute. reflexivity. Qed.

(** C8 as stated fails for a version whose timestamp is an invalid date,
    such as the one [deserializeVersion] returns for stored data whose
    timestamp text is not a date: [serializeVersion] throws on it, so
    nothing is reproduced. *)
Lemma round_trip_of_an_invalid_date_counterexample :
  let stored :=
    mkSerialized (js "v1700000000000-q1w2e3") (js "not a date") []
                 VersionStatus.VALID None in
  let loaded := deserializeVersion stored Heap.empty in
  Version.id loaded.1 = js "v1700000000000-q1w2e3"
  ∧ Version.timestamp loaded.1 = JsDate.Invalid
  ∧ Heap.wf loaded.2
  ∧ serializeVersion loaded.1 loaded.2 = Throw RangeError
  ∧ ¬ ∃ data, serializeVersion loaded.1 loaded.2 = Ok data.
Proof.
  intros stored loaded.
  assert (serializeVersion loaded.1 loaded.2 = Throw RangeError) as Hthrow
    by (vm_compute; reflexivity).
  split; [vm_compute; reflexivity|].
  split; [vm_compute; reflexivity|].
  split.
  - intros [|l] m Hl; [|done]. injection Hl as <-. apply NoDup_nil_2.
  - split; [exact Hthrow|]. intros [data Hdata]. congruence.
Qed.

End SerializationTheorems.

(** ** Splitting, joining and normalized paths *)
Module PathFacts.

Import JsString PathShape.

Lemma split_cons_shape sep s : ∃ seg segs, split sep s = seg :: segs.
Proof.
  induction s as [|c s (seg & segs & IH)]; simpl; [by eauto|].
  destruct (c =? sep)%N; [by eauto|]. rewrite IH. eauto.
Qed.

(** No segment of a split holds the separator. *)
Lemma split_sep_free sep s : Forall (λ seg, sep ∉ seg) (split sep s).
Proof.
  induction s as [|c s IH]; simpl.
  - constructor; [apply not_elem_of_nil | constructor].
  - destruct (N.eqb_spec c sep) as [->|Hne].
    + constructor; [apply not_elem_of_nil | done].
    + destruct (split sep s) as [|seg segs]; [repeat constructor|].
      * rewrite list_elem_of_singleton. congruence.
      * apply Forall_cons in IH as [Hseg Hsegs]. constructor; [|done].
        rewrite not_elem_of_cons. split; [congruence | done].
Qed.

Lemma join_cons sep x segs :
  join [sep] (x :: segs)
  = x ++ match segs with [] => [] | _ :: _ => sep :: join [sep] segs end.
Proof. destruct segs; simpl; [by rewrite app_nil_r | done]. Qed.

(** Joining the segments of a split gives the string back. *)
Lemma join_split sep s : join [sep] (split sep s) = s.
Proof.
  induction s as [|c s IH]; [done|]. cbn [split].
  destruct (split_cons_shape sep s) as (seg & segs & Hs).
  destruct (N.eqb_spec c sep) as [->|Hne].
  - rewrite join_cons, Hs. rewrite <-Hs, IH. done.
  - rewrite Hs in IH |- *. rewrite join_cons in IH |- *.
    simpl. by rewrite IH.
Qed.

Lemma split_sep_free_one sep x : sep ∉ x → split sep x = [x].
Proof.
  induction x as [|c x IH]; [done|]. rewrite not_elem_of_cons.
  intros [Hne Hx]. simpl. rewrite (proj2 (N.eqb_neq c sep)) by congruence.
  by rewrite IH.
Qed.

Lemma split_app_sep sep x t :
  sep ∉ x → split sep (x ++ sep :: t) = x :: split sep t.
Proof.
  induction x as [|c x IH]; simpl.
  - intros _. by rewrite N.eqb_refl.
  - rewrite not_elem_of_cons. intros [Hne Hx].
    rewrite (proj2 (N.eqb_neq c sep)) by congruence. by rewrite IH.
Qed.

(** Splitting a join of separator-free segments gives the segments back. *)
Lemma split_join sep segs :
  segs ≠ [] → Forall (λ seg, sep ∉ seg) segs →
  split sep (join [sep] segs) = segs.
Proof.
  intros Hne Hfree. induction Hfree as [|x segs Hx Hsegs IH]; [done|].
  destruct segs as [|y segs].
  - simpl. by apply split_sep_free_one.
  - change (join [sep] (x :: y :: segs)) with (x ++ sep :: join [sep] (y :: segs)).
    rewrite split_app_sep by done. by rewrite IH.
Qed.

Lemma startsWith_app_sep sep n x t :
  sep ∉ n → startsWith n (x ++ sep :: t) = startsWith n x.
Proof.
  revert n. induction x as [|d x IH]; intros n Hn.
  - destruct n as [|c n]; [done|]. simpl.
    apply not_elem_of_cons in Hn as [Hne _].
    by rewrite (proj2 (N.eqb_neq c sep)) by congruence.
  - destruct n as [|c n]; [done|]. simpl.
    apply not_elem_of_cons in Hn as [_ Hn]. by rewrite IH.
Qed.

Lemma includes_app_sep sep n x t :
  n ≠ [] → sep ∉ n →
  includes n (x ++ sep :: t) = includes n x || includes n t.
Proof.
  intros Hne Hn. induction x as [|d x IH].
  - destruct n as [|c n]; [done|]. cbn [app includes startsWith].
    apply not_elem_of_cons in Hn as [Hc _].
    by rewrite (proj2 (N.eqb_neq c sep)) by congruence.
  - cbn [app includes]. rewrite IH.
    change (d :: x ++ sep :: t) with ((d :: x) ++ sep :: t).
    rewrite startsWith_app_sep by done. by rewrite orb_assoc.
Qed.

(** A separator-free needle occurs in a join exactly when it occurs in one
    of the segments. *)
Lemma includes_join sep n segs :
  n ≠ [] → sep ∉ n →
  includes n (join [sep] segs) = existsb (includes n) segs.
Proof.
  intros Hne Hn. induction segs as [|x segs IH].
  - destruct n; done.
  - rewrite join_cons. destruct segs as [|y segs].
    + rewrite app_nil_r. simpl. by rewrite orb_false_r.
    + rewrite includes_app_sep by done. by rewrite IH.
Qed.

Lemma includes_nil_r n : n ≠ [] → includes n [] = false.
Proof. by destruct n. Qed.

Lemma existsb_filter_nonempty n (segs : list jsstring) :
  n ≠ [] →
  existsb (includes n) (List.filter (λ seg, (0 <? length seg)%nat) segs)
  = existsb (includes n) segs.
Proof.
  intros Hne. induction segs as [|x segs IH]; [done|].
  destruct x as [|c x]; simpl (List.filter _ _); cbn [existsb].
  - by rewrite IH, includes_nil_r.
  - by rewrite IH.
Qed.

Lemma clean_segments path :
  clean (List.filter (λ seg, (0 <? length seg)%nat) (split 47 path)).
Proof.
  unfold clean. pose proof (split_sep_free 47 path) as Hfree.
  induction Hfree as [|x segs Hx _ IH]; [constructor|]. simpl.
  destruct x as [|c x]; simpl; [done|]. by constructor.
Qed.

Lemma filter_clean segs :
  clean segs → List.filter (λ seg, (0 <? length seg)%nat) segs = segs.
Proof.
  induction 1 as [|x segs [Hx _] _ IH]; [done|]. simpl.
  destruct x; [done|]. simpl. by rewrite IH.
Qed.

Lemma normalizePath_join segs :
  clean segs → VFS.normalizePath (join [47%N] segs) = join [47%N] segs.
Proof.
  intros Hclean. unfold VFS.normalizePath. change (js "/") with [47%N].
  destruct segs as [|x segs]; [done|].
  rewrite split_join; [by rewrite filter_clean | done |].
  eapply Forall_impl; [exact Hclean|]. by intros seg [_ ?].
Qed.

Lemma startsWith_join_clean segs :
  clean segs → startsWith [47%N] (join [47%N] segs) = false.
Proof.
  intros Hclean. destruct Hclean as [|x segs [Hx Hfree] _]; [done|].
  rewrite join_cons. destruct x as [|c x]; [done|]. cbn [app startsWith].
  apply not_elem_of_cons in Hfree as [Hc _].
  by rewrite (proj2 (N.eqb_neq 47 c)) by done.
Qed.

Lemma last_snoc_sep_free (x : jsstring) : x ≠ [] → 47%N ∉ x → last x ≠ Some 47%N.
Proof.
  intros Hx Hfree Hl. apply Hfree. apply last_Some in Hl as [l' ->].
  rewrite elem_of_app. right. left.
Qed.

Lemma last_join_clean segs :
  clean segs → last (join [47%N] segs) ≠ Some 47%N.
Proof.
  induction 1 as [|x segs [Hx Hfree] Hsegs IH]; [done|].
  rewrite join_cons. destruct segs as [|y segs].
  - rewrite app_nil_r. by apply last_snoc_sep_free.
  - destruct (join [47%N] (y :: segs)) as [|c t] eqn:Hj.
    + apply Forall_cons in Hsegs as [[Hy _] _]. rewrite join_cons in Hj.
      by destruct y.
    + change (x ++ 47%N :: c :: t) with (x ++ [47%N] ++ (c :: t)).
      rewrite !last_app. destruct (last (c :: t)) as [z|] eqn:Hz; [done|].
      by apply last_None in Hz.
Qed.

Lemma includes_sep_sep_free (x : jsstring) :
  47%N ∉ x → includes [47%N; 47%N] x = false.
Proof.
  induction x as [|c x IH]; [done|].
  intros [Hc Hfree]%not_elem_of_cons. cbn [includes startsWith].
  rewrite (proj2 (N.eqb_neq 47 c)) by done. by apply IH.
Qed.

Lemma includes_sep_sep_join segs :
  clean segs → includes [47%N; 47%N] (join [47%N] segs) = false.
Proof.
  induction 1 as [|x segs [Hx Hfree] Hsegs IH]; [done|].
  rewrite join_cons. destruct segs as [|y segs].
  - rewrite app_nil_r. by apply includes_sep_sep_free.
  - pose proof (startsWith_join_clean _ Hsegs) as Hstart.
    set (t := join [47%N] (y :: segs)) in *. clearbody t. clear Hx Hsegs.
    induction x as [|c x IHx].
    + cbn [app includes startsWith]. rewrite N.eqb_refl, IH, orb_false_r.
      destruct t as [|d t]; [done|]. cbn [startsWith] in Hstart |- *.
      rewrite andb_true_r in Hstart |- *. by rewrite Hstart.
    + apply not_elem_of_cons in Hfree as [Hc Hfree]. cbn [app includes startsWith].
      rewrite (proj2 (N.eqb_neq 47 c)) by done. by apply IHx.
Qed.

Lemma normalizePath_clean path :
  ∃ segs, clean segs ∧ VFS.normalizePath path = join [47%N] segs.
Proof. eexists. split; [apply clean_segments | done]. Qed.

Lemma includes_normalizePath n path :
  n ≠ [] → 47%N ∉ n →
  includes n (VFS.normalizePath path) = includes n path.
Proof.
  intros Hne Hn. unfold VFS.normalizePath. change (js "/") with [47%N].
  rewrite includes_join, existsb_filter_nonempty by done.
  by rewrite <-(includes_join 47), join_split by done.
Qed.

Lemma length_join_filter (f : jsstring → bool) sep segs :
  length (join [sep] (List.filter f segs)) ≤ length (join [sep] segs).
Proof.
  induction segs as [|x segs IH]; [done|].
  rewrite (join_cons sep x segs). simpl (List.filter _ _).
  destruct (f x).
  - rewrite join_cons, !length_app.
    destruct (List.filter f segs) as [|y ys] eqn:Hf; [simpl; lia|].
    destruct segs as [|z segs]; [done|]. simpl length in *. lia.
  - etrans; [exact IH|]. rewrite length_app.
    destruct segs; simpl; lia.
Qed.

Lemma length_normalizePath path :
  length (VFS.normalizePath path) ≤ length path.
Proof.
  unfold VFS.normalizePath. change (js "/") with [47%N].
  etrans; [apply length_join_filter|]. by rewrite join_split.
Qed.

Lemma drive_prefix_normalizePath path :
  startsWith [47%N] path = false →
  drive_prefix (VFS.normalizePath path) = drive_prefix path.
Proof.
  unfold VFS.normalizePath. change (js "/") with [47%N].
  destruct path as [|c [|d rest]]; [done | |].
  - cbn [startsWith split]. rewrite andb_true_r, N.eqb_sym.
    by intros ->.
  - cbn [startsWith]. rewrite andb_true_r, N.eqb_sym. intros Hc.
    destruct (split_cons_shape 47 rest) as (seg & segs & Hs).
    destruct (N.eqb_spec d 47) as [->|Hd].
    + assert (split 47 (c :: 47%N :: rest) = [c] :: seg :: segs) as ->.
      { cbn [split]. by rewrite Hc, N.eqb_refl, Hs. }
      change (List.filter (λ segment, (0 <? length segment)%nat)
                ([c] :: seg :: segs))
        with ([c] :: List.filter (λ segment, (0 <? length segment)%nat)
                       (seg :: segs)).
      rewrite join_cons. cbn [drive_prefix].
      destruct (List.filter (λ segment, (0 <? length segment)%nat)
                  (seg :: segs)); cbn [app drive_prefix];
        by rewrite ?andb_false_r.
    + assert (split 47 (c :: d :: rest) = (c :: d :: seg) :: segs) as ->.
      { cbn [split]. rewrite Hc, (proj2 (N.eqb_neq d 47)) by done.
        by rewrite Hs. }
      change (List.filter (λ segment, (0 <? length segment)%nat)
                ((c :: d :: seg) :: segs))
        with ((c :: d :: seg)
              :: List.filter (λ segment, (0 <? length segment)%nat) segs).
      by rewrite join_cons.
Qed.

Lemma dots_sep_free : js ".." ≠ [] ∧ 47%N ∉ js "..".
Proof. split; [done|]. apply (bool_decide_unpack _). vm_compute. exact I. Qed.

Lemma null_sep_free : [0%N] ≠ [] ∧ 47%N ∉ [0%N].
Proof. split; [done|]. apply (bool_decide_unpack _). vm_compute. exact I. Qed.

(** A path that passes the policy still passes it once normalized. *)
Lemma validatePath_normalizePath path :
  VFS.validatePath path = Ok () →
  VFS.validatePath (VFS.normalizePath path) = Ok ().
Proof.
  unfold VFS.validatePath, VFS.MAX_PATH_LENGTH.
  destruct (Nat.ltb_spec 4096 (length path)) as [|Hlen]; [done|].
  destruct (includes (js "..") path) eqn:Hdots; [done|].
  change (js "/") with [47%N].
  destruct (startsWith [47%N] path) eqn:Hslash; [done|]. cbn [orb].
  destruct (drive_prefix path) eqn:Hdrive; [done|].
  destruct (includes [0%N] path) eqn:Hnull; [done|]. intros _.
  pose proof (length_normalizePath path) as Hlen'.
  destruct (Nat.ltb_spec 4096 (length (VFS.normalizePath path))); [lia|].
  rewrite includes_normalizePath, Hdots by apply dots_sep_free.
  assert (startsWith [47%N] (VFS.normalizePath path) = false) as ->.
  { destruct (normalizePath_clean path) as (segs & Hclean & ->).
    by apply startsWith_join_clean. }
  rewrite drive_prefix_normalizePath, Hdrive by done. cbn [orb].
  by rewrite includes_normalizePath, Hnull by apply null_sep_free.
Qed.

(** Normalizing twice is normalizing once. *)
Lemma normalizePath_idempotent path :
  VFS.normalizePath (VFS.normalizePath path) = VFS.normalizePath path.
Proof.
  destruct (normalizePath_clean path) as (segs & Hclean & ->).
  by apply normalizePath_join.
Qed.

End PathFacts.

(** ** The file store: reads after writes, listing, copies, snapshots *)
Module VFSLaws.

Import VFS Spec StoreCalls.

Lemma keys_set_subseteq {V} (k : jsstring) (v : V) (m : JsMap.t V) x :
  x ∈ JsMap.keys (JsMap.set k v m) → x = k ∨ x ∈ JsMap.keys m.
Proof.
  unfold JsMap.keys. induction m as [|[k1 v1] m IH]; simpl.
  - rewrite list_elem_of_singleton. tauto.
  - destruct (decide (k = k1)) as [->|Hne]; simpl; [tauto|].
    rewrite !elem_of_cons. intros [->|Hx]; [tauto|].
    destruct (IH Hx); tauto.
Qed.

Lemma keys_delete {V} (k : jsstring) (m : JsMap.t V) :
  JsMap.keys (JsMap.delete k m)
  = List.filter (λ x, negb (bool_decide (x = k))) (JsMap.keys m).
Proof.
  unfold JsMap.keys, JsMap.delete. induction m as [|[k1 v1] m IH]; [done|].
  simpl. destruct (bool_decide (k1 = k)); simpl; by rewrite IH.
Qed.

Lemma keys_set {V} (k : jsstring) (v : V) (m : JsMap.t V) :
  JsMap.keys (JsMap.set k v m)
  = if JsMap.has k m then JsMap.keys m else JsMap.keys m ++ [k].
Proof.
  unfold JsMap.has. destruct (JsMap.get k m) as [v0|] eqn:Hg.
  - apply JsMapFacts.keys_set_present. eauto.
  - rewrite JsMapFacts.set_absent by done. unfold JsMap.keys.
    by rewrite map_app.
Qed.

Lemma delete_delete {V} (k : jsstring) (m : JsMap.t V) :
  JsMap.delete k (JsMap.delete k m) = JsMap.delete k m.
Proof.
  apply JsMapFacts.delete_absent, JsMapFacts.get_delete_eq.
Qed.

Lemma working_write_map st m :
  files st.1 < length (Heap.maps st.2) →
  working (st.1, Heap.write_map (files st.1) m st.2) = m.
Proof. intros Hl. unfold working. simpl. by apply HeapFacts.read_map_write_eq. Qed.

(** X1. What [normalizePath] returns is a normal form: normalizing it again
    changes nothing; it neither starts nor ends with a slash and has no
    doubled slash; and it passes the path policy whenever the path it comes
    from does. *)
Theorem normalizePath_gives_a_normal_form (path : jsstring) :
  normalizePath (normalizePath path) = normalizePath path
  ∧ JsString.startsWith (js "/") (normalizePath path) = false
  ∧ last (normalizePath path) ≠ Some 47%N
  ∧ JsString.includes (js "//") (normalizePath path) = false
  ∧ length (normalizePath path) ≤ length path
  ∧ (validatePath path = Ok () → validatePath (normalizePath path) = Ok ()).
Proof.
  destruct (PathFacts.normalizePath_clean path) as (segs & Hclean & Hn).
  split_and!.
  - apply PathFacts.normalizePath_idempotent.
  - rewrite Hn. by apply PathFacts.startsWith_join_clean.
  - rewrite Hn. by apply PathFacts.last_join_clean.
  - rewrite Hn. by apply PathFacts.includes_sep_sep_join.
  - apply PathFacts.length_normalizePath.
  - apply PathFacts.validatePath_normalizePath.
Qed.

Lemma normalizePath_gives_a_normal_form_witness :
  normalizePath (js "src//components/App.tsx/") = js "src/components/App.tsx"
  ∧ validatePath (normalizePath (js "src//components/App.tsx/")) = Ok ().
Proof.
  destruct (normalizePath_gives_a_normal_form (js "src//components/App.tsx/"))
    as (_ & _ & _ & _ & _ & H).
  split; [reflexivity|]. apply H. reflexivity.
Defined.

(** X2. A write that returns changes one file, the one of the normalized
    path: afterwards a read of any spelling of that path gives the content
    written, a read of any other path gives what it gave before; the listing
    is the same when the file was there, and has the normalized path added
    at its end when it was not; the retained snapshots are as they were. *)
Theorem write_changes_one_file (path content : jsstring) (st st' : state) :
  inv st →
  write path content st = (Ok (), st') →
  (∀ q, read q st'
        = if decide (normalizePath q = normalizePath path) then Ok content
          else read q st)
  ∧ list_ st'
    = (if exists_ path st then list_ st else list_ st ++ [normalizePath path])
  ∧ (∀ id s, getSnapshot id st = Some s →
             getSnapshot id st' = Some s
             ∧ Heap.read_map s st'.2 = Heap.read_map s st.2).
Proof.
  intros Hinv Hw.
  destruct (VFSFacts.write_cases path content st)
    as [(e & _ & _ & Hw') | [(_ & _ & Hw') | (_ & _ & Hw')]];
    rewrite Hw' in Hw; [done | done |]. injection Hw as <-.
  pose proof Hinv as (Hwf & Hfiles & Hsnap).
  assert (working (st.1, Heap.write_map (files st.1)
                    (JsMap.set (normalizePath path) content (working st)) st.2)
          = JsMap.set (normalizePath path) content (working st)) as Hwork
    by (by apply working_write_map).
  split_and!.
  - intros q. unfold read. rewrite Hwork. case_decide as Hq.
    + by rewrite Hq, JsMapFacts.get_set_eq.
    + by rewrite JsMapFacts.get_set_ne.
  - unfold list_, exists_. rewrite Hwork. apply keys_set.
  - intros id s Hs. split; [done|]. simpl.
    apply HeapFacts.read_map_write_ne. by destruct (Hsnap id s Hs).
Qed.

Lemma write_changes_one_file_witness :
  let st := Scenario.scenario_before in
  let st' := (write (js "index.html/") (js "B") st).2 in
  write (js "index.html/") (js "B") st = (Ok (), st')
  ∧ read (js "index.html") st' = Ok (js "B")
  ∧ read (js "a.ts") st' = Ok (js "1")
  ∧ list_ st' = [js "index.html"; js "a.ts"].
Proof.
  intros st st'.
  assert (write (js "index.html/") (js "B") st = (Ok (), st')) as Hw
    by (vm_compute; reflexivity).
  destruct (write_changes_one_file (js "index.html/") (js "B") st st'
              VFSTheorems.inv_scenario_before Hw) as (Hread & Hlist & _).
  split; [exact Hw|]. split; [|split].
  - rewrite Hread. reflexivity.
  - rewrite Hread. reflexivity.
  - rewrite Hlist. reflexivity.
Defined.

(** X3. [delete] removes one file, the one of the normalized path:
    afterwards a read of any spelling of that path throws file-not-found, a
    read of any other path gives what it gave before, the listing has lost
    that path and kept the order of the others, and a second [delete] of the
    path changes nothing. *)
Theorem delete_removes_one_file (path : jsstring) (st : state) :
  inv st →
  (∀ q, read q (delete path st)
        = if decide (normalizePath q = normalizePath path)
          then Throw (FileNotFound (normalizePath q))
          else read q st)
  ∧ list_ (delete path st)
    = List.filter (λ k, negb (bool_decide (k = normalizePath path))) (list_ st)
  ∧ delete path (delete path st) = delete path st.
Proof.
  intros (Hwf & Hfiles & Hsnap).
  assert (working (delete path st)
          = JsMap.delete (normalizePath path) (working st)) as Hwork
    by (by apply working_write_map).
  split_and!.
  - intros q. unfold read. rewrite Hwork. case_decide as Hq.
    + by rewrite Hq, JsMapFacts.get_delete_eq.
    + by rewrite JsMapFacts.get_delete_ne.
  - unfold list_. rewrite Hwork. apply keys_delete.
  - unfold delete at 1. rewrite Hwork, delete_delete. unfold delete. simpl.
    unfold Heap.write_map. simpl. by rewrite list_insert_insert_eq.
Qed.

Lemma delete_removes_one_file_witness :
  let st := Scenario.scenario_before in
  read (js "/a.ts") (delete (js "a.ts") st) = Throw (FileNotFound (js "a.ts"))
  ∧ list_ (delete (js "a.ts") st) = [js "index.html"].
Proof.
  intros st.
  destruct (delete_removes_one_file (js "a.ts") st VFSTheorems.inv_scenario_before)
    as (Hread & Hlist & _).
  split; [rewrite Hread | rewrite Hlist]; reflexivity.
Defined.

Lemma read_map_fresh m h :
  Heap.read_map (length (Heap.maps h)) (Heap.alloc_map m h).2 = m.
Proof. apply (HeapFacts.read_map_alloc_new m h). Qed.

Lemma restore_shape id s st :
  JsMap.get id (snapshots st.1) = Some s →
  restore id st
  = (Ok (),
     (mk (length (Heap.maps st.2)) (snapshots st.1),
      (Heap.alloc_map (JsMap.of_entries (Heap.read_map s st.2)) st.2).2)).
Proof. intros Hs. unfold restore. by rewrite Hs. Qed.

Lemma getAllFiles_shape st :
  getAllFiles st
  = (length (Heap.maps st.2),
     (st.1, (Heap.alloc_map (JsMap.of_entries (working st)) st.2).2)).
Proof. done. Qed.

Lemma working_clear st :
  files st.1 < length (Heap.maps st.2) → working (clear st) = JsMap.empty.
Proof.
  intros Hl. unfold clear, working. cbn [fst snd files].
  by apply HeapFacts.read_map_write_eq.
Qed.

Lemma safe_key_normalizePath path :
  validatePath path = Ok () → safe_key (normalizePath path).
Proof.
  intros Hok. split.
  - by apply PathFacts.validatePath_normalizePath.
  - apply PathFacts.normalizePath_idempotent.
Qed.

(** Allocating an object leaves the store's own maps as they are. *)
Lemma alloc_map_frame (v : VFS.t) m st :
  inv st →
  working (v, (Heap.alloc_map m st.2).2) = Heap.read_map (files v) (Heap.alloc_map m st.2).2
  ∧ (files v < length (Heap.maps st.2) →
     Heap.read_map (files v) (Heap.alloc_map m st.2).2 = Heap.read_map (files v) st.2)
  ∧ ∀ id s, getSnapshot id st = Some s →
            Heap.read_map s (Heap.alloc_map m st.2).2 = Heap.read_map s st.2.
Proof.
  intros (Hwf & Hfiles & Hsnap). split_and!; [done | |].
  - intros Hv. by apply HeapFacts.read_map_alloc_old.
  - intros id s Hs. apply HeapFacts.read_map_alloc_old.
    by destruct (Hsnap id s Hs).
Qed.

Lemma keys_safe_alloc m st :
  inv st → keys_safe st → keys_safe (st.1, (Heap.alloc_map m st.2).2).
Proof.
  intros Hinv [Hwork Hsnaps].
  destruct (alloc_map_frame st.1 m st Hinv) as (_ & Hf & Hs).
  pose proof Hinv as (_ & Hfiles & _). split.
  - unfold working. cbn [fst snd]. rewrite Hf by done. apply Hwork.
  - intros id s Hid. unfold getSnapshot in Hid. cbn [fst snd] in *.
    rewrite (Hs id s Hid). by apply (Hsnaps id s).
Qed.

Lemma keys_safe_write_working st m :
  inv st → keys_safe st →
  (∀ k, k ∈ JsMap.keys m → safe_key k) →
  keys_safe (st.1, Heap.write_map (files st.1) m st.2).
Proof.
  intros (Hwf & Hfiles & Hsnap) [Hwork Hsnaps] Hm. split.
  - by rewrite working_write_map.
  - intros id s Hid. unfold getSnapshot in Hid. cbn [fst snd] in *.
    rewrite HeapFacts.read_map_write_ne by (by destruct (Hsnap id s Hid)).
    by apply (Hsnaps id s).
Qed.

Lemma keys_safe_reachable st : reachable st → keys_safe st.
Proof.
  induction 1 as [h Hwf | path content st Hr IH | path st Hr IH | now rnd st Hr IH
                  | versionId st Hr IH | st Hr IH | st Hr IH | m st Hm Hr IH
                  | v st Hr IH];
    try (pose proof (VFSFacts.reachable_inv st Hr) as Hinv;
         pose proof Hinv as (Hwf' & Hfiles & Hsnap)).
  - split.
    + unfold new, working. simpl.
      pose proof (HeapFacts.read_map_alloc_new JsMap.empty h) as Hn.
      simpl in Hn. rewrite Hn. by intros k ?%elem_of_nil.
    + by intros id s [=].
  - destruct (VFSFacts.write_cases path content st)
      as [(e & _ & _ & ->) | [(_ & _ & ->) | (Hok & _ & ->)]]; [done | done |].
    cbn [snd]. apply keys_safe_write_working; [done | done |].
    intros k [->|Hk]%keys_set_subseteq.
    + by apply safe_key_normalizePath.
    + by apply IH.
  - apply keys_safe_write_working; [done | done |].
    intros k Hk. rewrite keys_delete in Hk.
    apply list_elem_of_In, filter_In in Hk as [Hk _].
    apply IH. by apply list_elem_of_In.
  - rewrite VFSFacts.snapshot_shape by done. cbn [snd].
    destruct (alloc_map_frame st.1 (working st) st Hinv) as (_ & Hf & Hs).
    destruct IH as [Hwork Hsnaps]. split.
    + unfold working at 1. cbn [fst snd files]. rewrite Hf by done.
      apply Hwork.
    + intros id s. unfold getSnapshot. cbn [fst snd snapshots].
      destruct (decide (id = generateVersionId now rnd)) as [->|Hne].
      * rewrite JsMapFacts.get_set_eq. intros [= <-].
        rewrite read_map_fresh. apply Hwork.
      * rewrite JsMapFacts.get_set_ne by done. intros Hid.
        rewrite (Hs id s Hid). by apply (Hsnaps id s).
  - destruct (JsMap.get versionId (snapshots st.1)) as [s|] eqn:Hget;
      [|by unfold restore; rewrite Hget].
    rewrite (restore_shape versionId s st Hget). cbn [snd].
    destruct IH as [Hwork Hsnaps].
    set (m := JsMap.of_entries (Heap.read_map s st.2)).
    destruct (alloc_map_frame st.1 m st Hinv) as (_ & _ & Hs).
    assert (m = Heap.read_map s st.2) as Hm.
    { apply JsMapFacts.of_entries_wf. by apply HeapFacts.wf_read_map. }
    split.
    + unfold working. cbn [fst snd files].
      rewrite (read_map_fresh m st.2), Hm.
      by apply (Hsnaps versionId s).
    + intros id s' Hid. unfold getSnapshot in Hid. cbn [fst snd snapshots] in *.
      rewrite (Hs id s' Hid). by apply (Hsnaps id s').
  - split.
    + rewrite working_clear by done. by intros k ?%elem_of_nil.
    + by intros id s [=].
  - by apply keys_safe_alloc.
  - by apply keys_safe_alloc.
  - done.
Qed.

(** X4. In every state a store goes through, each listed path passes the
    path policy, is its own normal form, and is found by [exists]; no path
    is listed twice. *)
Theorem listed_paths_are_safe (st : state) :
  reachable st →
  NoDup (list_ st)
  ∧ ∀ k, k ∈ list_ st →
         validatePath k = Ok () ∧ normalizePath k = k ∧ exists_ k st = true.
Proof.
  intros Hr. pose proof (VFSFacts.reachable_inv st Hr) as (Hwf & _ & _).
  destruct (keys_safe_reachable st Hr) as [Hwork _]. split.
  - by apply (HeapFacts.wf_read_map (files st.1) st.2).
  - intros k Hk. destruct (Hwork k Hk) as [Hok Hnorm].
    split_and!; [done | done |]. unfold exists_. rewrite Hnorm.
    apply JsMapFacts.has_spec. by apply JsMapFacts.get_Some_keys.
Qed.

Lemma listed_paths_are_safe_witness :
  let st := (write (js "docs//guide.md") (js "g")
               (write (js "../escape") (js "x") (new Heap.empty)).2).2 in
  list_ st = [js "docs/guide.md"]
  ∧ validatePath (js "docs/guide.md") = Ok ()
  ∧ exists_ (js "docs/guide.md") st = true.
Proof.
  intros st.
  assert (reachable st) as Hr.
  { apply reach_write, reach_write, reach_new, HeapFacts.wf_empty_heap. }
  destruct (listed_paths_are_safe st Hr) as [_ H].
  split; [reflexivity|].
  destruct (H (js "docs/guide.md")) as (Hok & _ & Hex); [|done].
  apply list_elem_of_here.
Defined.

(** X5. [getAllFiles] hands out a copy: the [Map] it returns holds the
    working mapping of that moment, the store is unchanged, later writes and
    deletes on the store do not show in the copy, and whatever the caller
    assigns to the copy shows neither in the working mapping nor in a
    retained snapshot. *)
Theorem getAllFiles_returns_a_copy (st : state) :
  inv st →
  let copy := (getAllFiles st).1 in
  let st' := (getAllFiles st).2 in
  Heap.read_map copy st'.2 = working st
  ∧ working st' = working st
  ∧ st'.1 = st.1
  ∧ (∀ ops, Heap.read_map copy (run_ops ops st').2 = working st)
  ∧ (∀ m, working (st'.1, Heap.write_map copy m st'.2) = working st
          ∧ ∀ id s, getSnapshot id st = Some s →
                    Heap.read_map s (Heap.write_map copy m st'.2)
                    = Heap.read_map s st.2).
Proof.
  intros Hinv copy st'. pose proof Hinv as (Hwf & Hfiles & Hsnap).
  assert (JsMap.of_entries (working st) = working st) as Hcopy.
  { apply JsMapFacts.of_entries_wf. by apply HeapFacts.wf_read_map. }
  assert (copy = length (Heap.maps st.2)) as Hloc by done.
  assert (st' = (st.1, (Heap.alloc_map (working st) st.2).2)) as Hst'.
  { unfold st', getAllFiles. by rewrite Hcopy. }
  destruct (alloc_map_frame st.1 (working st) st Hinv) as (_ & Hf & Hs).
  assert (Heap.read_map copy st'.2 = working st) as Hread.
  { rewrite Hst', Hloc. apply read_map_fresh. }
  assert (working st' = working st) as Hwork.
  { rewrite Hst'. unfold working at 1. cbn [fst snd]. by rewrite Hf. }
  split_and!; [done | done | by rewrite Hst' | |].
  - intros ops.
    destruct (VFSFacts.run_ops_frame ops st') as (_ & _ & Hframe).
    rewrite Hframe; [done|]. rewrite Hst', Hloc. cbn [fst]. lia.
  - intros m. split.
    + unfold working at 1. cbn [fst snd].
      rewrite HeapFacts.read_map_write_ne; [done|].
      rewrite Hst', Hloc. cbn [fst]. lia.
    + intros id s Hid. destruct (Hsnap id s Hid) as [Hlt _].
      rewrite HeapFacts.read_map_write_ne by lia.
      rewrite Hst'. by apply (Hs id s).
Qed.

Lemma getAllFiles_returns_a_copy_witness :
  let st := Scenario.scenario_before in
  let copy := (getAllFiles st).1 in
  let st' := (getAllFiles st).2 in
  Heap.read_map copy (run_ops Scenario.scenario_ops st').2
  = [(js "index.html", js "A"); (js "a.ts", js "1")].
Proof.
  intros st copy st'.
  destruct (getAllFiles_returns_a_copy st VFSTheorems.inv_scenario_before)
    as (_ & _ & _ & H & _).
  exact (H Scenario.scenario_ops).
Defined.

(** X6. [clear] forgets everything the store holds: afterwards nothing is
    listed, every read throws file-not-found, and every id is unknown to
    [restore] and [diff]. A [Map] handed out by [getSnapshot] before is not
    emptied. *)
Theorem clear_forgets_files_and_snapshots (st : state) :
  inv st →
  list_ (clear st) = []
  ∧ (∀ path, read path (clear st) = Throw (FileNotFound (normalizePath path)))
  ∧ (∀ id, restore id (clear st) = (Throw (SnapshotNotFound id), clear st))
  ∧ (∀ id id', diff id id' (clear st) = Throw (SnapshotNotFound id))
  ∧ (∀ id s, getSnapshot id st = Some s →
             Heap.read_map s (clear st).2 = Heap.read_map s st.2).
Proof.
  intros (Hwf & Hfiles & Hsnap).
  assert (working (clear st) = JsMap.empty) as Hwork
    by (by apply working_clear).
  split_and!.
  - unfold list_. by rewrite Hwork.
  - intros path. unfold read. by rewrite Hwork.
  - done.
  - done.
  - intros id s Hid. apply HeapFacts.read_map_write_ne.
    by destruct (Hsnap id s Hid).
Qed.

Lemma clear_forgets_files_and_snapshots_witness :
  let st := (snapshot 1700000000000 (js "k3x9q") Scenario.scenario_before).2 in
  list_ (clear st) = []
  ∧ restore (generateVersionId 1700000000000 (js "k3x9q")) (clear st)
    = (Throw (SnapshotNotFound (generateVersionId 1700000000000 (js "k3x9q"))),
       clear st).
Proof.
  intros st.
  destruct (clear_forgets_files_and_snapshots st) as (H1 & _ & H3 & _).
  { apply VFSFacts.inv_snapshot, VFSTheorems.inv_scenario_before. }
  split; [exact H1 | apply H3].
Defined.

(** One call keeps the invariant, the ids retained before (a snapshot taken
    under the same id apart) and every retained [Map]. *)
Lemma run_call_frame st c :
  inv st →
  inv (run_call st c)
  ∧ ∀ id s, getSnapshot id st = Some s →
            (snapshot_id c ≠ Some id → getSnapshot id (run_call st c) = Some s)
            ∧ Heap.read_map s (run_call st c).2 = Heap.read_map s st.2.
Proof.
  intros Hinv. pose proof Hinv as (Hwf & Hfiles & Hsnap).
  destruct c as [path content | path | versionId | | now rnd]; cbn [run_call snapshot_id].
  - split; [apply (VFSFacts.inv_run_op st (Write path content) Hinv)|].
    intros id s Hid. destruct (Hsnap id s Hid) as [_ Hne].
    destruct (VFSFacts.run_op_shape st (Write path content)) as (m & Hop & _).
    cbn [run_op] in Hop. rewrite Hop. split; [done|].
    by apply HeapFacts.read_map_write_ne.
  - split; [apply (VFSFacts.inv_run_op st (Delete path) Hinv)|].
    intros id s Hid. destruct (Hsnap id s Hid) as [_ Hne].
    split; [done|]. by apply HeapFacts.read_map_write_ne.
  - split; [by apply VFSFacts.inv_restore|].
    intros id s Hid.
    destruct (JsMap.get versionId (snapshots st.1)) as [s0|] eqn:Hget;
      [|by unfold restore; rewrite Hget].
    rewrite (restore_shape versionId s0 st Hget). cbn [snd].
    split; [done|]. apply HeapFacts.read_map_alloc_old.
    by destruct (Hsnap id s Hid).
  - split; [by apply VFSFacts.inv_getAllFiles|].
    intros id s Hid. rewrite getAllFiles_shape. cbn [snd]. split; [done|].
    apply HeapFacts.read_map_alloc_old. by destruct (Hsnap id s Hid).
  - split; [by apply VFSFacts.inv_snapshot|].
    intros id s Hid. rewrite VFSFacts.snapshot_shape by done. cbn [snd].
    split.
    + intros Hne. unfold getSnapshot. cbn [fst snapshots].
      rewrite JsMapFacts.get_set_ne; [done | congruence].
    + apply HeapFacts.read_map_alloc_old. by destruct (Hsnap id s Hid).
Qed.

(** X7. A retained snapshot never changes: through any sequence of writes,
    deletes, restores, copies and snapshots under other ids, the id stays
    retained with the same mapping, and restoring it brings exactly that
    mapping back as the working mapping. *)
Theorem retained_snapshots_never_change (st : state) (S : VersionId) (s : loc)
    (calls : list call) :
  inv st →
  getSnapshot S st = Some s →
  Forall (λ c, snapshot_id c ≠ Some S) calls →
  let st' := run_calls calls st in
  inv st'
  ∧ getSnapshot S st' = Some s
  ∧ Heap.read_map s st'.2 = Heap.read_map s st.2
  ∧ ∃ st'', restore S st' = (Ok (), st'')
            ∧ working st'' = Heap.read_map s st.2.
Proof.
  intros Hinv HS Hcalls.
  assert (inv (run_calls calls st)
          ∧ getSnapshot S (run_calls calls st) = Some s
          ∧ Heap.read_map s (run_calls calls st).2 = Heap.read_map s st.2)
    as (Hinv' & HS' & Hread).
  { revert st Hinv HS.
    induction Hcalls as [|c calls Hc _ IH]; intros st Hinv HS; [done|].
    cbn [run_calls fold_left].
    destruct (run_call_frame st c Hinv) as (Hinv1 & Hkeep).
    destruct (Hkeep S s HS) as [HS1 Hread1].
    destruct (IH (run_call st c) Hinv1 (HS1 Hc)) as (? & ? & Hread2).
    split_and!; [done | done |]. by rewrite <-Hread1. }
  intros st'. split_and!; [done | done | done |].
  destruct (VFSFacts.restore_Some S s st' HS') as (st'' & Hr & Hw & _).
  exists st''. split; [done|]. rewrite Hw. subst st'. rewrite Hread.
  apply JsMapFacts.of_entries_wf. destruct Hinv as (Hwf & _).
  by apply HeapFacts.wf_read_map.
Qed.

Lemma retained_snapshots_never_change_witness :
  let S := generateVersionId 1700000000000 (js "k3x9q") in
  let st := (snapshot 1700000000000 (js "k3x9q") Scenario.scenario_before).2 in
  let calls := [CallWrite (js "index.html") (js "B"); CallRestore S;
                CallWrite (js "c.ts") (js "3"); CallDelete (js "a.ts");
                CallSnapshot 1700000000500 (js "zz9yx"); CallGetAllFiles] in
  ∃ st'', restore S (run_calls calls st) = (Ok (), st'')
          ∧ working st'' = [(js "index.html", js "A"); (js "a.ts", js "1")].
Proof.
  intros S st calls.
  destruct (retained_snapshots_never_change st S 1 calls)
    as (_ & _ & _ & st'' & Hr & Hw).
  - apply VFSFacts.inv_snapshot, VFSTheorems.inv_scenario_before.
  - reflexivity.
  - unfold calls. repeat constructor; vm_compute; discriminate.
  - exists st''. split; [exact Hr | exact Hw].
Defined.

Lemma mirror_expected m1 m2 path :
  expected m2 m1 path = List.map mirror (expected m1 m2 path).
Proof.
  unfold expected.
  destruct (JsMap.get path m1) as [c1|], (JsMap.get path m2) as [c2|];
    try done.
  destruct (decide (c2 = c1)) as [->|Hne].
  - by rewrite decide_True.
  - by rewrite decide_False by congruence.
Qed.

(** X8. The diff taken the other way round holds, path by path, the mirrored
    entries: what was added is deleted, what was deleted is added, what was
    modified is modified with the old and the new content exchanged. *)
Theorem diff_reversed_is_mirrored (A B : VersionId) (a b : loc) (st : state) :
  getSnapshot A st = Some a →
  getSnapshot B st = Some b →
  ∃ forth back,
    diff A B st = Ok forth ∧ diff B A st = Ok back
    ∧ ∀ path, entries_for path back = List.map mirror (entries_for path forth).
Proof.
  unfold getSnapshot, diff. intros -> ->. eexists _, _.
  split; [done|]. split; [done|]. intros path.
  rewrite !DiffFacts.diff_maps_entries. apply mirror_expected.
Qed.

Lemma diff_reversed_is_mirrored_witness :
  ∃ forth back,
    diff first_id second_id scenario_after = Ok forth
    ∧ diff second_id first_id scenario_after = Ok back
    ∧ ∀ path, entries_for path back = List.map mirror (entries_for path forth).
Proof.
  apply (diff_reversed_is_mirrored first_id second_id 1 2 scenario_after);
    reflexivity.
Defined.

Lemma elem_of_entries_for d diffs :
  d ∈ diffs → d ∈ entries_for (FileDiff.path d) diffs.
Proof.
  intros Hd. unfold entries_for. apply list_elem_of_In, filter_In.
  split; [by apply list_elem_of_In | by apply bool_decide_eq_true].
Qed.

Lemma expected_nil m1 m2 path :
  expected m1 m2 path = [] ↔ JsMap.get path m1 = JsMap.get path m2.
Proof.
  unfold expected.
  destruct (JsMap.get path m1) as [c1|], (JsMap.get path m2) as [c2|];
    try done.
  case_decide; split; congruence.
Qed.

(** X9. The diff of two retained snapshots is empty exactly when they hold
    the same content for every path; so the diff of a snapshot with itself
    is empty. *)
Theorem diff_is_empty_for_equal_mappings (A B : VersionId) (a b : loc) (st : state) :
  getSnapshot A st = Some a →
  getSnapshot B st = Some b →
  (diff A B st = Ok []
   ↔ ∀ path, JsMap.get path (Heap.read_map a st.2)
             = JsMap.get path (Heap.read_map b st.2))
  ∧ diff A A st = Ok [].
Proof.
  unfold getSnapshot. intros HA HB.
  assert (∀ m1 m2, diff_maps m1 m2 = []
                   ↔ ∀ path, JsMap.get path m1 = JsMap.get path m2) as Hempty.
  { intros m1 m2. split.
    - intros Hnil path. apply expected_nil.
      by rewrite <-DiffFacts.diff_maps_entries, Hnil.
    - intros Heq. destruct (diff_maps m1 m2) as [|d ds] eqn:Hd; [done|].
      assert (d ∈ entries_for (FileDiff.path d) (diff_maps m1 m2)) as Hin
        by (apply elem_of_entries_for; rewrite Hd; left).
      rewrite DiffFacts.diff_maps_entries in Hin.
      rewrite (proj2 (expected_nil m1 m2 _) (Heq _)) in Hin.
      by apply elem_of_nil in Hin. }
  split.
  - unfold diff. rewrite HA, HB. rewrite <-Hempty.
    split; [by intros [= ->] | by intros ->].
  - unfold diff. rewrite HA. f_equal. by apply Hempty.
Qed.

Lemma diff_is_empty_for_equal_mappings_witness :
  let st := (snapshot 1700000000000 (js "k3x9q") Scenario.scenario_before).2 in
  let S := generateVersionId 1700000000000 (js "k3x9q") in
  diff S S st = Ok [].
Proof.
  intros st S.
  destruct (diff_is_empty_for_equal_mappings S S 1 1 st) as [_ H];
    [reflexivity | reflexivity | exact H].
Defined.

(** X10. A diff is enough to rebuild the second snapshot from the first: the
    content of a path in the second is the new content of the entry about
    that path when there is one, and its content in the first when there is
    none. *)
Theorem diff_rebuilds_the_second_snapshot (A B : VersionId) (a b : loc)
    (st : state) :
  getSnapshot A st = Some a →
  getSnapshot B st = Some b →
  ∃ diffs,
    diff A B st = Ok diffs
    ∧ ∀ path,
        JsMap.get path (Heap.read_map b st.2)
        = match entries_for path diffs with
          | d :: _ => FileDiff.newContent d
          | [] => JsMap.get path (Heap.read_map a st.2)
          end.
Proof.
  unfold getSnapshot, diff. intros -> ->. eexists. split; [done|].
  intros path. rewrite DiffFacts.diff_maps_entries. unfold expected.
  destruct (JsMap.get path (Heap.read_map a st.2)) as [c1|],
           (JsMap.get path (Heap.read_map b st.2)) as [c2|]; try done.
  case_decide; [congruence | done].
Qed.

Lemma diff_rebuilds_the_second_snapshot_witness :
  ∃ diffs,
    diff first_id second_id scenario_after = Ok diffs
    ∧ ∀ path,
        JsMap.get path (Heap.read_map 2 scenario_after.2)
        = match entries_for path diffs with
          | d :: _ => FileDiff.newContent d
          | [] => JsMap.get path (Heap.read_map 1 scenario_after.2)
          end.
Proof.
  apply (diff_rebuilds_the_second_snapshot first_id second_id 1 2
           scenario_after); reflexivity.
Defined.

End VFSLaws.

(** ** Laws of the session manager *)
Module SessionLaws.

Import SessionState SessionManager Lifecycle Spec.

Lemma filter_filter {A} (f g : A → bool) (l : list A) :
  List.filter f (List.filter g l) = List.filter (λ x, g x && f x) l.
Proof.
  induction l as [|x l IH]; [done|]. simpl.
  destruct (g x); simpl; [destruct (f x)|]; by rewrite IH.
Qed.

Lemma filter_all {A} (f : A → bool) (l : list A) :
  (∀ x, x ∈ l → f x = true) → List.filter f l = l.
Proof.
  induction l as [|x l IH]; intros Hall; [done|]. simpl.
  rewrite (Hall x) by left. f_equal. apply IH. intros y Hy. apply Hall. by right.
Qed.

Lemma fold_delete_filter {V} (ks : list jsstring) (m : JsMap.t V) :
  fold_left (λ acc k, JsMap.delete k acc) ks m
  = List.filter (λ e, bool_decide (e.1 ∉ ks)) m.
Proof.
  revert m. induction ks as [|k ks IH]; intros m.
  - cbn [fold_left]. symmetry. apply filter_all. intros e _.
    apply bool_decide_eq_true, not_elem_of_nil.
  - cbn [fold_left]. rewrite IH. unfold JsMap.delete. rewrite filter_filter.
    apply filter_ext. intros e.
    destruct (decide (e.1 = k)) as [He|He].
    + rewrite (bool_decide_eq_true_2 _ He). simpl. symmetry.
      apply bool_decide_eq_false. rewrite elem_of_cons. tauto.
    + rewrite (bool_decide_eq_false_2 _ He). simpl.
      apply bool_decide_ext. rewrite elem_of_cons. tauto.
Qed.

Lemma get_filter_keys {V} (ks : list jsstring) (m : JsMap.t V) k :
  JsMap.get k (List.filter (λ e, bool_decide (e.1 ∉ ks)) m)
  = if decide (k ∈ ks) then None else JsMap.get k m.
Proof.
  induction m as [|[k' v] m IH]; [by case_decide|]. simpl.
  destruct (decide (k' ∈ ks)) as [Hin|Hout].
  - rewrite bool_decide_eq_false_2 by tauto. rewrite IH.
    destruct (decide (k ∈ ks)) as [|Hk]; [done|].
    rewrite decide_False; [done | congruence].
  - rewrite bool_decide_eq_true_2 by done. simpl. rewrite IH.
    destruct (decide (k = k')) as [->|]; [|done].
    by rewrite decide_False.
Qed.

Lemma sweep_shape now l acc :
  let ks := expired_ids now l in
  fold_left (sweep_step now) l acc
  = ((acc.1 + length ks)%nat,
     mk (fold_left (λ m k, JsMap.delete k m) ks (sessions acc.2))
        (fold_left (λ m k, JsMap.delete k m) ks (sessionLocks acc.2))).
Proof.
  revert acc. induction l as [|e l IH]; intros [n st].
  - simpl. rewrite Nat.add_0_r. by destruct st.
  - cbn [fold_left]. rewrite IH. unfold sweep_step, expired_ids. cbn [List.filter].
    fold (expired now e.2). destruct (expired now e.2); [|done].
    cbn [List.map fold_left length fst snd deleteSession sessions sessionLocks].
    f_equal. lia.
Qed.

Lemma entry_unique {V} (m : JsMap.t V) k v v' :
  JsMap.wf m → (k, v) ∈ m → (k, v') ∈ m → v = v'.
Proof.
  intros Hwf H1 H2.
  apply (JsMapFacts.get_Some_elem_of _ _ _ Hwf) in H1, H2. congruence.
Qed.

Lemma elem_of_expired_ids now m k :
  JsMap.wf m →
  k ∈ expired_ids now m ↔ ∃ s, JsMap.get k m = Some s ∧ expired now s = true.
Proof.
  intros Hwf. unfold expired_ids. rewrite list_elem_of_fmap. split.
  - intros ([k' s] & -> & Hin). apply list_elem_of_In, filter_In in Hin as [Hin He].
    exists s. split; [|done].
    by apply (JsMapFacts.get_Some_elem_of _ _ _ Hwf), list_elem_of_In.
  - intros (s & Hget & He). exists (k, s). split; [done|].
    apply list_elem_of_In, filter_In. split; [|done].
    by apply list_elem_of_In, (JsMapFacts.get_Some_elem_of _ _ _ Hwf).
Qed.

(** X11. The sweep removes exactly the sessions whose expiry date is before
    the clock, with their locks; it returns their number; the sessions kept
    stay in their order, the other locks are untouched; a second sweep at
    the same clock finds nothing. *)
Theorem cleanup_sweeps_exactly_the_expired (now : Z) (st : t) :
  JsMap.wf (sessions st) →
  let r := cleanupExpiredSessions now st in
  r.1 = length (List.filter (λ e, expired now e.2) (sessions st))
  ∧ sessions r.2 = List.filter (λ e, negb (expired now e.2)) (sessions st)
  ∧ (∀ id, JsMap.get id (sessionLocks r.2)
           = match JsMap.get id (sessions st) with
             | Some s => if expired now s then None
                         else JsMap.get id (sessionLocks st)
             | None => JsMap.get id (sessionLocks st)
             end)
  ∧ cleanupExpiredSessions now r.2 = (0, r.2).
Proof.
  intros Hwf r. unfold r, cleanupExpiredSessions.
  rewrite sweep_shape. cbn [fst snd sessions sessionLocks].
  rewrite !fold_delete_filter.
  assert (List.filter (λ e : jsstring * Session.t,
                         bool_decide (e.1 ∉ expired_ids now (sessions st)))
                      (sessions st)
          = List.filter (λ e, negb (expired now e.2)) (sessions st)) as Hkept.
  { apply filter_ext_in. intros [k s] Hin%list_elem_of_In. cbn [fst snd].
    destruct (expired now s) eqn:He; simpl.
    - apply bool_decide_eq_false. intros Hout. apply Hout.
      apply elem_of_expired_ids; [done|]. exists s. split; [|done].
      by apply JsMapFacts.get_Some_elem_of.
    - apply bool_decide_eq_true.
      intros (s' & Hget & He')%elem_of_expired_ids; [|done].
      apply (JsMapFacts.get_Some_elem_of _ _ _ Hwf) in Hget.
      rewrite (entry_unique _ _ _ _ Hwf Hin Hget) in He. congruence. }
  rewrite Hkept. split_and!.
  - unfold expired_ids. by rewrite length_map.
  - done.
  - intros id. rewrite get_filter_keys.
    destruct (decide (id ∈ expired_ids now (sessions st))) as [Hin|Hout].
    + apply elem_of_expired_ids in Hin as (s & -> & ->); done.
    + destruct (JsMap.get id (sessions st)) as [s|] eqn:Hget; [|done].
      destruct (expired now s) eqn:He; [|done].
      exfalso. apply Hout, elem_of_expired_ids; [done|]. by exists s.
  - rewrite sweep_shape. cbn [fst snd sessions sessionLocks].
    assert (expired_ids now
              (List.filter (λ e, negb (expired now e.2)) (sessions st)) = [])
      as ->; [|done].
    unfold expired_ids. rewrite filter_filter.
    assert (List.filter (λ x : jsstring * Session.t,
                           negb (expired now x.2) && expired now x.2)
                        (sessions st) = []) as ->; [|done].
    clear. induction (sessions st) as [|e l IH]; [done|]. cbn [List.filter].
    destruct (expired now e.2); cbn [negb andb]; exact IH.
Qed.

Lemma cleanup_sweeps_exactly_the_expired_witness :
  let st := (createSession None None 1700086400001 (js "zz")
               1700086400001 Scenario.demo_validating).2 in
  let r := cleanupExpiredSessions 1700086400001 st in
  r.1 = 1%nat ∧ JsMap.keys (sessions r.2) = [js "session-1700086400001-zz"].
Proof.
  intros st r.
  destruct (cleanup_sweeps_exactly_the_expired 1700086400001 st)
    as (Hn & Hs & _).
  - unfold JsMap.wf. apply (bool_decide_unpack _). vm_compute. exact I.
  - fold r in Hn, Hs. rewrite Hn, Hs. split; vm_compute; reflexivity.
Defined.

Lemma getSession_createSession userId metadata idClock rnd now st :
  let created := createSession userId metadata idClock rnd now st in
  JsMap.get (generateSessionId idClock rnd) (sessions created.2)
  = Some created.1.
Proof. apply JsMapFacts.get_set_eq. Qed.

(** X12. A session lives for 24 hours: created when the clock reads [now],
    it is returned by [getSession] as long as the clock is not past [now +
    24 h] (the comparison is strict, so it is still returned at exactly 24
    hours); the first [getSession] after that returns nothing and removes
    the session and its lock, and no other session. It starts unlocked, in
    [CREATED], with no version. *)
Theorem session_lives_for_24_hours (st : SessionManager.t)
    (userId : option jsstring) (metadata : option (JsObject.t jsstring))
    (idClock : Z) (rnd : jsstring) (now at_ : Z) :
  JsDate.in_range (now + day) →
  let created := createSession userId metadata idClock rnd now st in
  let id := generateSessionId idClock rnd in
  let r := getSession id at_ created.2 in
  Session.id created.1 = id
  ∧ Session.state created.1 = CREATED
  ∧ Session.currentVersion created.1 = None
  ∧ Session.lastValidVersion created.1 = None
  ∧ isLocked id created.2 = false
  ∧ ((at_ ≤ now + day)%Z → r = (Some created.1, created.2))
  ∧ ((now + day < at_)%Z →
     r.1 = None
     ∧ JsMap.get id (sessions r.2) = None
     ∧ JsMap.get id (sessionLocks r.2) = None
     ∧ ∀ other, other ≠ id →
         JsMap.get other (sessions r.2) = JsMap.get other (sessions st)
         ∧ JsMap.get other (sessionLocks r.2)
           = JsMap.get other (sessionLocks st)).
Proof.
  intros Hrange created id r.
  assert (Session.expiresAt created.1 = JsDate.TimeValue (now + day)%Z) as Hexp.
  { unfold created, createSession, JsDate.of_time, JsDate.in_range, day in *.
    cbn [fst Session.expiresAt].
    destruct Hrange as [Hlo Hhi].
    apply Z.leb_le in Hlo, Hhi. by rewrite Hlo, Hhi. }
  assert (JsMap.get id (sessions created.2) = Some created.1) as Hget
    by apply getSession_createSession.
  split_and!; try done.
  - unfold isLocked, created, createSession. cbn [snd sessionLocks].
    by rewrite JsMapFacts.get_set_eq.
  - intros Hat. unfold r, getSession. rewrite Hget, Hexp.
    cbn [JsDate.lt]. by rewrite (proj2 (Z.ltb_ge _ _) Hat).
  - intros Hat. unfold r, getSession. rewrite Hget, Hexp.
    cbn [JsDate.lt]. rewrite (proj2 (Z.ltb_lt _ _) Hat).
    cbn [fst snd deleteSession sessions sessionLocks].
    rewrite !JsMapFacts.get_delete_eq. split_and!; try done.
    intros other Hne. rewrite !JsMapFacts.get_delete_ne by done.
    unfold created, createSession. cbn [snd sessions sessionLocks].
    by rewrite !JsMapFacts.get_set_ne.
Qed.

Lemma session_lives_for_24_hours_witness :
  let created := createSession None None 1700000000000 (js "ab12cd")
                   1700000000000 new in
  let id := js "session-1700000000000-ab12cd" in
  getSession id 1700086400000 created.2 = (Some created.1, created.2)
  ∧ (getSession id 1700086400001 created.2).1 = None.
Proof.
  intros created id.
  pose proof (session_lives_for_24_hours new None None 1700000000000%Z
                (js "ab12cd") 1700000000000%Z) as H.
  split.
  - apply (H 1700086400000%Z); [unfold JsDate.in_range; vm_compute; split; discriminate|].
    vm_compute. discriminate.
  - apply (H 1700086400001%Z); [unfold JsDate.in_range; vm_compute; split; discriminate|].
    vm_compute. reflexivity.
Defined.

Lemma transitionState_accepts st id session target log :
  JsMap.get id (sessions st) = Some session →
  (transitionState id target log st).1.1 = Ok ()
  ↔ target ∈ VALID_TRANSITIONS (Session.state session).
Proof.
  intros Hget. unfold transitionState. rewrite Hget.
  case_bool_decide as Hin; cbn [negb]; [done|]. split; [done|].
  by intros.
Qed.

(** X13. What the table lets through: a successful transition always changes
    the state, never leads back to [CREATED], enters [READY] only from
    [VALIDATING] and [VALIDATING] only from [BUILDING]; a move to [FAILED]
    is accepted from every state but [READY] and [FAILED]; and from every
    state some transition is accepted. *)
Theorem transitions_accepted_by_the_table (st : SessionManager.t)
    (id : jsstring) (session : Session.t) (log : jsstring) :
  JsMap.get id (sessions st) = Some session →
  let s := Session.state session in
  (∀ target, (transitionState id target log st).1.1 = Ok () →
     target ≠ s
     ∧ target ≠ CREATED
     ∧ (target = READY → s = VALIDATING)
     ∧ (target = VALIDATING → s = BUILDING))
  ∧ ((transitionState id FAILED log st).1.1 = Ok () ↔ s ≠ READY ∧ s ≠ FAILED)
  ∧ ∃ target, (transitionState id target log st).1.1 = Ok ().
Proof.
  intros Hget s. split_and!.
  - intros target Hok.
    apply (transitionState_accepts st id session target log Hget) in Hok.
    fold s in Hok. clearbody s.
    destruct s, target; try done;
      exfalso; revert Hok; apply (bool_decide_unpack _); vm_compute; exact I.
  - rewrite (transitionState_accepts st id session FAILED log Hget).
    fold s. clearbody s.
    destruct s; cbn [VALID_TRANSITIONS]; split;
      try (intros _; split; discriminate);
      try (intros [? ?]; congruence);
      try (intros _; apply (bool_decide_unpack _); vm_compute; exact I);
      intros Hin; exfalso; revert Hin;
      apply (bool_decide_unpack _); vm_compute; exact I.
  - exists (match s with
            | CREATED | READY | FAILED => GENERATING
            | GENERATING | FIXING => BUILDING
            | BUILDING => VALIDATING
            | VALIDATING => READY
            end).
    apply (transitionState_accepts st id session _ log Hget).
    fold s. clearbody s. destruct s; apply (bool_decide_unpack _); vm_compute; exact I.
Qed.

Lemma transitions_accepted_by_the_table_witness :
  (transitionState Scenario.demo_id FAILED [] Scenario.demo_validating).1.1
  = Ok ()
  ∧ ∀ target,
      (transitionState Scenario.demo_id target [] Scenario.demo_validating).1.1
      = Ok () → target ≠ CREATED.
Proof.
  destruct (transitions_accepted_by_the_table Scenario.demo_validating
              Scenario.demo_id
              (default (Scenario.demo_created.1)
                 (JsMap.get Scenario.demo_id
                    (sessions Scenario.demo_validating))) [])
    as (Hshape & Hfailed & _); [vm_compute; reflexivity|].
  split.
  - apply Hfailed. vm_compute. split; discriminate.
  - intros target Hok. by destruct (Hshape target Hok) as (_ & ? & _).
Defined.

(** X14. [deleteSession] removes the session with its lock and nothing
    else; afterwards the id is unknown to [getSession], a lock on it can be
    taken again, and deleting twice is deleting once. *)
Theorem deleteSession_removes_session_and_lock (st : SessionManager.t)
    (id : jsstring) :
  let st' := deleteSession id st in
  (∀ now, getSession id now st' = (None, st'))
  ∧ isLocked id st' = false
  ∧ (lockSession id st').1 = true
  ∧ deleteSession id st' = st'
  ∧ ∀ other, other ≠ id →
      JsMap.get other (sessions st') = JsMap.get other (sessions st)
      ∧ JsMap.get other (sessionLocks st') = JsMap.get other (sessionLocks st).
Proof.
  intros st'. split_and!.
  - intros now. unfold getSession, st', deleteSession. cbn [sessions].
    by rewrite JsMapFacts.get_delete_eq.
  - unfold isLocked, st', deleteSession. cbn [sessionLocks].
    by rewrite JsMapFacts.get_delete_eq.
  - unfold lockSession, st', deleteSession. cbn [sessionLocks].
    by rewrite JsMapFacts.get_delete_eq.
  - unfold st', deleteSession. cbn [sessions sessionLocks].
    f_equal; apply JsMapFacts.delete_absent, JsMapFacts.get_delete_eq.
  - intros other Hne. unfold st', deleteSession. cbn [sessions sessionLocks].
    by rewrite !JsMapFacts.get_delete_ne.
Qed.

(** X15. [setCurrentVersion] changes the current version of the session
    named and nothing else (every other field of the session, the locks
    and the other sessions are kept), whatever the version id is; on an unknown
    session it throws and changes nothing. A non-empty id set while the
    session is [VALIDATING] becomes the last valid version at the move to
    [READY]. *)
Theorem setCurrentVersion_changes_only_the_pointer (st : SessionManager.t)
    (id v : jsstring) :
  (JsMap.get id (sessions st) = None →
   setCurrentVersion id v st = (Throw (SessionNotFound id), st))
  ∧ ∀ session, JsMap.get id (sessions st) = Some session →
      ∃ st1 session1,
        setCurrentVersion id v st = (Ok (), st1)
        ∧ JsMap.get id (sessions st1) = Some session1
        ∧ Session.currentVersion session1 = Some v
        ∧ Session.id session1 = Session.id session
        ∧ Session.userId session1 = Session.userId session
        ∧ Session.state session1 = Session.state session
        ∧ Session.lastValidVersion session1 = Session.lastValidVersion session
        ∧ Session.createdAt session1 = Session.createdAt session
        ∧ Session.expiresAt session1 = Session.expiresAt session
        ∧ Session.metadata session1 = Session.metadata session
        ∧ sessionLocks st1 = sessionLocks st
        ∧ (∀ other, other ≠ id →
             JsMap.get other (sessions st1) = JsMap.get other (sessions st))
        ∧ (Session.state session = VALIDATING → v ≠ [] →
           ∀ log, ∃ st2 out session2,
             transitionState id READY log st1 = (Ok (), st2, out)
             ∧ JsMap.get id (sessions st2) = Some session2
             ∧ Session.state session2 = READY
             ∧ Session.currentVersion session2 = Some v
             ∧ Session.lastValidVersion session2 = Some v).
Proof.
  split.
  - intros Hget. unfold setCurrentVersion. by rewrite Hget.
  - intros session Hget. unfold setCurrentVersion. rewrite Hget.
    eexists _, _. split; [done|]. cbn [sessions sessionLocks].
    rewrite JsMapFacts.get_set_eq. split_and!; try done.
    + intros other Hne. by rewrite JsMapFacts.get_set_ne.
    + intros Hstate Hv log. unfold transitionState. cbn [sessions].
      rewrite JsMapFacts.get_set_eq. cbn [Session.state]. rewrite Hstate.
      cbn [VALID_TRANSITIONS].
      rewrite bool_decide_eq_true_2 by (apply (bool_decide_unpack _); vm_compute; exact I).
      cbn [negb]. eexists _, _, _. split; [done|]. cbn [sessions].
      rewrite JsMapFacts.get_set_eq. split; [done|].
      cbn [Session.state Session.currentVersion Session.lastValidVersion
           truthy_version].
      rewrite bool_decide_eq_true_2 by done.
      destruct v; [done|]. done.
Qed.

Lemma setCurrentVersion_changes_only_the_pointer_witness :
  ∃ st1 st2 out session2,
    setCurrentVersion Scenario.demo_id (js "v43") Scenario.demo_validating
    = (Ok (), st1)
    ∧ transitionState Scenario.demo_id READY [] st1 = (Ok (), st2, out)
    ∧ JsMap.get Scenario.demo_id (sessions st2) = Some session2
    ∧ Session.lastValidVersion session2 = Some (js "v43").
Proof.
  destruct (setCurrentVersion_changes_only_the_pointer
              Scenario.demo_validating Scenario.demo_id (js "v43"))
    as [_ H].
  destruct (H (default (Scenario.demo_created.1)
                 (JsMap.get Scenario.demo_id
                    (sessions Scenario.demo_validating))))
    as (st1 & session1 & Hset & _ & _ & _ & _ & _ & _ & _ & _ & _ & _ & _
        & Hready);
    [vm_compute; reflexivity|].
  destruct (Hready) with (log := @nil N)
    as (st2 & out & session2 & Ht & Hg & _ & _ & Hl);
    [vm_compute; reflexivity | discriminate |].
  by exists st1, st2, out, session2.
Defined.

End SessionLaws.

(** ** Laws of the version manager *)
Module VersionLaws.

Import VersionManager VersionQueries.

Lemma createVersion_effect sessionId files status idClock rnd now st :
  let versionId := generateVersionId idClock rnd in
  let ref := length (Heap.versions st.2) in
  let version :=
    Version.mk versionId (JsDate.TimeValue now) (length (Heap.maps st.2))
               status None in
  let r := createVersion sessionId files status idClock rnd now st in
  r.1 = ref
  ∧ versions r.2.1 = JsMap.set versionId ref (versions st.1)
  ∧ Heap.versions r.2.2 = Heap.versions st.2 ++ [version]
  ∧ JsMap.get sessionId (sessionVersions r.2.1)
    = Some (default [] (JsMap.get sessionId (sessionVersions st.1))
            ++ [versionId])
  ∧ (∀ other, other ≠ sessionId →
       JsMap.get other (sessionVersions r.2.1)
       = JsMap.get other (sessionVersions st.1))
  ∧ (JsMap.wf (sessionVersions st.1) → JsMap.wf (sessionVersions r.2.1)).
Proof.
  intros versionId ref version r. unfold r, createVersion.
  cbn [fst snd versions sessionVersions Heap.alloc_map Heap.alloc_version
       Heap.versions Heap.maps].
  split_and!; try done.
  - rewrite JsMapFacts.get_set_eq. do 2 f_equal. unfold JsMap.has.
    destruct (JsMap.get sessionId (sessionVersions st.1)) eqn:Hg.
    + by rewrite Hg.
    + by rewrite JsMapFacts.get_set_eq.
  - intros other Hne. rewrite JsMapFacts.get_set_ne by done.
    unfold JsMap.has.
    destruct (JsMap.get sessionId (sessionVersions st.1)); [done|].
    by rewrite JsMapFacts.get_set_ne.
  - intros Hwf. apply JsMapFacts.wf_set. destruct (JsMap.has _ _); [done|].
    by apply JsMapFacts.wf_set.
Qed.

Lemma read_version_prefix h h' ref :
  Heap.versions h `prefix_of` Heap.versions h' →
  ref < length (Heap.versions h) →
  Heap.read_version ref h' = Heap.read_version ref h.
Proof.
  intros [k Hk] Href. unfold Heap.read_version.
  by rewrite Hk, lookup_app_l.
Qed.

Lemma read_version_new h h' v :
  Heap.versions h' = Heap.versions h ++ [v] →
  Heap.read_version (length (Heap.versions h)) h' = v.
Proof.
  intros Hv. unfold Heap.read_version.
  by rewrite Hv, lookup_app_r, Nat.sub_diag by lia.
Qed.

Lemma get_filter_Some {V} (f : jsstring * V → bool) (m : JsMap.t V) k v :
  JsMap.wf m →
  JsMap.get k (List.filter f m) = Some v ↔ JsMap.get k m = Some v ∧ f (k, v) = true.
Proof.
  intros Hwf.
  assert (JsMap.wf (List.filter f m)) as Hwf'.
  { unfold JsMap.wf, JsMap.keys in *. clear -Hwf.
    induction m as [|e m IH]; [done|]. simpl in *.
    apply NoDup_cons in Hwf as [Hout Hnd]. destruct (f e); [|by apply IH].
    simpl. apply NoDup_cons. split; [|by apply IH].
    intros (e' & He & Hin)%list_elem_of_fmap. apply Hout, list_elem_of_fmap.
    exists e'. split; [done|].
    by apply list_elem_of_In, filter_In in Hin as [?%list_elem_of_In _]. }
  rewrite !JsMapFacts.get_Some_elem_of by done.
  split.
  - by intros [? ?]%list_elem_of_In%filter_In; split; [apply list_elem_of_In|].
  - intros [? ?]. apply list_elem_of_In, filter_In.
    by split; [apply list_elem_of_In|].
Qed.

Lemma wf_fold_delete {V} (ks : list jsstring) (m : JsMap.t V) :
  JsMap.wf m → JsMap.wf (fold_left (λ acc k, JsMap.delete k acc) ks m).
Proof.
  revert m. induction ks as [|k ks IH]; intros m Hwf; [done|].
  cbn [fold_left]. by apply IH, JsMapFacts.wf_delete.
Qed.

Lemma prune_get vs (l acc : JsMap.t (list VersionId)) sessionId :
  NoDup (JsMap.keys l) →
  JsMap.get sessionId (fold_left (prune_step vs) l acc)
  = match JsMap.get sessionId l with
    | Some ids =>
      match List.filter (λ id, JsMap.has id vs) ids with
      | [] => None
      | kept => Some kept
      end
    | None => JsMap.get sessionId acc
    end.
Proof.
  revert acc. induction l as [|[k ids] l IH]; intros acc Hnd; [done|].
  cbn [fold_left].
  change (JsMap.keys ((k, ids) :: l)) with (k :: JsMap.keys l) in Hnd.
  apply NoDup_cons in Hnd as [Hout Hnd].
  rewrite IH by done. cbn [JsMap.get].
  destruct (decide (sessionId = k)) as [->|Hne].
  - assert (JsMap.get k l = None) as -> by (by apply JsMapFacts.get_None_keys).
    unfold prune_step. cbn [fst snd].
    destruct (List.filter (λ id, JsMap.has id vs) ids) as [|id kept];
      cbn [length Nat.eqb].
    + apply JsMapFacts.get_delete_eq.
    + apply JsMapFacts.get_set_eq.
  - destruct (JsMap.get sessionId l); [done|].
    unfold prune_step. cbn [fst snd].
    destruct (_ =? 0)%nat.
    + by apply JsMapFacts.get_delete_ne.
    + by apply JsMapFacts.get_set_ne.
Qed.

Lemma wf_prune vs (l acc : JsMap.t (list VersionId)) :
  JsMap.wf acc → JsMap.wf (fold_left (prune_step vs) l acc).
Proof.
  revert acc. induction l as [|e l IH]; intros acc Hwf; [done|].
  cbn [fold_left]. apply IH. unfold prune_step.
  destruct (_ =? 0)%nat; [by apply JsMapFacts.wf_delete | by apply JsMapFacts.wf_set].
Qed.

(** The versions [garbageCollect] keeps, by their entries. *)
Lemma garbageCollect_versions cutoffDate st :
  JsMap.wf (versions st.1) →
  versions (garbageCollect cutoffDate st).2.1
  = List.filter (λ e, negb (older_than cutoffDate st.2 e.2)) (versions st.1).
Proof.
  intros Hwf. unfold garbageCollect. cbn [fst snd versions].
  rewrite SessionLaws.fold_delete_filter.
  apply filter_ext_in. intros [k ref] Hin%list_elem_of_In. cbn [fst snd].
  destruct (older_than cutoffDate st.2 ref) eqn:Hold; cbn [negb].
  - apply bool_decide_eq_false. intros Hout. apply Hout.
    apply list_elem_of_fmap. exists (k, ref). split; [done|].
    apply list_elem_of_In, filter_In. split; [by apply list_elem_of_In | done].
  - apply bool_decide_eq_true.
    intros ([k' ref'] & Hk & Hin')%list_elem_of_fmap. cbn [fst] in Hk. subst k'.
    apply list_elem_of_In, filter_In in Hin' as [Hin'%list_elem_of_In Hold'].
    cbn [snd] in Hold'.
    rewrite (SessionLaws.entry_unique _ _ _ _ Hwf Hin Hin') in Hold. congruence.
Qed.

Lemma consistent_new h : consistent (new, h).
Proof.
  split_and!; [apply NoDup_nil_2 | apply NoDup_nil_2 | by intros ?? [=]
              | by intros ?? [=]].
Qed.

Lemma tracked_prefix h h' id ref :
  Heap.versions h `prefix_of` Heap.versions h' →
  (ref < length (Heap.versions h)
   ∧ Version.id (Heap.read_version ref h) = id
   ∧ ∃ ms, JsDate.in_range ms
           ∧ Version.timestamp (Heap.read_version ref h) = JsDate.TimeValue ms) →
  ref < length (Heap.versions h')
  ∧ Version.id (Heap.read_version ref h') = id
  ∧ ∃ ms, JsDate.in_range ms
          ∧ Version.timestamp (Heap.read_version ref h') = JsDate.TimeValue ms.
Proof.
  intros Hpre (Href & Hid & Hts).
  rewrite (read_version_prefix h h' ref Hpre Href). split; [|done].
  apply prefix_length in Hpre. lia.
Qed.

Lemma consistent_heap st h' :
  consistent st → Heap.versions st.2 `prefix_of` Heap.versions h' →
  consistent (st.1, h').
Proof.
  intros (Hv & Hs & Ht & Hl) Hpre. split_and!; try done.
  intros id ref Hget. by apply (tracked_prefix st.2), Ht.
Qed.

Lemma consistent_createVersion sessionId files status idClock rnd now st :
  consistent st → JsDate.in_range now →
  consistent (createVersion sessionId files status idClock rnd now st).2.
Proof.
  intros (Hv & Hs & Ht & Hl) Hnow.
  destruct (createVersion_effect sessionId files status idClock rnd now st)
    as (_ & Hvs & Hheap & Hsid & Hother & Hwf).
  set (r := createVersion sessionId files status idClock rnd now st) in *.
  assert (Heap.versions st.2 `prefix_of` Heap.versions r.2.2) as Hpre
    by (rewrite Hheap; by eexists).
  split_and!.
  - rewrite Hvs. by apply JsMapFacts.wf_set.
  - by apply Hwf.
  - intros id ref. rewrite Hvs.
    destruct (decide (id = generateVersionId idClock rnd)) as [->|Hne].
    + rewrite JsMapFacts.get_set_eq. intros [= <-].
      rewrite (read_version_new st.2 r.2.2 _ Hheap), Hheap, length_app.
      cbn [length Version.id Version.timestamp]. split; [lia|].
      split; [done|]. by exists now.
    + rewrite JsMapFacts.get_set_ne by done. intros Hget.
      by apply (tracked_prefix st.2), Ht.
  - intros sid ids Hget.
    assert (∀ id, is_Some (JsMap.get id (versions st.1)) →
                  is_Some (JsMap.get id (versions r.2.1))) as Hkeep.
    { intros id Hid. rewrite Hvs.
      destruct (decide (id = generateVersionId idClock rnd)) as [->|Hne].
      - by rewrite JsMapFacts.get_set_eq.
      - by rewrite JsMapFacts.get_set_ne. }
    destruct (decide (sid = sessionId)) as [->|Hne].
    + rewrite Hsid in Hget. injection Hget as <-. split.
      * by destruct (default [] _).
      * intros id [Hin | ->%list_elem_of_singleton]%elem_of_app.
        -- destruct (JsMap.get sessionId (sessionVersions st.1)) as [old|] eqn:Hg;
             [|by apply elem_of_nil in Hin].
           apply Hkeep. by apply (Hl sessionId old).
        -- by rewrite Hvs, JsMapFacts.get_set_eq.
    + rewrite Hother in Hget by done. destruct (Hl sid ids Hget) as [? Hall].
      split; [done|]. intros id Hin. by apply Hkeep, Hall.
Qed.

Lemma consistent_updateVersionStatus versionId status errorLog now st :
  consistent st → JsDate.in_range now →
  consistent (updateVersionStatus versionId status errorLog now st).2.
Proof.
  intros Hc Hnow. pose proof Hc as (Hv & Hs & Ht & Hl).
  unfold updateVersionStatus.
  destruct (JsMap.get versionId (versions st.1)) as [old|] eqn:Hold; [|done].
  cbn [snd fst Heap.alloc_version].
  set (updated := Version.mk _ _ _ _ _).
  set (h' := Heap.mk _ _).
  assert (Heap.versions st.2 `prefix_of` Heap.versions h') as Hpre
    by (by eexists).
  split_and!; cbn [fst snd versions sessionVersions].
  - by apply JsMapFacts.wf_set.
  - done.
  - intros id ref.
    destruct (decide (id = versionId)) as [->|Hne].
    + rewrite JsMapFacts.get_set_eq. intros [= <-].
      rewrite (read_version_new st.2 h' updated eq_refl).
      unfold h'. cbn [Heap.versions]. rewrite length_app.
      cbn [length Version.id Version.timestamp]. split; [lia|].
      split; [by apply (Ht versionId old)|]. by exists now.
    + rewrite JsMapFacts.get_set_ne by done. intros Hget.
      by apply (tracked_prefix st.2), Ht.
  - intros sid ids Hget. destruct (Hl sid ids Hget) as [? Hall].
    split; [done|]. intros id Hin.
    destruct (decide (id = versionId)) as [->|Hne].
    + by rewrite JsMapFacts.get_set_eq.
    + rewrite JsMapFacts.get_set_ne by done. by apply Hall.
Qed.

Lemma garbageCollect_sessions cutoffDate st sessionId :
  JsMap.wf (sessionVersions st.1) →
  let r := garbageCollect cutoffDate st in
  JsMap.get sessionId (sessionVersions r.2.1)
  = match JsMap.get sessionId (sessionVersions st.1) with
    | Some ids =>
      match List.filter (λ id, JsMap.has id (versions r.2.1)) ids with
      | [] => None
      | kept => Some kept
      end
    | None => None
    end.
Proof.
  intros Hwf r. unfold r, garbageCollect. cbn [fst snd versions sessionVersions].
  rewrite prune_get by done.
  by destruct (JsMap.get sessionId (sessionVersions st.1)).
Qed.

Lemma consistent_garbageCollect cutoffDate st :
  consistent st → consistent (garbageCollect cutoffDate st).2.
Proof.
  intros (Hv & Hs & Ht & Hl).
  pose proof (garbageCollect_versions cutoffDate st Hv) as Hvs.
  pose proof (λ sid, garbageCollect_sessions cutoffDate st sid Hs) as Hsv.
  cbn zeta in Hsv.
  set (r := garbageCollect cutoffDate st) in *.
  assert (r.2.2 = st.2) as Hheap by done.
  split_and!.
  - unfold r, garbageCollect. cbn [fst snd versions].
    by apply wf_fold_delete.
  - unfold r, garbageCollect. cbn [fst snd sessionVersions].
    by apply wf_prune.
  - intros id ref. rewrite Hvs, Hheap.
    intros [Hget _]%get_filter_Some; [|done]. by apply Ht.
  - intros sid ids. rewrite Hsv.
    destruct (JsMap.get sid (sessionVersions st.1)) as [old|]; [|done].
    destruct (List.filter (λ id, JsMap.has id (versions r.2.1)) old)
      as [|id kept] eqn:Hf; [done|].
    intros [= <-]. split; [done|]. intros id' Hin. rewrite <-Hf in Hin.
    apply list_elem_of_In, filter_In in Hin as [_ Hhas].
    by apply JsMapFacts.has_spec.
Qed.

Lemma reachable_consistent st : reachable st → consistent st.
Proof.
  induction 1.
  - apply consistent_new.
  - by apply consistent_createVersion.
  - by apply consistent_updateVersionStatus.
  - by apply consistent_garbageCollect.
  - apply consistent_new.
  - by apply consistent_heap.
Qed.

(** X16. Whatever was called on a manager, every version it tracks is an
    allocated record that carries the id it is stored under and can be
    written in the storage format (its date is valid), and every session
    that has a list has a latest version: the list is not empty and each of
    its ids is tracked. *)
Theorem tracked_versions_are_well_formed (st : state) :
  reachable st →
  (∀ id ref, getVersion id st = Some ref →
     ref < length (Heap.versions st.2)
     ∧ Version.id (Heap.read_version ref st.2) = id
     ∧ ∃ data,
         serializeVersion (Heap.read_version ref st.2) st.2 = Ok data
         ∧ s_id data = id
         ∧ JsDate.parse (s_timestamp data)
           = Version.timestamp (Heap.read_version ref st.2))
  ∧ ∀ sessionId ids,
      JsMap.get sessionId (sessionVersions st.1) = Some ids →
      is_Some (getLatestVersion sessionId st)
      ∧ ∀ id, id ∈ ids → is_Some (getVersion id st).
Proof.
  intros (Hv & Hs & Ht & Hl)%reachable_consistent. split.
  - intros id ref Hget. destruct (Ht id ref Hget) as (Href & Hid & ms & Hms & Hts).
    split; [done|]. split; [done|]. unfold serializeVersion. rewrite Hts.
    destruct (DateFacts.parse_toISOString ms Hms) as (iso & -> & Hparse).
    eexists. split; [done|]. by cbn [s_id s_timestamp].
  - intros sid ids Hget. destruct (Hl sid ids Hget) as [Hne Hall].
    split; [|done]. unfold getLatestVersion. rewrite Hget.
    destruct (last ids) as [latest|] eqn:Hlast.
    + apply Hall. by apply last_Some_elem_of.
    + by apply last_None in Hlast.
Qed.

Lemma tracked_versions_are_well_formed_witness :
  ∃ data,
    serializeVersion
      (Heap.read_version Scenario.version_created.1
                         Scenario.version_created.2.2)
      Scenario.version_created.2.2 = Ok data
    ∧ s_id data = js "v1700000000000-q1w2e3".
Proof.
  destruct (tracked_versions_are_well_formed Scenario.version_created.2)
    as [Htracked _].
  - apply reach_createVersion; [apply reach_new|].
    unfold JsDate.in_range. vm_compute. split; discriminate.
  - destruct (Htracked (js "v1700000000000-q1w2e3") Scenario.version_created.1)
      as (_ & _ & data & Hdata & Hid & _); [vm_compute; reflexivity|].
    by exists data.
Defined.

Lemma filter_none {A} (f : A → bool) (l : list A) :
  (∀ x, x ∈ l → f x = false) → List.filter f l = [].
Proof.
  induction l as [|x l IH]; intros Hall; [done|]. cbn [List.filter].
  rewrite (Hall x) by left. apply IH. intros y Hy. apply Hall. by right.
Qed.

(** X17. [garbageCollect] removes exactly the versions whose timestamp is
    before the cutoff date and returns their number; the versions kept stay
    in their order and no record is touched; each session list keeps, in
    order, the ids still tracked, and a session left with none loses its
    list; a second collection with the same cutoff finds nothing, and so
    does a collection with an invalid cutoff date. *)
Theorem garbageCollect_drops_exactly_the_old (cutoffDate : JsDate.t)
    (st : state) :
  JsMap.wf (versions st.1) →
  JsMap.wf (sessionVersions st.1) →
  let r := garbageCollect cutoffDate st in
  r.1 = length (List.filter (λ e, older_than cutoffDate st.2 e.2) (versions st.1))
  ∧ versions r.2.1
    = List.filter (λ e, negb (older_than cutoffDate st.2 e.2)) (versions st.1)
  ∧ r.2.2 = st.2
  ∧ (∀ sessionId,
       JsMap.get sessionId (sessionVersions r.2.1)
       = match JsMap.get sessionId (sessionVersions st.1) with
         | Some ids =>
           match List.filter (λ id, JsMap.has id (versions r.2.1)) ids with
           | [] => None
           | kept => Some kept
           end
         | None => None
         end)
  ∧ (garbageCollect cutoffDate r.2).1 = 0
  ∧ (garbageCollect JsDate.Invalid st).1 = 0.
Proof.
  intros Hv Hs r.
  pose proof (garbageCollect_versions cutoffDate st Hv) as Hvs. fold r in Hvs.
  split_and!.
  - unfold r, garbageCollect. cbn [fst]. by rewrite length_map.
  - done.
  - done.
  - intros sessionId. by apply garbageCollect_sessions.
  - unfold garbageCollect at 1. cbn [fst]. rewrite length_map, Hvs.
    change r.2.2 with st.2.
    rewrite filter_none; [done|]. intros [k ref] Hin.
    apply list_elem_of_In, filter_In in Hin as [_ Hkeep]. cbn [snd] in *.
    by destruct (older_than cutoffDate st.2 ref).
  - unfold garbageCollect. cbn [fst]. rewrite length_map.
    rewrite filter_none; [done|]. intros [k ref] _. unfold older_than.
    cbn [snd]. by destruct (Version.timestamp _).
Qed.

Lemma garbageCollect_drops_exactly_the_old_witness :
  let r := garbageCollect (JsDate.TimeValue 1700000000006)
                          Scenario.version_created.2 in
  r.1 = 1 ∧ versions r.2.1 = []
  ∧ JsMap.get (js "session-1") (sessionVersions r.2.1) = None.
Proof.
  intros r.
  destruct (garbageCollect_drops_exactly_the_old
              (JsDate.TimeValue 1700000000006) Scenario.version_created.2)
    as (Hn & Hvs & _ & Hsv & _).
  - unfold JsMap.wf. apply (bool_decide_unpack _). vm_compute. exact I.
  - unfold JsMap.wf. apply (bool_decide_unpack _). vm_compute. exact I.
  - fold r in Hn, Hvs, Hsv. rewrite Hn, Hvs, Hsv.
    split_and!; vm_compute; reflexivity.
Defined.

Lemma last_valid_spec ids st :
  match last_valid ids st with
  | Some ref =>
    ∃ skipped id rest,
      ids = skipped ++ id :: rest
      ∧ Forall (λ i, valid_at st i = false) skipped
      ∧ JsMap.get id (versions st.1) = Some ref
      ∧ Version.status (Heap.read_version ref st.2) = VersionStatus.VALID
  | None => Forall (λ i, valid_at st i = false) ids
  end.
Proof.
  induction ids as [|id ids IH]; [by constructor|]. cbn [last_valid].
  destruct (JsMap.get id (versions st.1)) as [ref|] eqn:Hget.
  - case_bool_decide as Hstatus.
    + exists [], id, ids. by split_and!.
    + assert (valid_at st id = false) as Hid.
      { unfold valid_at. rewrite Hget. by apply bool_decide_eq_false. }
      destruct (last_valid ids st) as [ref'|].
      * destruct IH as (skipped & id' & rest & -> & Hsk & Hg & Hs).
        exists (id :: skipped), id', rest. split_and!; try done.
        by constructor.
      * by constructor.
  - assert (valid_at st id = false) as Hid by (unfold valid_at; by rewrite Hget).
    destruct (last_valid ids st) as [ref'|].
    + destruct IH as (skipped & id' & rest & -> & Hsk & Hg & Hs).
      exists (id :: skipped), id', rest. split_and!; try done.
      by constructor.
    + by constructor.
Qed.

(** X18. [getLastValidVersion] returns the record of the last id of the
    session's list that is tracked with status [VALID]: every id listed
    after it is untracked or not [VALID]; it returns nothing exactly when
    the session has no list or no id of its list is tracked as [VALID]. *)
Theorem getLastValidVersion_is_the_latest_valid (st : state)
    (sessionId : jsstring) :
  match getLastValidVersion sessionId st with
  | Some ref =>
    ∃ earlier id later,
      JsMap.get sessionId (sessionVersions st.1) = Some (earlier ++ id :: later)
      ∧ getVersion id st = Some ref
      ∧ Version.status (Heap.read_version ref st.2) = VersionStatus.VALID
      ∧ Forall (λ i, valid_at st i = false) later
  | None =>
    ∀ ids, JsMap.get sessionId (sessionVersions st.1) = Some ids →
           Forall (λ i, valid_at st i = false) ids
  end.
Proof.
  unfold getLastValidVersion.
  destruct (JsMap.get sessionId (sessionVersions st.1)) as [ids|]; [|done].
  pose proof (last_valid_spec (rev ids) st) as Hspec.
  destruct (last_valid (rev ids) st) as [ref|].
  - destruct Hspec as (skipped & id & rest & Hrev & Hsk & Hg & Hs).
    exists (rev rest), id, (rev skipped). split_and!; try done.
    + f_equal. rewrite <-(rev_involutive ids), Hrev, rev_app_distr.
      cbn [rev]. by rewrite <-app_assoc.
    + by apply Forall_rev.
  - intros ? [= <-]. rewrite <-(rev_involutive ids). by apply Forall_rev.
Qed.

Lemma read_version_last maps vs v :
  Heap.read_version (length vs) (Heap.mk maps (vs ++ [v])) = v.
Proof.
  unfold Heap.read_version. cbn [Heap.versions].
  by rewrite lookup_app_r, Nat.sub_diag by lia.
Qed.

Lemma elem_of_rev_1 {A} (x : A) (l : list A) : x ∈ rev l → x ∈ l.
Proof. intros Hin%list_elem_of_In%in_rev. by apply list_elem_of_In. Qed.

Lemma last_valid_ext ids st st' :
  (∀ id, id ∈ ids →
     JsMap.get id (versions st'.1) = JsMap.get id (versions st.1)
     ∧ ∀ ref, JsMap.get id (versions st.1) = Some ref →
              Heap.read_version ref st'.2 = Heap.read_version ref st.2) →
  last_valid ids st' = last_valid ids st.
Proof.
  induction ids as [|id ids IH]; intros Hsame; [done|]. cbn [last_valid].
  destruct (Hsame id) as [-> Hread]; [left|].
  rewrite IH by (intros i Hi; apply Hsame; by right).
  destruct (JsMap.get id (versions st.1)) as [ref|]; [|done].
  by rewrite (Hread ref).
Qed.

(** X19. A version created under a fresh id becomes the latest version of
    its session, at the end of the session's list; it is the last valid one
    if it is created [VALID], and otherwise the last valid version stays
    what it was. The lists and the answers for the other sessions are
    unchanged. *)
Theorem createVersion_becomes_the_latest (sessionId : jsstring) (files : loc)
    (status : VersionStatus.t) (idClock : Z) (rnd : jsstring) (now : Z)
    (st : state) :
  reachable st →
  getVersion (generateVersionId idClock rnd) st = None →
  let r := createVersion sessionId files status idClock rnd now st in
  JsMap.get sessionId (sessionVersions r.2.1)
  = Some (default [] (JsMap.get sessionId (sessionVersions st.1))
          ++ [generateVersionId idClock rnd])
  ∧ getLatestVersion sessionId r.2 = Some r.1
  ∧ getLastValidVersion sessionId r.2
    = (if bool_decide (status = VersionStatus.VALID) then Some r.1
       else getLastValidVersion sessionId st)
  ∧ ∀ other, other ≠ sessionId →
      JsMap.get other (sessionVersions r.2.1)
      = JsMap.get other (sessionVersions st.1)
      ∧ getLatestVersion other r.2 = getLatestVersion other st
      ∧ getLastValidVersion other r.2 = getLastValidVersion other st.
Proof.
  intros (Hv & Hs & Ht & Hl)%reachable_consistent Hfresh r.
  destruct (createVersion_effect sessionId files status idClock rnd now st)
    as (Href & Hvs & Hheap & Hsid & Hother & _).
  fold r in Href, Hvs, Hheap, Hsid, Hother.
  set (versionId := generateVersionId idClock rnd) in *.
  assert (JsMap.get versionId (versions r.2.1) = Some r.1) as Hnew
    by (by rewrite Hvs, Href, JsMapFacts.get_set_eq).
  assert (Heap.versions st.2 `prefix_of` Heap.versions r.2.2) as Hpre
    by (rewrite Hheap; by eexists).
  assert (∀ sid ids, JsMap.get sid (sessionVersions st.1) = Some ids →
            ∀ id, id ∈ ids →
              JsMap.get id (versions r.2.1) = JsMap.get id (versions st.1)
              ∧ ∀ ref, JsMap.get id (versions st.1) = Some ref →
                  Heap.read_version ref r.2.2 = Heap.read_version ref st.2)
    as Hsame.
  { intros sid ids Hget id Hin.
    destruct (Hl sid ids Hget) as [_ Hall]. specialize (Hall id Hin).
    assert (id ≠ versionId) as Hne.
    { intros ->. unfold getVersion in Hfresh. rewrite Hfresh in Hall.
      by destruct Hall. }
    split; [by rewrite Hvs, JsMapFacts.get_set_ne|].
    intros ref Hg. apply read_version_prefix; [done|]. by apply (Ht id). }
  split_and!.
  - done.
  - unfold getLatestVersion. by rewrite Hsid, last_snoc.
  - unfold getLastValidVersion at 1. rewrite Hsid, rev_app_distr.
    cbn [rev app last_valid]. rewrite Hnew.
    assert (Version.status (Heap.read_version r.1 r.2.2) = status) as ->.
    { rewrite Href. by rewrite (read_version_new st.2 r.2.2 _ Hheap). }
    case_bool_decide; [done|]. unfold getLastValidVersion.
    destruct (JsMap.get sessionId (sessionVersions st.1)) as [old|] eqn:Hold;
      [|done].
    cbn [default]. apply last_valid_ext. intros id Hin%elem_of_rev_1.
    by apply (Hsame sessionId old).
  - intros other Hne. rewrite (Hother other Hne). split; [done|].
    unfold getLatestVersion, getLastValidVersion. rewrite (Hother other Hne).
    destruct (JsMap.get other (sessionVersions st.1)) as [ids|] eqn:Hids;
      [|done].
    split.
    + destruct (last ids) as [latest|] eqn:Hlast; [|done].
      apply (Hsame other ids Hids). by apply last_Some_elem_of.
    + apply last_valid_ext. intros id Hin%elem_of_rev_1.
      by apply (Hsame other ids).
Qed.

Lemma createVersion_becomes_the_latest_witness :
  getLatestVersion (js "session-1") Scenario.version_created.2
  = Some Scenario.version_created.1
  ∧ getLastValidVersion (js "session-1") Scenario.version_created.2 = None.
Proof.
  destruct (createVersion_becomes_the_latest (js "session-1")
              Scenario.version_files.1 VersionStatus.BUILDING
              1700000000000%Z (js "q1w2e3") 1700000000005%Z
              (new, Scenario.version_files.2.2))
    as (_ & Hlatest & Hvalid & _);
    [apply reach_new | reflexivity |].
  split; [exact Hlatest | exact Hvalid].
Defined.



Lemma insert_sorted_Permutation h x l : insert_sorted h x l ≡ₚ x :: l.
Proof.
  induction l as [|y l IH]; [done|]. cbn [insert_sorted].
  destruct (sorts_before h y x); [|done].
  rewrite IH. apply Permutation_swap.
Qed.

Lemma sort_by_timestamp_Permutation h l : sort_by_timestamp h l ≡ₚ l.
Proof.
  induction l as [|x l IH]; [done|]. cbn [sort_by_timestamp fold_right].
  rewrite insert_sorted_Permutation. by f_equiv.
Qed.

Lemma insert_sorted_sorted h x l :
  is_Some (time_of h x) →
  Forall (λ r, is_Some (time_of h r)) l →
  StronglySorted (λ a b, not_after h a b = true) l →
  StronglySorted (λ a b, not_after h a b = true) (insert_sorted h x l).
Proof.
  intros [tx Hx] Hdated Hsorted.
  induction Hsorted as [|y l Hsorted IH Hy]; cbn [insert_sorted].
  - repeat constructor.
  - apply Forall_cons in Hdated as [[ty Hty] Hdated].
    unfold sorts_before. rewrite Hty, Hx.
    destruct (ty <? tx)%Z eqn:Hlt.
    + constructor; [by apply IH|].
      rewrite insert_sorted_Permutation. constructor; [|done].
      unfold not_after. rewrite Hty, Hx. apply Z.leb_le.
      apply Z.ltb_lt in Hlt. lia.
    + apply Z.ltb_ge in Hlt.
      assert (not_after h x y = true) as Hxy
        by (unfold not_after; rewrite Hx, Hty; by apply Z.leb_le).
      constructor; [by constructor|]. constructor; [done|].
      eapply Forall_impl; [exact Hy|]. cbn beta. intros z.
      unfold not_after. rewrite Hty, Hx.
      destruct (time_of h z) as [tz|]; [|done].
      rewrite !Z.leb_le. lia.
Qed.

Lemma sort_by_timestamp_sorted h l :
  Forall (λ r, is_Some (time_of h r)) l →
  StronglySorted (λ a b, not_after h a b = true) (sort_by_timestamp h l).
Proof.
  induction l as [|x l IH]; intros Hdated; [constructor|].
  apply Forall_cons in Hdated as [Hx Hdated].
  cbn [sort_by_timestamp fold_right]. apply insert_sorted_sorted; [done| |by apply IH].
  fold (sort_by_timestamp h l). by rewrite sort_by_timestamp_Permutation.
Qed.

Lemma insert_sorted_stable h x l t :
  List.filter (λ r, bool_decide (time_of h r = Some t)) (insert_sorted h x l)
  = List.filter (λ r, bool_decide (time_of h r = Some t)) (x :: l).
Proof.
  induction l as [|y l IH]; [done|]. cbn [insert_sorted].
  destruct (sorts_before h y x) eqn:Hyx; [|done].
  cbn [List.filter] in *. rewrite IH.
  case_bool_decide as Hxt; [|done].
  case_bool_decide as Hyt; [|done].
  unfold sorts_before in Hyx. rewrite Hxt, Hyt in Hyx.
  apply Z.ltb_lt in Hyx. lia.
Qed.

Lemma sort_by_timestamp_stable h l t :
  List.filter (λ r, bool_decide (time_of h r = Some t)) (sort_by_timestamp h l)
  = List.filter (λ r, bool_decide (time_of h r = Some t)) l.
Proof.
  induction l as [|x l IH]; [done|]. cbn [sort_by_timestamp fold_right].
  rewrite insert_sorted_stable. fold (sort_by_timestamp h l).
  cbn [List.filter]. by rewrite IH.
Qed.

(** X21. [getSessionVersions] lists the tracked versions of the session's
    ids, each as often as its id is listed, in the order of their timestamps
    (the date of creation or of the last status update), versions with the
    same timestamp in the order of the session's list; for a session without
    a list it is empty. *)
Theorem getSessionVersions_sorts_by_timestamp (st : state)
    (sessionId : jsstring) :
  reachable st →
  let tracked :=
    omap (λ id, getVersion id st)
         (default [] (JsMap.get sessionId (sessionVersions st.1))) in
  let result := getSessionVersions sessionId st in
  result ≡ₚ tracked
  ∧ StronglySorted (λ a b, not_after st.2 a b = true) result
  ∧ ∀ t, List.filter (λ r, bool_decide (time_of st.2 r = Some t)) result
         = List.filter (λ r, bool_decide (time_of st.2 r = Some t)) tracked.
Proof.
  intros (Hv & Hs & Ht & Hl)%reachable_consistent tracked result.
  unfold result, getSessionVersions, tracked, getVersion.
  destruct (JsMap.get sessionId (sessionVersions st.1)) as [ids|];
    [|by split_and!; [| constructor |]].
  cbn [default]. split_and!.
  - apply sort_by_timestamp_Permutation.
  - apply sort_by_timestamp_sorted. apply Forall_forall.
    intros ref (id & _ & Hget)%list_elem_of_omap.
    destruct (Ht id ref Hget) as (_ & _ & ms & _ & Hts).
    unfold time_of. rewrite Hts. by eexists.
  - apply sort_by_timestamp_stable.
Qed.

Lemma getSessionVersions_sorts_by_timestamp_witness :
  getSessionVersions (js "session-1") Scenario.version_created.2
  ≡ₚ [Scenario.version_created.1].
Proof.
  destruct (getSessionVersions_sorts_by_timestamp Scenario.version_created.2
              (js "session-1")) as (Hperm & _).
  - apply reach_createVersion; [apply reach_new|].
    unfold JsDate.in_range. vm_compute. split; discriminate.
  - exact Hperm.
Defined.

End VersionLaws.

(** ** Laws of the pipelines *)
Module PipelineLaws.

Import SessionState Orchestrator Pipeline Lifecycle.

Lemma triple_bind {A B} P (m : M A) (f : A → M B) Q R E :
  triple P m Q E → (∀ a, triple (Q a) (f a) R E) → triple P (m ≫= f) R E.
Proof.
  intros Hm Hf st HP. specialize (Hm st HP).
  unfold mbind, M_bind, bind. destruct (m st) as [[a|e] st']; [|done].
  by apply Hf.
Qed.

Lemma triple_try {A} P (body : M A) handler Q E' E :
  triple P body Q E' → (∀ e, triple (E' e) (handler e) Q E) →
  triple P (try_catch body handler) Q E.
Proof.
  intros Hm Hh st HP. specialize (Hm st HP).
  unfold try_catch. destruct (body st) as [[a|e] st']; [done|].
  by apply Hh.
Qed.

Lemma triple_conseq {A} (P P' : t → Prop) (m : M A) (Q Q' : A → t → Prop)
    (E E' : Thrown → t → Prop) :
  triple P' m Q' E' →
  (∀ st, P st → P' st) → (∀ a st, Q' a st → Q a st) →
  (∀ e st, E' e st → E e st) →
  triple P m Q E.
Proof.
  intros Hm HP HQ HE st Hst. specialize (Hm st (HP st Hst)).
  destruct (m st) as [[a|e] st']; [by apply HQ | by apply HE].
Qed.

Lemma triple_ret {A} (P : t → Prop) (a : A) E :
  triple P (mret a) (λ b st, b = a ∧ P st) E.
Proof. by intros st HP. Qed.

Lemma triple_raise {A} (P : t → Prop) (e : Thrown) (Q : A → t → Prop) :
  triple P (raise e) Q (λ e' st, e' = e ∧ P st).
Proof. by intros st HP. Qed.

Lemma triple_await {A} (P : t → Prop) (o : outcome A) :
  triple P (await o) (λ a st, o = Return a ∧ P st)
         (λ e st, o = Raise e ∧ P st).
Proof. intros st HP. unfold await. by destruct o. Qed.

(** *** The steps, one by one *)

Lemma sess_ext sessionId s cv lv st st' :
  sessionManager st' = sessionManager st →
  sess sessionId s cv lv st → sess sessionId s cv lv st'.
Proof. unfold sess, session_of. by intros ->. Qed.

Lemma getSession_live sessionId now session st :
  session_of sessionId st = Some session →
  expired now session = false →
  getSession sessionId now st
  = (Return (Some session),
     mk (vfs st) (versionManager st) (sessionManager st) (contextManager st)
        (heap st) (console st)).
Proof.
  unfold session_of, expired, getSession, SessionManager.getSession.
  by intros -> ->.
Qed.

Lemma transitionState_run sessionId target log s cv lv st :
  sess sessionId s cv lv st →
  let r := transitionState sessionId target log st in
  vfs r.2 = vfs st ∧ versionManager r.2 = versionManager st
  ∧ contextManager r.2 = contextManager st ∧ heap r.2 = heap st
  ∧ (∀ other, other ≠ sessionId →
       session_of other r.2 = session_of other st)
  ∧ SessionManager.sessionLocks (sessionManager r.2)
    = SessionManager.sessionLocks (sessionManager st)
  ∧ if bool_decide (target ∈ SessionManager.VALID_TRANSITIONS s)
    then r.1 = Return ()
         ∧ sess sessionId target cv
                (if bool_decide (target = READY)
                    && SessionManager.truthy_version cv then cv else lv) r.2
    else r.1 = Raise (Raised (InvalidTransition s target
                                (SessionManager.VALID_TRANSITIONS s)))
         ∧ sess sessionId s cv lv r.2.
Proof.
  intros (session & Hget & <- & <- & <-).
  unfold session_of in Hget.
  unfold transitionState, SessionManager.transitionState, sess, session_of.
  rewrite Hget. cbn zeta.
  case_bool_decide as Hin; cbn [negb fst snd vfs versionManager contextManager
    heap sessionManager SessionManager.sessions SessionManager.sessionLocks
    of_result].
  - split_and!; try done.
    + intros other Hne. by rewrite JsMapFacts.get_set_ne.
    + eexists. rewrite JsMapFacts.get_set_eq. done.
  - split_and!; try done. by eexists.
Qed.

Lemma setCurrentVersion_run sessionId versionId s cv lv st :
  sess sessionId s cv lv st →
  let r := setCurrentVersion sessionId versionId st in
  r.1 = Return ()
  ∧ sess sessionId s (Some versionId) lv r.2
  ∧ vfs r.2 = vfs st ∧ versionManager r.2 = versionManager st
  ∧ contextManager r.2 = contextManager st ∧ heap r.2 = heap st
  ∧ (∀ other, other ≠ sessionId →
       session_of other r.2 = session_of other st)
  ∧ SessionManager.sessionLocks (sessionManager r.2)
    = SessionManager.sessionLocks (sessionManager st).
Proof.
  intros (session & Hget & <- & <- & <-).
  unfold session_of in Hget.
  unfold setCurrentVersion, SessionManager.setCurrentVersion, sess, session_of.
  rewrite Hget. cbn [fst snd vfs versionManager contextManager heap
    sessionManager SessionManager.sessions SessionManager.sessionLocks of_result].
  split_and!; try done.
  - eexists. rewrite JsMapFacts.get_set_eq. done.
  - intros other Hne. by rewrite JsMapFacts.get_set_ne.
Qed.

Lemma rejection_write e (vst : VFS.state) :
  VFS.write e.1 e.2 vst
  = match rejection e with
    | Some err => (Throw err, vst)
    | None =>
      (Ok (), (vst.1, Heap.write_map (VFS.files vst.1)
                        (JsMap.set (VFS.normalizePath e.1) e.2 (VFS.working vst))
                        vst.2))
    end.
Proof.
  unfold VFS.write, rejection. destruct (VFS.validatePath e.1) as [[]|err]; [|done].
  by destruct (_ <? _)%N.
Qed.

(** What [write_all] does: it throws exactly the first rejection, after
    having written the entries before it; only the working [Map] changes. *)
Lemma write_all_run entries st :
  let r := write_all entries st in
  r.1 = match first_rejection entries with
        | Some err => Raise (Raised err)
        | None => Return ()
        end
  ∧ sessionManager r.2 = sessionManager st
  ∧ versionManager r.2 = versionManager st
  ∧ contextManager r.2 = contextManager st
  ∧ console r.2 = console st
  ∧ vfs r.2 = vfs st
  ∧ Heap.versions (heap r.2) = Heap.versions (heap st)
  ∧ (VFS.inv (vfs st, heap st) →
     VFS.inv (vfs r.2, heap r.2)
     ∧ VFS.working (vfs r.2, heap r.2)
       = written (accepted_prefix entries) (VFS.working (vfs st, heap st))
     ∧ ∀ l, l ≠ VFS.files (vfs st) →
            Heap.read_map l (heap r.2) = Heap.read_map l (heap st)).
Proof.
  revert st. induction entries as [|[path content] entries IH]; intros st.
  - cbn. by split_and!.
  - cbn [write_all first_rejection accepted_prefix].
    unfold mbind, M_bind, bind, vfs_write.
    pose proof (rejection_write (path, content) (vfs st, heap st)) as Hwrite.
    cbn [fst snd] in Hwrite. rewrite Hwrite. clear Hwrite.
    destruct (rejection (path, content)) as [err|] eqn:Hrej;
      cbn [fst snd of_result].
    + by split_and!.
    + set (st1 := mk _ _ _ _ _ _).
      destruct (IH st1) as (Hr & Hsm & Hvm & Hcm & Hco & Hvfs & Hhv & Hstore).
      split_and!; try done.
      intros Hinv.
      assert (VFS.inv (vfs st1, heap st1)) as Hinv1.
      { apply (VFSFacts.inv_write_working (vfs st, heap st)); [done|].
        apply JsMapFacts.wf_set. destruct Hinv as (Hwf & _).
        by apply HeapFacts.wf_read_map. }
      destruct (Hstore Hinv1) as (Hinv' & Hw & Hother).
      split_and!; [done | |].
      * rewrite Hw. cbn [written fold_left]. f_equal.
        unfold st1, VFS.working. cbn [fst snd vfs heap].
        apply HeapFacts.read_map_write_eq. by destruct Hinv as (_ & ? & _).
      * intros l Hne. rewrite (Hother l Hne). unfold st1. cbn [heap fst snd].
        by apply HeapFacts.read_map_write_ne.
Qed.

Lemma accepted_all entries :
  first_rejection entries = None → accepted_prefix entries = entries.
Proof.
  induction entries as [|e entries IH]; [done|].
  cbn [first_rejection accepted_prefix].
  destruct (rejection e); [done|]. intros ?. f_equal. by apply IH.
Qed.

Lemma wf_written entries m : JsMap.wf m → JsMap.wf (written entries m).
Proof.
  revert m. induction entries as [|e entries IH]; intros m Hwf; [done|].
  cbn [written fold_left]. by apply IH, JsMapFacts.wf_set.
Qed.

Lemma inv_alloc_map m (vst : VFS.state) :
  JsMap.wf m → VFS.inv vst → VFS.inv (vst.1, (Heap.alloc_map m vst.2).2).
Proof.
  intros Hm (Hwf & Hfiles & Hsnap). split_and!; cbn [fst snd].
  - by apply HeapFacts.wf_alloc_map.
  - rewrite HeapFacts.length_alloc_map. lia.
  - intros id l Hget. destruct (Hsnap id l Hget).
    rewrite HeapFacts.length_alloc_map. split; [lia | done].
Qed.

Lemma inv_alloc_version v (vst : VFS.state) :
  VFS.inv vst → VFS.inv (vst.1, (Heap.alloc_version v vst.2).2).
Proof.
  intros (Hwf & Hfiles & Hsnap). by split_and!.
Qed.

Lemma working_alloc_map m (vst : VFS.state) :
  VFS.inv vst →
  VFS.working (vst.1, (Heap.alloc_map m vst.2).2) = VFS.working vst.
Proof.
  intros (_ & Hfiles & _). unfold VFS.working. cbn [fst snd].
  by apply HeapFacts.read_map_alloc_old.
Qed.

Lemma store_holds_alloc_map st0 m copy st st' :
  JsMap.wf copy →
  vfs st' = vfs st →
  heap st' = (Heap.alloc_map copy (heap st)).2 →
  store_holds st0 m st → store_holds st0 m st'.
Proof.
  intros Hcopy Hv Hh [Hsn Hstore]. split; [by rewrite Hv|].
  intros Hinv0. destruct (Hstore Hinv0) as [Hinv Hw]. rewrite Hv, Hh.
  split.
  - by apply (inv_alloc_map copy (vfs st, heap st)).
  - rewrite <-Hw. by apply (working_alloc_map copy (vfs st, heap st)).
Qed.

Lemma store_holds_alloc_version st0 m v st st' :
  vfs st' = vfs st →
  heap st' = (Heap.alloc_version v (heap st)).2 →
  store_holds st0 m st → store_holds st0 m st'.
Proof.
  intros Hv Hh [Hsn Hstore]. split; [by rewrite Hv|].
  intros Hinv0. destruct (Hstore Hinv0) as [Hinv Hw]. rewrite Hv, Hh.
  split.
  - by apply (inv_alloc_version v (vfs st, heap st)).
  - done.
Qed.

Lemma store_holds_same st0 m st st' :
  vfs st' = vfs st → heap st' = heap st →
  store_holds st0 m st → store_holds st0 m st'.
Proof. unfold store_holds. by intros -> ->. Qed.

Lemma committed_same st0 versionId status m st st' :
  versionManager st' = versionManager st → heap st' = heap st →
  committed st0 versionId status m st → committed st0 versionId status m st'.
Proof. unfold committed. by intros -> ->. Qed.

Lemma versionId_truthy idClock rnd :
  SessionManager.truthy_version
    (Some (VersionManager.generateVersionId idClock rnd)) = true.
Proof. done. Qed.

Lemma createVersion_heap sessionId files status idClock rnd now st :
  let r := VersionManager.createVersion sessionId files status idClock rnd now st in
  r.2.2
  = (Heap.alloc_version
       (Version.mk (VersionManager.generateVersionId idClock rnd)
                   (JsDate.TimeValue now) (length (Heap.maps st.2)) status None)
       (Heap.alloc_map (JsMap.of_entries (Heap.read_map files st.2)) st.2).2).2.
Proof. done. Qed.

Lemma read_map_last maps vs m :
  Heap.read_map (length maps) (Heap.mk (maps ++ [m]) vs) = m.
Proof.
  unfold Heap.read_map. cbn [Heap.maps].
  by rewrite lookup_app_r, Nat.sub_diag by lia.
Qed.

(** The commit steps shared by the two pipelines: the store is cleared,
    the entries are written, a version is created from a copy of the
    working mapping and made the session's current version. *)
Lemma commit_block {A} (k : VersionId → M A) st0 sessionId entries env s cv lv
    (Q : A → t → Prop) (E : Thrown → t → Prop) :
  let vid := VersionManager.generateVersionId (idClock env) (rnd env) in
  let m := written entries JsMap.empty in
  triple (λ st, first_rejection entries = None
                ∧ sess sessionId s (Some vid) lv st
                ∧ store_holds st0 m st
                ∧ committed st0 vid VersionStatus.BUILDING m st)
         (k vid) Q E →
  (∀ err st, first_rejection entries = Some err →
     sess sessionId s cv lv st → untouched_versions st0 st →
     store_holds st0 (written (accepted_prefix entries) JsMap.empty) st →
     E (Raised err) st) →
  triple (λ st, sess sessionId s cv lv st ∧ untouched_versions st0 st
                ∧ untouched_store st0 st)
         (vfs_clear;;
          write_all entries;;
          files ← vfs_getAllFiles;
          version ← createVersion sessionId files VersionStatus.BUILDING
                      (idClock env) (rnd env) (at_createVersion env);
          versionId ← version_id version;
          setCurrentVersion sessionId versionId;;
          k versionId)
         Q E.
Proof.
  intros vid m Hk Hrej st (Hsess & [Hvm Hhv] & [Hvfs Hheap]).
  unfold mbind, M_bind, bind.
  (* clear *)
  unfold vfs_clear at 1. cbn beta iota zeta.
  set (st1 := mk _ _ _ _ _ _).
  assert (store_holds st0 JsMap.empty st1) as Hstore1.
  { split; [done|]. intros Hinv0. unfold st1. cbn [vfs heap].
    rewrite Hvfs, Hheap.
    change (VFS.inv (VFS.clear (vfs st0, heap st0))
            ∧ VFS.working (VFS.clear (vfs st0, heap st0)) = JsMap.empty).
    split; [by apply VFSFacts.inv_clear|].
    apply VFSLaws.working_clear. by destruct Hinv0 as (_ & ? & _). }
  (* the writes *)
  destruct (write_all_run entries st1)
    as (Hr & Hsm2 & Hvm2 & Hcm2 & Hco2 & Hvfs2 & Hhv2 & Hstore2).
  destruct (write_all entries st1) as [[[]|e] st2] eqn:Hw; cbn [fst snd] in *.
  2:{ destruct (first_rejection entries) as [err|] eqn:Hfirst; [|done].
      injection Hr as ->. apply (Hrej err st2 eq_refl).
      - by apply (sess_ext _ _ _ _ st).
      - split; [by rewrite Hvm2 | by rewrite Hhv2].
      - split; [by rewrite Hvfs2|]. intros Hinv0.
        destruct Hstore1 as [_ Hstore1]. destruct (Hstore1 Hinv0) as [Hinv1 Hw1].
        destruct (Hstore2 Hinv1) as (Hinv2 & Hw2 & _). split; [done|].
        by rewrite Hw2, Hw1. }
  destruct (first_rejection entries) as [err|] eqn:Hfirst; [done|].
  rewrite (accepted_all entries Hfirst) in Hstore2.
  assert (store_holds st0 m st2) as Hstore.
  { split; [by rewrite Hvfs2|]. intros Hinv0.
    destruct Hstore1 as [_ Hstore1]. destruct (Hstore1 Hinv0) as [Hinv1 Hw1].
    destruct (Hstore2 Hinv1) as (Hinv2 & Hw2 & _). split; [done|].
    by rewrite Hw2, Hw1. }
  assert (JsMap.wf m) as Hwfm by apply wf_written, NoDup_nil_2.
  (* the copy handed to the version manager *)
  unfold vfs_getAllFiles at 1. cbn beta iota zeta.
  unfold VFS.getAllFiles. cbn [fst snd Heap.alloc_map].
  set (st3 := mk _ _ _ _ _ _).
  (* the version *)
  unfold createVersion at 1. cbn beta iota zeta.
  set (created := VersionManager.createVersion _ _ _ _ _ _ _).
  set (st4 := mk _ _ _ _ _ _).
  destruct (VersionLaws.createVersion_effect sessionId
              (length (Heap.maps (heap st2))) VersionStatus.BUILDING
              (idClock env) (rnd env) (at_createVersion env)
              (versionManager st3, heap st3))
    as (Href & Hvs & Hheap4 & _).
  fold created in Href, Hvs, Hheap4. cbn [fst snd] in Href, Hvs, Hheap4.
  pose proof (createVersion_heap sessionId
                (length (Heap.maps (heap st2))) VersionStatus.BUILDING
                (idClock env) (rnd env) (at_createVersion env)
                (versionManager st3, heap st3)) as Hheap4'.
  cbn zeta in Hheap4'. fold created in Hheap4'. cbn [fst snd] in Hheap4'.
  unfold version_id at 1. cbn beta iota zeta.
  assert (Heap.read_version created.1 (heap st4)
          = Version.mk vid (JsDate.TimeValue (at_createVersion env))
                       (length (Heap.maps (heap st3)))
                       VersionStatus.BUILDING None) as Hread.
  { rewrite Href. unfold st4. cbn [heap].
    by apply (VersionLaws.read_version_new (heap st3)). }
  rewrite Hread. cbn [Version.id].
  (* the session's pointer *)
  assert (sess sessionId s cv lv st4) as Hsess4
    by (apply (sess_ext _ _ _ _ st); [|done]; unfold st4, st3; cbn; done).
  destruct (setCurrentVersion_run sessionId vid s cv lv st4 Hsess4)
    as (Hr5 & Hsess5 & Hvfs5 & Hvm5 & Hcm5 & Hheap5 & _).
  destruct (setCurrentVersion sessionId vid st4) as [[[]|e] st5] eqn:Hset;
    cbn [fst snd] in *; [|done].
  apply Hk. split_and!; [done | done | |].
  - apply (store_holds_same st0 m st4); [done | done |].
    apply (store_holds_alloc_version st0 m
             (Version.mk vid (JsDate.TimeValue (at_createVersion env))
                (length (Heap.maps (heap st3))) VersionStatus.BUILDING None)
             (mk (vfs st3) (versionManager st3) (sessionManager st3)
                 (contextManager st3)
                 (Heap.alloc_map
                    (JsMap.of_entries
                       (Heap.read_map (length (Heap.maps (heap st2))) (heap st3)))
                    (heap st3)).2
                 (console st3)));
      [done | unfold st4; cbn [heap]; by rewrite Hheap4' |].
    apply (store_holds_alloc_map st0 m
             (JsMap.of_entries
                (Heap.read_map (length (Heap.maps (heap st2))) (heap st3)))
             st3); [apply JsMapFacts.wf_of_entries | done | done |].
    apply (store_holds_alloc_map st0 m
             (JsMap.of_entries (VFS.working (vfs st2, heap st2))) st2);
      [apply JsMapFacts.wf_of_entries | done | done | done].
  - exists created.1. rewrite Hvm5, Hheap5. split_and!.
    + unfold VersionManager.getVersion, st4. cbn [fst versionManager].
      rewrite Hvs, Href. apply JsMapFacts.get_set_eq.
    + by rewrite Hread.
    + by rewrite Hread.
    + intros Hinv0. rewrite Hread. cbn [Version.files].
      destruct Hstore as [_ Hstore]. destruct (Hstore Hinv0) as [Hinv2 Hw2].
      unfold st4. cbn [heap]. rewrite Hheap4'.
      cbn [Heap.alloc_version Heap.alloc_map snd].
      unfold Heap.read_map at 1. cbn [Heap.maps].
      rewrite lookup_app_r, Nat.sub_diag by lia. cbn [lookup list_lookup default].
      unfold st3. cbn [heap]. rewrite read_map_last.
      rewrite Hw2. unfold id.
      by rewrite (JsMapFacts.of_entries_wf m Hwfm),
                 (JsMapFacts.of_entries_wf m Hwfm).
Qed.

Lemma updateVersionStatus_run st0 versionId status0 m now st :
  committed st0 versionId status0 m st →
  let r := updateVersionStatus versionId VersionStatus.VALID None now st in
  r.1 = Return ()
  ∧ sessionManager r.2 = sessionManager st
  ∧ vfs r.2 = vfs st
  ∧ (∃ v, heap r.2 = (Heap.alloc_version v (heap st)).2)
  ∧ committed st0 versionId VersionStatus.VALID m r.2.
Proof.
  intros (ref & Hget & Hid & _ & Hfiles).
  unfold updateVersionStatus.
  rewrite (VersionTheorems.updateVersionStatus_tracked versionId ref
             VersionStatus.VALID None now (versionManager st, heap st) Hget).
  cbn [fst snd of_result sessionManager vfs heap versionManager
       Heap.alloc_version].
  split_and!; try done; [by eexists|].
  exists (length (Heap.versions (heap st))).
  { unfold VersionManager.getVersion.
    cbn [fst snd VersionManager.versions heap versionManager].
    rewrite JsMapFacts.get_set_eq, VersionLaws.read_version_last.
    cbn [Version.id Version.status Version.files]. by split_and!. }
Qed.

Ltac table := apply (bool_decide_unpack _); vm_compute; exact I.

(** The end of [execute], from the move to [VALIDATING] on: it cannot
    throw. *)
Lemma execute_tail st0 sessionId env m lv content :
  let vid := VersionManager.generateVersionId (idClock env) (rnd env) in
  triple (λ st, sess sessionId BUILDING (Some vid) lv st
                ∧ store_holds st0 m st
                ∧ committed st0 vid VersionStatus.BUILDING m st)
         (transitionState sessionId VALIDATING (js "Validating build");;
          updateVersionStatus vid VersionStatus.VALID None
                              (at_updateVersionStatus env);;
          transitionState sessionId READY (js "Build complete");;
          addMessage sessionId ContextManager.assistant content
                     (at_doneMessage env);;
          ret vid)
         (λ a st, a = vid
                  ∧ sess sessionId READY (Some vid) (Some vid) st
                  ∧ store_holds st0 m st
                  ∧ committed st0 vid VersionStatus.VALID m st)
         (λ _ _, False).
Proof.
  intros vid st (Hsess & Hstore & Hcommitted).
  unfold mbind, M_bind, bind.
  destruct (transitionState_run sessionId VALIDATING (js "Validating build")
              _ _ _ st Hsess) as (Hvfs1 & Hvm1 & _ & Hheap1 & _ & _ & Hres1).
  rewrite bool_decide_eq_true_2 in Hres1 by table.
  destruct Hres1 as [Hr1 Hsess1]. cbn [andb bool_decide] in Hsess1.
  destruct (transitionState sessionId VALIDATING _ st) as [[[]|e1] st1];
    cbn [fst snd] in *; [|done].
  assert (committed st0 vid VersionStatus.BUILDING m st1) as Hcommitted1
    by (by apply (committed_same st0 vid _ m st)).
  destruct (updateVersionStatus_run st0 vid _ m (at_updateVersionStatus env)
              st1 Hcommitted1) as (Hr2 & Hsm2 & Hvfs2 & [v Hheap2] & Hcommitted2).
  destruct (updateVersionStatus vid _ _ _ st1) as [[[]|e2] st2];
    cbn [fst snd] in *; [|done].
  assert (sess sessionId VALIDATING (Some vid) lv st2) as Hsess2
    by (by apply (sess_ext _ _ _ _ st1)).
  destruct (transitionState_run sessionId READY (js "Build complete")
              _ _ _ st2 Hsess2) as (Hvfs3 & Hvm3 & _ & Hheap3 & _ & _ & Hres3).
  rewrite bool_decide_eq_true_2 in Hres3 by table.
  destruct Hres3 as [Hr3 Hsess3].
  rewrite bool_decide_eq_true_2 in Hsess3 by done.
  unfold vid in Hsess3 at 2. rewrite versionId_truthy in Hsess3.
  cbn [andb] in Hsess3. fold vid in Hsess3.
  destruct (transitionState sessionId READY _ st2) as [[[]|e3] st3];
    cbn [fst snd] in *; [|done].
  unfold addMessage. cbn beta iota zeta. split; [done|].
  split_and!.
  - by apply (sess_ext _ _ _ _ st3).
  - apply (store_holds_same st0 m st3); [done | done |].
    apply (store_holds_same st0 m st2); [done | done |].
    apply (store_holds_alloc_version st0 m v st1); [done | done |].
    by apply (store_holds_same st0 m st).
  - apply (committed_same st0 vid _ m st3); [done | done |].
    by apply (committed_same st0 vid _ m st2).
Qed.

Lemma on_error_run {A} sessionId e s cv lv st :
  sess sessionId s cv lv st →
  FAILED ∈ SessionManager.VALID_TRANSITIONS s →
  let r := on_error (A := A) sessionId e st in
  r.1 = Raise e
  ∧ sess sessionId FAILED cv lv r.2
  ∧ vfs r.2 = vfs st ∧ versionManager r.2 = versionManager st
  ∧ contextManager r.2 = contextManager st ∧ heap r.2 = heap st
  ∧ (∀ other, other ≠ sessionId → session_of other r.2 = session_of other st)
  ∧ SessionManager.sessionLocks (sessionManager r.2)
    = SessionManager.sessionLocks (sessionManager st).
Proof.
  intros Hsess Hallowed. unfold on_error, mbind, M_bind, bind.
  destruct (transitionState_run sessionId FAILED (errorMessage e) _ _ _ st Hsess)
    as (Hvfs & Hvm & Hcm & Hheap & Hother & Hlocks & Hres).
  rewrite bool_decide_eq_true_2 in Hres by done.
  destruct Hres as [Hr Hsess']. cbn [andb bool_decide] in Hsess'.
  destruct (transitionState sessionId FAILED _ st) as [[[]|e'] st'];
    cbn [fst snd] in *; [|done].
  by split_and!.
Qed.

Lemma failed_allowed_unless_generating s :
  GENERATING ∉ SessionManager.VALID_TRANSITIONS s →
  FAILED ∈ SessionManager.VALID_TRANSITIONS s.
Proof. destruct s; intros Hnot; try table; exfalso; apply Hnot; table. Qed.

Lemma failed_allowed_unless_fixing s :
  FIXING ∉ SessionManager.VALID_TRANSITIONS s →
  FAILED ∈ SessionManager.VALID_TRANSITIONS s.
Proof. destruct s; intros Hnot; try table; exfalso; apply Hnot; table. Qed.

Lemma untouched_store_after_failure s env st0 st :
  (GENERATING ∉ SessionManager.VALID_TRANSITIONS s
   ∨ (∃ e, plan_outcome env = Raise e)
   ∨ ∃ e, generate_outcome env = Raise e) →
  untouched_store st0 st → store_after_failure s env st0 st.
Proof.
  unfold store_after_failure. intros Hwhy Hus.
  destruct (plan_outcome env) as [plan|e1]; [|done].
  destruct (generate_outcome env) as [fileSet|e2]; [|done].
  case_bool_decide; [|done].
  by destruct Hwhy as [? | [[? ?] | [? ?]]].
Qed.

Lemma triple_await_cases {A} (P : t → Prop) (o : outcome A)
    (Q : A → t → Prop) (E : Thrown → t → Prop) :
  (∀ a st, o = Return a → P st → Q a st) →
  (∀ e st, o = Raise e → P st → E e st) →
  triple P (await o) Q E.
Proof. intros HQ HE st HP. unfold await. destruct o; [by apply HQ | by apply HE]. Qed.

Lemma triple_addMessage sessionId role content now (P : t → Prop)
    (Q : () → t → Prop) (E : Thrown → t → Prop) :
  (∀ st st', sessionManager st' = sessionManager st →
             versionManager st' = versionManager st →
             vfs st' = vfs st → heap st' = heap st →
             P st → Q () st') →
  triple P (addMessage sessionId role content now) Q E.
Proof. intros HQ st HP. unfold addMessage. by apply (HQ st). Qed.

Lemma triple_pure {A} (φ : Prop) (P : t → Prop) (m : M A) Q E :
  (φ → triple P m Q E) → triple (λ st, φ ∧ P st) m Q E.
Proof. intros H st [Hφ HP]. by apply H. Qed.

Lemma untouched_versions_ext st0 st st' :
  versionManager st' = versionManager st → heap st' = heap st →
  untouched_versions st0 st → untouched_versions st0 st'.
Proof. unfold untouched_versions. by intros -> ->. Qed.

Lemma untouched_store_ext st0 st st' :
  vfs st' = vfs st → heap st' = heap st →
  untouched_store st0 st → untouched_store st0 st'.
Proof. unfold untouched_store. by intros -> ->. Qed.

(** A transition the table allows, as a step of a pipeline. *)
Lemma triple_transition sessionId target log s cv lv st0 :
  target ∈ SessionManager.VALID_TRANSITIONS s →
  target ≠ READY →
  triple (λ st, sess sessionId s cv lv st ∧ untouched_versions st0 st
                ∧ untouched_store st0 st)
         (transitionState sessionId target log)
         (λ _ st, sess sessionId target cv lv st ∧ untouched_versions st0 st
                  ∧ untouched_store st0 st)
         (λ _ _, False).
Proof.
  intros Hallowed Hready st (Hsess & Huv & Hus).
  destruct (transitionState_run sessionId target log _ _ _ st Hsess)
    as (Hvfs1 & Hvm1 & _ & Hheap1 & _ & _ & Hres).
  rewrite bool_decide_eq_true_2 in Hres by done.
  destruct Hres as [Hr Hsess1].
  rewrite (bool_decide_eq_false_2 (target = READY)) in Hsess1 by done.
  cbn [andb] in Hsess1.
  destruct (transitionState sessionId target log st) as [[[]|e] st1];
    cbn [fst snd] in *; [|done].
  split_and!; [done | |].
  - by apply (untouched_versions_ext st0 st).
  - by apply (untouched_store_ext st0 st).
Qed.

(** The [try] block of [execute], from a state where nothing was done
    yet. *)
Lemma execute_try_triple sessionId userPrompt env st0 s0 cv0 lv0 :
  let vid := VersionManager.generateVersionId (idClock env) (rnd env) in
  triple
    (λ st, sess sessionId s0 cv0 lv0 st ∧ untouched_versions st0 st
           ∧ untouched_store st0 st)
    (execute_try sessionId userPrompt env)
    (λ a st,
       execute_error s0 env = None
       ∧ a = vid
       ∧ sess sessionId READY (Some vid) (Some vid) st
       ∧ ∃ fileSet,
           generate_outcome env = Return fileSet
           ∧ store_holds st0 (written (JsObject.entries fileSet) JsMap.empty) st
           ∧ committed st0 vid VersionStatus.VALID
                       (written (JsObject.entries fileSet) JsMap.empty) st)
    (λ e st,
       execute_error s0 env = Some e
       ∧ (∃ s, sess sessionId s cv0 lv0 st
               ∧ FAILED ∈ SessionManager.VALID_TRANSITIONS s)
       ∧ untouched_versions st0 st
       ∧ store_after_failure s0 env st0 st).
Proof.
  intros vid. unfold execute_try.
  (* the user's message *)
  apply triple_bind with
    (Q := λ _ st, sess sessionId s0 cv0 lv0 st ∧ untouched_versions st0 st
                  ∧ untouched_store st0 st).
  { apply triple_addMessage. intros st st' Hsm Hvm Hvfs Hheap (Hsess & Huv & Hus).
    split_and!; [by apply (sess_ext _ _ _ _ st)
                | by apply (untouched_versions_ext st0 st)
                | by apply (untouched_store_ext st0 st)]. }
  intros _.
  (* the move to GENERATING *)
  apply triple_bind with
    (Q := λ _ st, GENERATING ∈ SessionManager.VALID_TRANSITIONS s0
                  ∧ sess sessionId GENERATING cv0 lv0 st
                  ∧ untouched_versions st0 st ∧ untouched_store st0 st).
  { destruct (decide (GENERATING ∈ SessionManager.VALID_TRANSITIONS s0))
      as [Hallowed|Hnot].
    - eapply triple_conseq;
        [by apply (triple_transition sessionId GENERATING _ s0 cv0 lv0 st0)
        | done | by intros [] st ? | done].
    - intros st (Hsess & Huv & Hus).
      destruct (transitionState_run sessionId GENERATING
                  (js "Planning changes") _ _ _ st Hsess)
        as (Hvfs1 & Hvm1 & _ & Hheap1 & _ & _ & Hres).
      rewrite bool_decide_eq_false_2 in Hres by done.
      destruct Hres as [Hr Hsess1].
      destruct (transitionState sessionId GENERATING _ st) as [[[]|e] st1];
        cbn [fst snd] in *; [done|].
      injection Hr as ->. split_and!.
      + unfold execute_error. by rewrite bool_decide_eq_false_2.
      + exists s0. split; [done|]. by apply failed_allowed_unless_generating.
      + by apply (untouched_versions_ext st0 st).
      + apply untouched_store_after_failure; [by left|].
        by apply (untouched_store_ext st0 st). }
  intros _. apply triple_pure. intros Hallowed.
  (* the plan *)
  apply triple_bind with
    (Q := λ plan st, plan_outcome env = Return plan
                     ∧ sess sessionId GENERATING cv0 lv0 st
                     ∧ untouched_versions st0 st ∧ untouched_store st0 st).
  { apply triple_await_cases; [done|].
    intros e st Hplan (Hsess & Huv & Hus). split_and!.
    - unfold execute_error. by rewrite bool_decide_eq_true_2, Hplan.
    - exists GENERATING. split; [done | table].
    - done.
    - apply untouched_store_after_failure; [|done]. right. left. by exists e. }
  intros plan. apply triple_pure. intros Hplan.
  apply triple_bind with
    (Q := λ _ st, sess sessionId GENERATING cv0 lv0 st
                  ∧ untouched_versions st0 st ∧ untouched_store st0 st).
  { apply triple_addMessage. intros st st' Hsm Hvm Hvfs Hheap (Hsess & Huv & Hus).
    split_and!; [by apply (sess_ext _ _ _ _ st)
                | by apply (untouched_versions_ext st0 st)
                | by apply (untouched_store_ext st0 st)]. }
  intros _.
  (* the files *)
  apply triple_bind with
    (Q := λ fileSet st,
            generate_outcome env = Return fileSet
            ∧ sess sessionId GENERATING cv0 lv0 st
            ∧ untouched_versions st0 st ∧ untouched_store st0 st).
  { apply triple_await_cases; [done|].
    intros e st Hgen (Hsess & Huv & Hus). split_and!.
    - unfold execute_error. by rewrite bool_decide_eq_true_2, Hplan, Hgen.
    - exists GENERATING. split; [done | table].
    - done.
    - apply untouched_store_after_failure; [|done]. right. right. by exists e. }
  intros fileSet. apply triple_pure. intros Hgen.
  (* the move to BUILDING *)
  apply triple_bind with
    (Q := λ _ st, sess sessionId BUILDING cv0 lv0 st
                  ∧ untouched_versions st0 st ∧ untouched_store st0 st).
  { eapply triple_conseq;
      [apply (triple_transition sessionId BUILDING _ GENERATING cv0 lv0 st0);
         [table | done]
      | done | by intros [] st ? | done]. }
  intros _.
  (* the commit *)
  apply (commit_block _ st0 sessionId (JsObject.entries fileSet) env
           BUILDING cv0 lv0).
  - apply triple_pure. intros Hfirst.
    eapply triple_conseq;
      [apply (execute_tail st0 sessionId env
                (written (JsObject.entries fileSet) JsMap.empty) lv0)
      | done | | done].
    intros a st (-> & Hsess & Hstore & Hcommitted). split_and!; try done.
    + unfold execute_error.
      by rewrite bool_decide_eq_true_2, Hplan, Hgen, Hfirst.
    + by exists fileSet.
  - intros err st Hfirst Hsess Huv Hstore. split_and!.
    + unfold execute_error.
      by rewrite bool_decide_eq_true_2, Hplan, Hgen, Hfirst.
    + exists BUILDING. split; [done | table].
    + done.
    + unfold store_after_failure.
      by rewrite Hplan, Hgen, bool_decide_eq_true_2.
Qed.

(** The whole of [execute] on a live session: how it ends, and in which
    state. *)
Lemma execute_run sessionId userPrompt env st0 session :
  session_of sessionId st0 = Some session →
  expired (at_getSession env) session = false →
  let s0 := Session.state session in
  let cv0 := Session.currentVersion session in
  let lv0 := Session.lastValidVersion session in
  let vid := VersionManager.generateVersionId (idClock env) (rnd env) in
  match execute sessionId userPrompt env st0 with
  | (Return a, st) =>
    execute_error s0 env = None
    ∧ a = vid
    ∧ sess sessionId READY (Some vid) (Some vid) st
    ∧ ∃ fileSet,
        generate_outcome env = Return fileSet
        ∧ store_holds st0 (written (JsObject.entries fileSet) JsMap.empty) st
        ∧ committed st0 vid VersionStatus.VALID
                    (written (JsObject.entries fileSet) JsMap.empty) st
  | (Raise e, st) =>
    execute_error s0 env = Some e
    ∧ sess sessionId FAILED cv0 lv0 st
    ∧ untouched_versions st0 st
    ∧ store_after_failure s0 env st0 st
  end.
Proof.
  intros Hget Hlive s0 cv0 lv0 vid.
  unfold execute. unfold mbind at 1, M_bind at 1, bind at 1.
  rewrite (getSession_live sessionId (at_getSession env) session st0 Hget Hlive).
  set (st00 := mk _ _ _ _ _ _).
  assert (sess sessionId s0 cv0 lv0 st00 ∧ untouched_versions st0 st00
          ∧ untouched_store st0 st00) as Hstart.
  { split_and!; [by exists session | done | done]. }
  pose proof (execute_try_triple sessionId userPrompt env st0 s0 cv0 lv0 st00
                Hstart) as Hbody.
  cbn zeta in Hbody. fold vid in Hbody. unfold try_catch.
  destruct (execute_try sessionId userPrompt env st00) as [[a|e] st1]; [done|].
  destruct Hbody as (Herr & (s & Hsess & Hallowed) & [Hvm Hhv] & Hstore).
  destruct (on_error_run (A := VersionId) sessionId e s cv0 lv0 st1 Hsess Hallowed)
    as (Hr & Hsess' & Hvfs' & Hvm' & _ & Hheap' & _).
  destruct (on_error sessionId e st1) as [[a'|e'] st2]; cbn [fst snd] in *;
    [done|].
  injection Hr as ->. split_and!; [done | done | |].
  - split; congruence.
  - unfold store_after_failure in *.
    destruct (plan_outcome env); [|by apply (untouched_store_ext st0 st1)].
    destruct (generate_outcome env); [|by apply (untouched_store_ext st0 st1)].
    case_bool_decide; [by apply (store_holds_same st0 _ st1)
                      | by apply (untouched_store_ext st0 st1)].
Qed.

(** The end of [fixErrors], from the move to [BUILDING] on: the move to
    [READY] is refused. *)
Lemma fixErrors_tail st0 sessionId env m lv :
  let vid := VersionManager.generateVersionId (idClock env) (rnd env) in
  triple (λ st, sess sessionId FIXING (Some vid) lv st
                ∧ store_holds st0 m st
                ∧ committed st0 vid VersionStatus.BUILDING m st)
         (transitionState sessionId BUILDING (js "Rebuilding");;
          updateVersionStatus vid VersionStatus.VALID None
                              (at_updateVersionStatus env);;
          transitionState sessionId READY (js "Fix complete");;
          ret vid)
         (λ _ _, False)
         (λ e st, e = Raised (InvalidTransition BUILDING READY
                                (SessionManager.VALID_TRANSITIONS BUILDING))
                  ∧ sess sessionId BUILDING (Some vid) lv st
                  ∧ store_holds st0 m st
                  ∧ committed st0 vid VersionStatus.VALID m st).
Proof.
  intros vid st (Hsess & Hstore & Hcommitted).
  unfold mbind, M_bind, bind.
  destruct (transitionState_run sessionId BUILDING (js "Rebuilding")
              _ _ _ st Hsess) as (Hvfs1 & Hvm1 & _ & Hheap1 & _ & _ & Hres1).
  rewrite bool_decide_eq_true_2 in Hres1 by table.
  destruct Hres1 as [Hr1 Hsess1]. cbn [andb bool_decide] in Hsess1.
  destruct (transitionState sessionId BUILDING _ st) as [[[]|e1] st1];
    cbn [fst snd] in *; [|done].
  assert (committed st0 vid VersionStatus.BUILDING m st1) as Hcommitted1
    by (by apply (committed_same st0 vid _ m st)).
  destruct (updateVersionStatus_run st0 vid _ m (at_updateVersionStatus env)
              st1 Hcommitted1) as (Hr2 & Hsm2 & Hvfs2 & [v Hheap2] & Hcommitted2).
  destruct (updateVersionStatus vid _ _ _ st1) as [[[]|e2] st2];
    cbn [fst snd] in *; [|done].
  assert (sess sessionId BUILDING (Some vid) lv st2) as Hsess2
    by (by apply (sess_ext _ _ _ _ st1)).
  destruct (transitionState_run sessionId READY (js "Fix complete")
              _ _ _ st2 Hsess2) as (Hvfs3 & Hvm3 & _ & Hheap3 & _ & _ & Hres3).
  rewrite bool_decide_eq_false_2 in Hres3
    by (apply (bool_decide_unpack _); vm_compute; exact I).
  destruct Hres3 as [Hr3 Hsess3].
  destruct (transitionState sessionId READY _ st2) as [[[]|e3] st3];
    cbn [fst snd] in *; [done|].
  injection Hr3 as ->. split_and!; [done | done | |].
  - apply (store_holds_same st0 m st2); [done | done |].
    apply (store_holds_alloc_version st0 m v st1); [done | done |].
    by apply (store_holds_same st0 m st).
  - by apply (committed_same st0 vid _ m st2).
Qed.

(** The [try] block of [fixErrors] never returns. *)
Lemma fixErrors_try_triple sessionId currentVersion env st0 s0 lv0 :
  let vid := VersionManager.generateVersionId (idClock env) (rnd env) in
  let tracked :=
    bool_decide (is_Some (VersionManager.getVersion currentVersion
                            (versionManager st0, heap st0))) in
  triple
    (λ st, sess sessionId s0 (Some currentVersion) lv0 st
           ∧ untouched_versions st0 st ∧ untouched_store st0 st)
    (fixErrors_try sessionId currentVersion env)
    (λ _ _, False)
    (λ e st,
       e = fixErrors_error s0 tracked env
       ∧ ∃ s cv,
           sess sessionId s cv lv0 st
           ∧ FAILED ∈ SessionManager.VALID_TRANSITIONS s
           ∧ match fix_committed s0 tracked env with
             | Some fixedFiles =>
               cv = Some vid
               ∧ store_holds st0
                   (written (JsObject.entries fixedFiles) JsMap.empty) st
               ∧ committed st0 vid VersionStatus.VALID
                   (written (JsObject.entries fixedFiles) JsMap.empty) st
             | None => cv = Some currentVersion ∧ untouched_versions st0 st
             end).
Proof.
  intros vid tracked. unfold fixErrors_try.
  (* the move to FIXING *)
  apply triple_bind with
    (Q := λ _ st, FIXING ∈ SessionManager.VALID_TRANSITIONS s0
                  ∧ sess sessionId FIXING (Some currentVersion) lv0 st
                  ∧ untouched_versions st0 st ∧ untouched_store st0 st).
  { destruct (decide (FIXING ∈ SessionManager.VALID_TRANSITIONS s0))
      as [Hallowed|Hnot].
    - eapply triple_conseq;
        [by apply (triple_transition sessionId FIXING _ s0
                     (Some currentVersion) lv0 st0)
        | done | by intros [] st ? | done].
    - intros st (Hsess & Huv & Hus).
      destruct (transitionState_run sessionId FIXING
                  (js "Fixing errors") _ _ _ st Hsess)
        as (Hvfs1 & Hvm1 & _ & Hheap1 & _ & _ & Hres).
      rewrite bool_decide_eq_false_2 in Hres by done.
      destruct Hres as [Hr Hsess1].
      destruct (transitionState sessionId FIXING _ st) as [[[]|e] st1];
        cbn [fst snd] in *; [done|].
      injection Hr as ->. split.
      + unfold fixErrors_error. by rewrite bool_decide_eq_false_2.
      + exists s0, (Some currentVersion). split; [done|].
        split; [by apply failed_allowed_unless_fixing|].
        unfold fix_committed. rewrite bool_decide_eq_false_2 by done.
        cbn [andb]. split; [done|].
        by apply (untouched_versions_ext st0 st). }
  intros _. apply triple_pure. intros Hallowed.
  (* the current version *)
  apply triple_bind with
    (Q := λ version st,
            tracked = bool_decide (is_Some version)
            ∧ sess sessionId FIXING (Some currentVersion) lv0 st
            ∧ untouched_versions st0 st ∧ untouched_store st0 st).
  { intros st (Hsess & Huv & Hus). unfold getVersion.
    split; [|done]. unfold tracked.
    destruct Huv as [-> _]. by destruct Hus as [_ ->]. }
  intros version. apply triple_pure. intros Htracked.
  destruct version as [ref|]; cbn [bool_decide] in Htracked.
  2:{ intros st (Hsess & Huv & Hus). cbn beta iota. split.
      - unfold fixErrors_error. rewrite bool_decide_eq_true_2 by done.
        rewrite Htracked. by rewrite bool_decide_eq_false_2 by (by intros [? ?]).
      - exists FIXING, (Some currentVersion). split; [done|]. split; [table|].
        unfold fix_committed. rewrite Htracked.
        rewrite (bool_decide_eq_false_2 (is_Some None)) by (by intros [? ?]).
        by rewrite andb_false_r. }
  rewrite bool_decide_eq_true_2 in Htracked by (by eexists).
  (* the fixed files *)
  apply triple_bind with
    (Q := λ fixedFiles st,
            fix_outcome env = Return fixedFiles
            ∧ sess sessionId FIXING (Some currentVersion) lv0 st
            ∧ untouched_versions st0 st ∧ untouched_store st0 st).
  { apply triple_await_cases; [done|].
    intros e st Hfix (Hsess & Huv & Hus). split.
    - unfold fixErrors_error.
      by rewrite bool_decide_eq_true_2, Htracked, Hfix.
    - exists FIXING, (Some currentVersion). split; [done|]. split; [table|].
      unfold fix_committed.
      by rewrite bool_decide_eq_true_2, Htracked, Hfix. }
  intros fixedFiles. apply triple_pure. intros Hfix.
  (* the commit *)
  apply (commit_block _ st0 sessionId (JsObject.entries fixedFiles) env
           FIXING (Some currentVersion) lv0).
  - apply triple_pure. intros Hfirst.
    eapply triple_conseq;
      [apply (fixErrors_tail st0 sessionId env
                (written (JsObject.entries fixedFiles) JsMap.empty) lv0)
      | done | done |].
    intros e st (-> & Hsess & Hstore & Hcommitted). split.
    + unfold fixErrors_error.
      by rewrite bool_decide_eq_true_2, Htracked, Hfix, Hfirst.
    + exists BUILDING, (Some vid). split; [done|]. split; [table|].
      unfold fix_committed.
      by rewrite bool_decide_eq_true_2, Htracked, Hfix, Hfirst.
  - intros err st Hfirst Hsess Huv Hstore. split.
    + unfold fixErrors_error.
      by rewrite bool_decide_eq_true_2, Htracked, Hfix, Hfirst.
    + exists FIXING, (Some currentVersion). split; [done|]. split; [table|].
      unfold fix_committed.
      by rewrite bool_decide_eq_true_2, Htracked, Hfix, Hfirst.
Qed.

Lemma get_written entries m path :
  JsMap.get path (written entries m)
  = match last (List.filter
                  (λ e, bool_decide (VFS.normalizePath e.1 = path)) entries) with
    | Some e => Some e.2
    | None => JsMap.get path m
    end.
Proof.
  revert m. induction entries as [|e entries IH]; intros m; [done|].
  cbn [written fold_left List.filter]. fold (written entries).
  rewrite IH. case_bool_decide as Hpath.
  - rewrite last_cons.
    destruct (last (List.filter _ entries)); [done|].
    by rewrite <-Hpath, JsMapFacts.get_set_eq.
  - destruct (last (List.filter _ entries)); [done|].
    by rewrite JsMapFacts.get_set_ne.
Qed.

Lemma restore_without_snapshots id (vst : VFS.state) :
  VFS.snapshots vst.1 = JsMap.empty →
  VFS.restore id vst = (Throw (SnapshotNotFound id), vst).
Proof. unfold VFS.restore. by intros ->. Qed.

(** X22. For a live session, [execute] either returns the id of a new
    version, and then the session is [READY] with that id as its current and
    last valid version and the version is tracked as [VALID]; or it throws,
    and then the session is [FAILED], its version pointers are what they
    were and no version was created. The first step that throws decides: the
    move to [GENERATING], refused unless the session is [CREATED], [READY]
    or [FAILED]; the plan; the generation; the first file the store rejects.
    This is for a run that nothing interleaves with. *)
Theorem execute_ends_ready_or_failed (sessionId userPrompt : jsstring)
    (env : Env) (st : t) (session : Session.t) :
  session_of sessionId st = Some session →
  expired (at_getSession env) session = false →
  let r := execute sessionId userPrompt env st in
  let vid := VersionManager.generateVersionId (idClock env) (rnd env) in
  match r.1 with
  | Return a =>
    execute_error (Session.state session) env = None
    ∧ a = vid
    ∧ sess sessionId READY (Some vid) (Some vid) r.2
    ∧ ∃ ref,
        VersionManager.getVersion vid (versionManager r.2, heap r.2) = Some ref
        ∧ Version.status (Heap.read_version ref (heap r.2))
          = VersionStatus.VALID
  | Raise e =>
    execute_error (Session.state session) env = Some e
    ∧ sess sessionId FAILED (Session.currentVersion session)
           (Session.lastValidVersion session) r.2
    ∧ versionManager r.2 = versionManager st
    ∧ Heap.versions (heap r.2) = Heap.versions (heap st)
  end.
Proof.
  intros Hget Hlive r vid.
  pose proof (execute_run sessionId userPrompt env st session Hget Hlive) as Hrun.
  cbn zeta in Hrun. fold r vid in Hrun.
  destruct r as [[a|e] st']; cbn [fst snd].
  - destruct Hrun as (Herr & -> & Hsess & fileSet & _ & _ & Hcommitted).
    destruct Hcommitted as (ref & Href & _ & Hstatus & _).
    split_and!; try done. by exists ref.
  - by destruct Hrun as (Herr & Hsess & [Hvm Hhv] & _).
Qed.

Lemma execute_ends_ready_or_failed_witness :
  let r := execute Scenario.demo_id (js "make a page")
             (PipelineScenario.env PipelineScenario.generated)
             PipelineScenario.start in
  r.1 = Return (js "v1700000000103-r4nd0m")
  ∧ state_of Scenario.demo_id r.2 = Some READY.
Proof.
  intros r.
  pose proof (execute_ends_ready_or_failed Scenario.demo_id (js "make a page")
                (PipelineScenario.env PipelineScenario.generated)
                PipelineScenario.start Scenario.demo_created.1
                eq_refl eq_refl) as H.
  cbn zeta in H. fold r in H. destruct r as [[a|e] st']; cbn [fst snd] in *.
  - destruct H as (_ & -> & (session & Hs & Hstate & _) & _).
    split; [reflexivity|]. unfold state_of. by rewrite Hs, <-Hstate.
  - destruct H as [Herr _]. vm_compute in Herr. discriminate.
Defined.

(** X23. When no step throws, [execute] leaves in the store exactly the
    generated files, under their normalised paths, a later entry for the
    same file replacing an earlier one: whatever the store held before is
    gone, and so is every snapshot it retained (a [restore] of any id
    throws). The version it returns holds the same mapping. *)
Theorem execute_commits_the_generated_files (sessionId userPrompt : jsstring)
    (env : Env) (st : t) (session : Session.t) (fileSet : FileSet) :
  session_of sessionId st = Some session →
  expired (at_getSession env) session = false →
  VFS.inv (vfs st, heap st) →
  generate_outcome env = Return fileSet →
  execute_error (Session.state session) env = None →
  let r := execute sessionId userPrompt env st in
  let vid := VersionManager.generateVersionId (idClock env) (rnd env) in
  let store := (vfs r.2, heap r.2) in
  r.1 = Return vid
  ∧ VFS.inv store
  ∧ (∀ path,
       VFS.read path store
       = match last (List.filter
                       (λ e, bool_decide (VFS.normalizePath e.1
                                          = VFS.normalizePath path))
                       (JsObject.entries fileSet)) with
         | Some e => Ok e.2
         | None => Throw (FileNotFound (VFS.normalizePath path))
         end)
  ∧ (∀ id, VFS.restore id store = (Throw (SnapshotNotFound id), store))
  ∧ ∃ ref,
      VersionManager.getVersion vid (versionManager r.2, heap r.2) = Some ref
      ∧ Heap.read_map (Version.files (Heap.read_version ref (heap r.2)))
                      (heap r.2)
        = VFS.working store.
Proof.
  intros Hget Hlive Hinv Hgen Herr r vid store.
  pose proof (execute_run sessionId userPrompt env st session Hget Hlive) as Hrun.
  cbn zeta in Hrun. fold r vid in Hrun. unfold store.
  destruct r as [[a|e] st']; cbn [fst snd];
    [|destruct Hrun as [Herr' _]; congruence].
  destruct Hrun as (_ & -> & _ & fileSet' & Hgen' & [Hsn Hstore] & Hcommitted).
  assert (fileSet' = fileSet) as -> by congruence.
  destruct (Hstore Hinv) as [Hinv' Hworking].
  destruct Hcommitted as (ref & Href & _ & _ & Hfiles).
  split_and!; [done | done | | |].
  - intros path. unfold VFS.read. rewrite Hworking, get_written.
    by destruct (last _).
  - intros id. by apply restore_without_snapshots.
  - exists ref. split; [done|]. by rewrite Hworking, (Hfiles Hinv).
Qed.

Lemma inv_scenario_start :
  VFS.inv (vfs PipelineScenario.start, heap PipelineScenario.start).
Proof.
  apply (VFSFacts.inv_snapshot 1700000000000 (js "k3x9q")),
        VFSTheorems.inv_scenario_before.
Qed.

Lemma execute_commits_the_generated_files_witness :
  let r := execute Scenario.demo_id (js "make a page")
             (PipelineScenario.env PipelineScenario.generated)
             PipelineScenario.start in
  VFS.read (js "/src/app.ts") (vfs r.2, heap r.2) = Ok (js "export {}")
  ∧ VFS.read (js "a.ts") (vfs r.2, heap r.2) = Throw (FileNotFound (js "a.ts"))
  ∧ (VFS.restore (js "v1700000000000-k3x9q") (vfs r.2, heap r.2)).1
    = Throw (SnapshotNotFound (js "v1700000000000-k3x9q")).
Proof.
  intros r.
  destruct (execute_commits_the_generated_files Scenario.demo_id
              (js "make a page")
              (PipelineScenario.env PipelineScenario.generated)
              PipelineScenario.start Scenario.demo_created.1
              PipelineScenario.generated eq_refl eq_refl inv_scenario_start
              eq_refl)
    as (_ & _ & Hread & Hrestore & _); [vm_compute; reflexivity|].
  fold r in Hread, Hrestore. split_and!.
  - rewrite Hread. vm_compute. reflexivity.
  - rewrite Hread. vm_compute. reflexivity.
  - by rewrite Hrestore.
Defined.

(** X24. The commit is not atomic: when the store rejects a generated file,
    [execute] throws the store's error after the store was cleared and the
    files listed before the rejected one were written. The earlier contents
    and every snapshot are lost, no version is created and the session is
    [FAILED]. *)
Theorem rejected_file_leaves_a_partial_store (sessionId userPrompt : jsstring)
    (env : Env) (st : t) (session : Session.t) (plan : Plan)
    (fileSet : FileSet) (err : Error) :
  session_of sessionId st = Some session →
  expired (at_getSession env) session = false →
  VFS.inv (vfs st, heap st) →
  GENERATING ∈ SessionManager.VALID_TRANSITIONS (Session.state session) →
  plan_outcome env = Return plan →
  generate_outcome env = Return fileSet →
  first_rejection (JsObject.entries fileSet) = Some err →
  let r := execute sessionId userPrompt env st in
  let store := (vfs r.2, heap r.2) in
  r.1 = Raise (Raised err)
  ∧ VFS.working store
    = written (accepted_prefix (JsObject.entries fileSet)) JsMap.empty
  ∧ (∀ id, VFS.restore id store = (Throw (SnapshotNotFound id), store))
  ∧ state_of sessionId r.2 = Some FAILED
  ∧ versionManager r.2 = versionManager st.
Proof.
  intros Hget Hlive Hinv Hallowed Hplan Hgen Hfirst r store.
  pose proof (execute_run sessionId userPrompt env st session Hget Hlive) as Hrun.
  cbn zeta in Hrun. fold r in Hrun. unfold store.
  assert (execute_error (Session.state session) env = Some (Raised err)) as Herr.
  { unfold execute_error.
    by rewrite bool_decide_eq_true_2, Hplan, Hgen, Hfirst. }
  destruct r as [[a|e] st']; cbn [fst snd];
    [destruct Hrun as [Herr' _]; congruence|].
  destruct Hrun as (Herr' & (session' & Hs & Hstate & _) & [Hvm _] & Hstore).
  unfold store_after_failure in Hstore.
  rewrite Hplan, Hgen, bool_decide_eq_true_2 in Hstore by done.
  destruct Hstore as [Hsn Hstore]. destruct (Hstore Hinv) as [_ Hworking].
  split_and!; [congruence | done | | | done].
  - intros id. by apply restore_without_snapshots.
  - unfold state_of. by rewrite Hs, <-Hstate.
Qed.

Lemma rejected_file_leaves_a_partial_store_witness :
  let r := execute Scenario.demo_id (js "make a page")
             (PipelineScenario.env PipelineScenario.rejected)
             PipelineScenario.start in
  r.1 = Raise (Raised PathTraversal)
  ∧ VFS.working (vfs r.2, heap r.2) = [(js "a.ts", js "1")].
Proof.
  intros r.
  destruct (rejected_file_leaves_a_partial_store Scenario.demo_id
              (js "make a page")
              (PipelineScenario.env PipelineScenario.rejected)
              PipelineScenario.start Scenario.demo_created.1
              PipelineScenario.plan PipelineScenario.rejected PathTraversal
              eq_refl eq_refl inv_scenario_start)
    as (Hr & Hw & _);
    [apply (bool_decide_unpack _); vm_compute; exact I
    | reflexivity | reflexivity | vm_compute; reflexivity |].
  fold r in Hr, Hw. split; [exact Hr|]. rewrite Hw. vm_compute. reflexivity.
Defined.

(** X25. [execute] on an id without live session throws [Session not found]
    before anything else is done: no message is recorded, no transition
    attempted. For an unknown id nothing changes at all; for an expired
    session the lookup removes the session and its lock. *)
Theorem execute_needs_a_live_session (sessionId userPrompt : jsstring)
    (env : Env) (st : t) :
  let r := execute sessionId userPrompt env st in
  (session_of sessionId st = None →
   r = (Raise (Raised (SessionNotFound sessionId)), st))
  ∧ ∀ session,
      session_of sessionId st = Some session →
      expired (at_getSession env) session = true →
      r.1 = Raise (Raised (SessionNotFound sessionId))
      ∧ sessionManager r.2
        = SessionManager.deleteSession sessionId (sessionManager st)
      ∧ vfs r.2 = vfs st ∧ versionManager r.2 = versionManager st
      ∧ contextManager r.2 = contextManager st ∧ heap r.2 = heap st
      ∧ console r.2 = console st.
Proof.
  intros r. unfold r, execute, mbind, M_bind, bind, getSession,
    SessionManager.getSession, session_of, expired.
  split.
  - intros ->. by destruct st.
  - intros session -> ->. done.
Qed.

Lemma execute_needs_a_live_session_witness :
  (execute Scenario.demo_id (js "too late")
     (mkEnv 1700086400001 0 (Return PipelineScenario.plan) 0
            (Return PipelineScenario.generated)
            (Return PipelineScenario.generated) 0 [] 0 0 0)
     PipelineScenario.start).1
  = Raise (Raised (SessionNotFound Scenario.demo_id)).
Proof.
  destruct (execute_needs_a_live_session Scenario.demo_id (js "too late")
              (mkEnv 1700086400001 0 (Return PipelineScenario.plan) 0
                     (Return PipelineScenario.generated)
                     (Return PipelineScenario.generated) 0 [] 0 0 0)
              PipelineScenario.start) as [_ H].
  by destruct (H Scenario.demo_created.1 eq_refl eq_refl) as [Hr _].
Defined.

Lemma fixErrors_live sessionId env st session currentVersion :
  session_of sessionId st = Some session →
  expired (at_getSession env) session = false →
  Session.currentVersion session = Some currentVersion →
  JsString.truthy currentVersion = true →
  fixErrors sessionId env st
  = try_catch (fixErrors_try sessionId currentVersion env) (on_error sessionId)
      (mk (vfs st) (versionManager st) (sessionManager st) (contextManager st)
          (heap st) (console st)).
Proof.
  intros Hget Hlive Hcv Htruthy.
  unfold fixErrors. unfold mbind at 1, M_bind at 1, bind at 1.
  rewrite (getSession_live sessionId (at_getSession env) session st Hget Hlive).
  by rewrite Hcv, Htruthy.
Qed.

(** The whole of [fixErrors] on a live session with a current version. *)
Lemma fixErrors_run sessionId env st0 session currentVersion :
  session_of sessionId st0 = Some session →
  expired (at_getSession env) session = false →
  Session.currentVersion session = Some currentVersion →
  JsString.truthy currentVersion = true →
  let s0 := Session.state session in
  let lv0 := Session.lastValidVersion session in
  let vid := VersionManager.generateVersionId (idClock env) (rnd env) in
  let tracked :=
    bool_decide (is_Some (VersionManager.getVersion currentVersion
                            (versionManager st0, heap st0))) in
  let r := fixErrors sessionId env st0 in
  r.1 = Raise (fixErrors_error s0 tracked env)
  ∧ ∃ cv,
      sess sessionId FAILED cv lv0 r.2
      ∧ match fix_committed s0 tracked env with
        | Some fixedFiles =>
          cv = Some vid
          ∧ store_holds st0
              (written (JsObject.entries fixedFiles) JsMap.empty) r.2
          ∧ committed st0 vid VersionStatus.VALID
              (written (JsObject.entries fixedFiles) JsMap.empty) r.2
        | None => cv = Some currentVersion ∧ untouched_versions st0 r.2
        end.
Proof.
  intros Hget Hlive Hcv Htruthy s0 lv0 vid tracked r.
  unfold r.
  rewrite (fixErrors_live sessionId env st0 session currentVersion Hget Hlive
             Hcv Htruthy).
  set (st00 := mk _ _ _ _ _ _).
  assert (sess sessionId s0 (Some currentVersion) lv0 st00
          ∧ untouched_versions st0 st00 ∧ untouched_store st0 st00) as Hstart.
  { split_and!; [by exists session | done | done]. }
  pose proof (fixErrors_try_triple sessionId currentVersion env st0 s0 lv0 st00
                Hstart) as Hbody.
  cbn zeta in Hbody. fold vid tracked in Hbody. unfold try_catch.
  destruct (fixErrors_try sessionId currentVersion env st00) as [[a|e] st1];
    [done|].
  destruct Hbody as (-> & s & cv & Hsess & Hallowed & Hrest).
  destruct (on_error_run (A := VersionId) sessionId
              (fixErrors_error s0 tracked env) s cv lv0 st1 Hsess Hallowed)
    as (Hr & Hsess' & Hvfs' & Hvm' & _ & Hheap' & _).
  destruct (on_error sessionId _ st1) as [[a'|e'] st2]; cbn [fst snd] in *;
    [done|].
  split; [done|]. exists cv. split; [done|].
  destruct (fix_committed s0 tracked env) as [fixedFiles|].
  - destruct Hrest as (-> & Hstore & Hcommitted). split_and!; [done | |].
    + by apply (store_holds_same st0 _ st1).
    + by apply (committed_same st0 vid _ _ st1).
  - destruct Hrest as [-> Huv]. split; [done|].
    by apply (untouched_versions_ext st0 st1).
Qed.

(** X26. [fixErrors] never returns: whatever the state and whatever the
    gateway answers, it throws. On a live session with a current version the
    session ends [FAILED] with its last valid version unchanged; and when
    every step works (the session was [READY] or [FAILED], its current
    version is tracked, the gateway answered, the store accepted the files)
    a new version is created, marked [VALID] and made the session's current
    version, and then the move from [BUILDING] to [READY] is refused. This
    is for a run that nothing interleaves with. *)
Theorem fixErrors_never_returns (sessionId : jsstring) (env : Env) (st : t) :
  let r := fixErrors sessionId env st in
  let vid := VersionManager.generateVersionId (idClock env) (rnd env) in
  (∃ e, r.1 = Raise e)
  ∧ ∀ session currentVersion,
      session_of sessionId st = Some session →
      expired (at_getSession env) session = false →
      Session.currentVersion session = Some currentVersion →
      currentVersion ≠ [] →
      let tracked :=
        bool_decide (is_Some (VersionManager.getVersion currentVersion
                                (versionManager st, heap st))) in
      r.1 = Raise (fixErrors_error (Session.state session) tracked env)
      ∧ ∃ cv,
          sess sessionId FAILED cv (Session.lastValidVersion session) r.2
          ∧ match fix_committed (Session.state session) tracked env with
            | Some _ =>
              cv = Some vid
              ∧ fixErrors_error (Session.state session) tracked env
                = Raised (InvalidTransition BUILDING READY [VALIDATING; FAILED])
              ∧ ∃ ref,
                  VersionManager.getVersion vid (versionManager r.2, heap r.2)
                  = Some ref
                  ∧ Version.status (Heap.read_version ref (heap r.2))
                    = VersionStatus.VALID
            | None =>
              cv = Some currentVersion
              ∧ versionManager r.2 = versionManager st
            end.
Proof.
  intros r vid.
  assert (∀ session currentVersion,
            session_of sessionId st = Some session →
            expired (at_getSession env) session = false →
            Session.currentVersion session = Some currentVersion →
            currentVersion ≠ [] →
            let tracked :=
              bool_decide (is_Some (VersionManager.getVersion currentVersion
                                      (versionManager st, heap st))) in
            r.1 = Raise (fixErrors_error (Session.state session) tracked env)
            ∧ ∃ cv,
                sess sessionId FAILED cv (Session.lastValidVersion session) r.2
                ∧ match fix_committed (Session.state session) tracked env with
                  | Some _ =>
                    cv = Some vid
                    ∧ fixErrors_error (Session.state session) tracked env
                      = Raised (InvalidTransition BUILDING READY
                                  [VALIDATING; FAILED])
                    ∧ ∃ ref,
                        VersionManager.getVersion vid
                          (versionManager r.2, heap r.2) = Some ref
                        ∧ Version.status (Heap.read_version ref (heap r.2))
                          = VersionStatus.VALID
                  | None =>
                    cv = Some currentVersion
                    ∧ versionManager r.2 = versionManager st
                  end) as Hlive.
  { intros session currentVersion Hget Hlive Hcv Hne tracked.
    assert (JsString.truthy currentVersion = true) as Htruthy
      by (by destruct currentVersion).
    destruct (fixErrors_run sessionId env st session currentVersion Hget Hlive
                Hcv Htruthy) as (Hr & cv & Hsess & Hrest).
    fold r tracked in Hr, Hsess, Hrest. split; [done|]. exists cv.
    split; [done|].
    destruct (fix_committed (Session.state session) tracked env)
      as [fixedFiles|] eqn:Hfc.
    - destruct Hrest as (-> & _ & (ref & Href & _ & Hstatus & _)).
      split; [done|]. split; [|by exists ref].
      unfold fix_committed in Hfc. unfold fixErrors_error.
      case_bool_decide; [|done]. destruct tracked; [|done]. cbn [andb] in Hfc.
      destruct (fix_outcome env) as [fs|]; [|done].
      by destruct (first_rejection (JsObject.entries fs)).
    - by destruct Hrest as (-> & [? _]). }
  split; [|done].
  destruct (session_of sessionId st) as [session|] eqn:Hget.
  2:{ unfold r, fixErrors, mbind, M_bind, bind, getSession,
        SessionManager.getSession.
      unfold session_of in Hget. rewrite Hget. by eexists. }
  destruct (expired (at_getSession env) session) eqn:Hexp.
  { unfold r, fixErrors, mbind, M_bind, bind, getSession,
      SessionManager.getSession.
    unfold session_of in Hget. unfold expired in Hexp. rewrite Hget, Hexp.
    by eexists. }
  destruct (Session.currentVersion session) as [currentVersion|] eqn:Hcv.
  2:{ unfold r, fixErrors. unfold mbind at 1, M_bind at 1, bind at 1.
      rewrite (getSession_live sessionId (at_getSession env) session st Hget
                 Hexp), Hcv.
      by eexists. }
  destruct currentVersion as [|c v].
  { unfold r, fixErrors. unfold mbind at 1, M_bind at 1, bind at 1.
    rewrite (getSession_live sessionId (at_getSession env) session st Hget
               Hexp), Hcv.
    by eexists. }
  destruct (Hlive session (c :: v) eq_refl Hexp Hcv) as [Hr _]; [done|].
  by eexists.
Qed.

Lemma fixErrors_never_returns_witness :
  let r := fixErrors Scenario.demo_id
             (PipelineScenario.later PipelineScenario.generated)
             PipelineScenario.after_first_run in
  r.1 = Raise (Raised (InvalidTransition BUILDING READY [VALIDATING; FAILED]))
  ∧ ∃ cv, sess Scenario.demo_id FAILED cv (Some (js "v1700000000103-r4nd0m")) r.2.
Proof.
  intros r.
  destruct (fixErrors_never_returns Scenario.demo_id
              (PipelineScenario.later PipelineScenario.generated)
              PipelineScenario.after_first_run) as [_ H].
  destruct (H (default Scenario.demo_created.1
                 (session_of Scenario.demo_id PipelineScenario.after_first_run))
              (js "v1700000000103-r4nd0m"))
    as (Hr & cv & Hsess & _);
    [vm_compute; reflexivity | vm_compute; reflexivity
    | vm_compute; reflexivity | discriminate |].
  fold r in Hr, Hsess. split; [|by exists cv].
  rewrite Hr. vm_compute. reflexivity.
Defined.

End PipelineLaws.

(** ** Laws of the routes and of the conversation history *)
Module RouteLaws.

Import SessionState Orchestrator Pipeline Lifecycle SessionRoutes.

Lemma isLocked_unlock id sm :
  SessionManager.isLocked id (SessionManager.unlockSession id sm) = false
  ∧ JsMap.get id (SessionManager.sessionLocks
                    (SessionManager.unlockSession id sm)) = Some false.
Proof.
  unfold SessionManager.isLocked, SessionManager.unlockSession.
  cbn [SessionManager.sessionLocks]. by rewrite JsMapFacts.get_set_eq.
Qed.

(** X27. The prompt route takes the lock only to run the pipeline and
    gives it back whatever the pipeline does: after an answer 200, or an
    answer 500 given by its own [catch], the session is unlocked (the lock
    entry is there and false, even if the session itself is gone by then).
    A request without body makes the handler throw before it looks
    anything up: the server's error handler answers 500 and nothing is
    changed, the lock included. An answer 409 means the lock was taken, and
    then nothing was changed but what the lookup does; an answer 400
    changes nothing at all. The state reported with a 200 is always
    [READY]. *)
Theorem promptRoute_gives_the_lock_back (id : jsstring) (body : Body)
    (at_route at_reply : Z) (env : Env) (st : t) :
  let r := promptRoute id body at_route at_reply env st in
  let found := SessionManager.getSession id at_route (sessionManager st) in
  (body = None → r = (Unhandled, st))
  ∧ match r.1 with
    | Processed versionId state =>
      state = READY
      ∧ versionId = VersionManager.generateVersionId (idClock env) (rnd env)
      ∧ JsMap.get id (SessionManager.sessionLocks (sessionManager r.2))
        = Some false
    | ServerError _ =>
      JsMap.get id (SessionManager.sessionLocks (sessionManager r.2))
      = Some false
    | Unhandled => body = None ∧ r.2 = st
    | Conflict =>
      SessionManager.isLocked id (sessionManager st) = true
      ∧ is_Some found.1
      ∧ r.2 = with_sessions found.2 st
    | NotFound => found.1 = None ∧ r.2 = with_sessions found.2 st
    | BadRequest => r.2 = st
    | NoContent => False
    end.
Proof.
  intros r found. split; [by intros ->|]. unfold r, promptRoute.
  destruct body as [[prompt|]|]; [|done|done].
  destruct (blank prompt); [done|]. cbn zeta. fold found.
  destruct found.1 as [session|] eqn:Hfound; [|done].
  destruct (SessionManager.isLocked id (sessionManager (with_sessions found.2 st)))
    eqn:Hlocked.
  { cbn [fst snd]. split_and!; [|done|done].
    cbn [with_sessions sessionManager] in Hlocked.
    unfold found, SessionManager.getSession in *.
    destruct (JsMap.get id (SessionManager.sessions (sessionManager st)));
      [|done].
    by destruct (JsDate.lt _ _). }
  set (st2 := with_sessions (SessionManager.lockSession id _).2 _).
  (* the session is live when the pipeline looks it up *)
  destruct (execute id prompt env st2) as [[versionId|error] st3] eqn:Hrun;
    cbn [fst snd with_sessions sessionManager].
  2:{ apply isLocked_unlock. }
  split_and!; [| |apply isLocked_unlock].
  - unfold SessionManager.getSession.
    destruct (JsMap.get id (SessionManager.sessions (sessionManager st3)))
      as [session'|] eqn:Hget; [|done].
    destruct (JsDate.lt _ _); [done|]. cbn [fst].
    (* a returned run leaves the session READY *)
    destruct (session_of id st2) as [session2|] eqn:Hget2.
    2:{ unfold execute, mbind, M_bind, bind, getSession,
          SessionManager.getSession in Hrun.
        unfold session_of in Hget2. by rewrite Hget2 in Hrun. }
    destruct (expired (at_getSession env) session2) eqn:Hexp.
    { unfold execute, mbind, M_bind, bind, getSession,
        SessionManager.getSession in Hrun.
      unfold session_of in Hget2. unfold expired in Hexp.
      by rewrite Hget2, Hexp in Hrun. }
    pose proof (PipelineLaws.execute_run id prompt env st2 session2 Hget2 Hexp)
      as Hspec.
    cbn zeta in Hspec. rewrite Hrun in Hspec.
    destruct Hspec as (_ & _ & (s & Hs & Hstate & _) & _).
    unfold session_of in Hs. congruence.
  - destruct (session_of id st2) as [session2|] eqn:Hget2.
    2:{ unfold execute, mbind, M_bind, bind, getSession,
          SessionManager.getSession in Hrun.
        unfold session_of in Hget2. by rewrite Hget2 in Hrun. }
    destruct (expired (at_getSession env) session2) eqn:Hexp.
    { unfold execute, mbind, M_bind, bind, getSession,
        SessionManager.getSession in Hrun.
      unfold session_of in Hget2. unfold expired in Hexp.
      by rewrite Hget2, Hexp in Hrun. }
    pose proof (PipelineLaws.execute_run id prompt env st2 session2 Hget2 Hexp)
      as Hspec.
    cbn zeta in Hspec. rewrite Hrun in Hspec.
    by destruct Hspec as (_ & -> & _).
Qed.

Lemma promptRoute_gives_the_lock_back_witness :
  promptRoute Scenario.demo_id None 1700000000301 1700000000302
    (PipelineScenario.later PipelineScenario.generated)
    PipelineScenario.after_first_run
  = (Unhandled, PipelineScenario.after_first_run)
  ∧ status Unhandled = 500.
Proof.
  destruct (promptRoute_gives_the_lock_back Scenario.demo_id None
              1700000000301%Z 1700000000302%Z
              (PipelineScenario.later PipelineScenario.generated)
              PipelineScenario.after_first_run) as [Hnone _].
  split; [by apply Hnone | reflexivity].
Defined.

(** X28. The delete route answers 204 exactly when the session is live, and
    then the session and its lock are removed; otherwise it answers 404.
    Either way the id has no session afterwards, so a prompt request sent
    to it next never runs the pipeline: it is answered 404 (400 if the
    prompt is blank or missing, 500 by the server's error handler if the
    request has no body) and changes nothing. *)
Theorem deleteRoute_ends_the_session (id : jsstring) (now : Z) (st : t) :
  let r := deleteRoute id now st in
  let found := SessionManager.getSession id now (sessionManager st) in
  r.1 = (if bool_decide (is_Some found.1) then NoContent else NotFound)
  ∧ session_of id r.2 = None
  ∧ (is_Some found.1 →
     JsMap.get id (SessionManager.sessionLocks (sessionManager r.2)) = None)
  ∧ ∀ body at_route at_reply env,
      let next := promptRoute id body at_route at_reply env r.2 in
      next.2 = r.2
      ∧ next.1 = match body with
                 | None => Unhandled
                 | Some None => BadRequest
                 | Some (Some prompt) =>
                   if blank prompt then BadRequest else NotFound
                 end.
Proof.
  intros r found.
  assert (session_of id r.2 = None) as Hgone.
  { unfold r, deleteRoute, session_of. fold found.
    unfold found, SessionManager.getSession.
    destruct (JsMap.get id (SessionManager.sessions (sessionManager st)))
      as [session|] eqn:Hget; [|done].
    destruct (JsDate.lt _ _);
      cbn [fst snd with_sessions sessionManager SessionManager.deleteSession
           SessionManager.sessions].
    - apply JsMapFacts.get_delete_eq.
    - apply JsMapFacts.get_delete_eq. }
  split_and!; [ | done | |].
  - unfold r, deleteRoute. fold found. by destruct found.1.
  - intros [session Hfound]. unfold r, deleteRoute. fold found. rewrite Hfound.
    cbn [fst snd with_sessions sessionManager SessionManager.deleteSession
         SessionManager.sessionLocks].
    apply JsMapFacts.get_delete_eq.
  - intros body at_route at_reply env next. unfold next, promptRoute.
    destruct body as [[prompt|]|]; [|done|done].
    destruct (blank prompt); [done|].
    assert (SessionManager.getSession id at_route (sessionManager r.2)
            = (None, sessionManager r.2)) as Hlook.
    { unfold SessionManager.getSession. unfold session_of in Hgone.
      by rewrite Hgone. }
    cbn zeta. rewrite Hlook. cbn [fst snd]. split; [|done].
    unfold r, deleteRoute. cbn zeta.
    by destruct (SessionManager.getSession id now (sessionManager st)).1.
Qed.

Lemma deleteRoute_ends_the_session_witness :
  let r := deleteRoute Scenario.demo_id 1700000000300
             PipelineScenario.after_first_run in
  r.1 = NoContent
  ∧ (promptRoute Scenario.demo_id (Some (Some (js "more"))) 1700000000301
       1700000000302 (PipelineScenario.later PipelineScenario.generated) r.2).1
    = NotFound.
Proof.
  intros r.
  destruct (deleteRoute_ends_the_session Scenario.demo_id 1700000000300%Z
              PipelineScenario.after_first_run) as (Hr & _ & _ & Hnext).
  fold r in Hr, Hnext. split.
  - rewrite Hr. vm_compute. reflexivity.
  - destruct (Hnext (Some (Some (js "more"))) 1700000000301%Z 1700000000302%Z
                (PipelineScenario.later PipelineScenario.generated))
      as [_ Hreply].
    rewrite Hreply. vm_compute. reflexivity.
Defined.

Lemma take_snoc_drop {A} (l : list A) (x : A) :
  ContextManager.slice_last ContextManager.maxHistoryLength (l ++ [x])
  = let history :=
      ContextManager.slice_last ContextManager.maxHistoryLength l ++ [x] in
    if (ContextManager.maxHistoryLength <? length history)%nat
    then tail history else history.
Proof.
  unfold ContextManager.slice_last, ContextManager.maxHistoryLength.
  cbn zeta. rewrite !length_app, length_drop. cbn [length].
  destruct (decide (length l < 5)) as [Hshort|Hlong].
  - rewrite (proj2 (Nat.ltb_ge _ _)) by lia.
    replace (length l + 1 - 5) with 0 by lia.
    replace (length l - 5) with 0 by lia. done.
  - rewrite (proj2 (Nat.ltb_lt _ _)) by lia.
    replace (length l + 1 - 5) with (S (length l - 5)) by lia.
    rewrite drop_app_le by lia.
    destruct (drop (length l - 5) l) as [|y rest] eqn:Hdrop.
    + assert (length (drop (length l - 5) l) = 0) as Hlen by (by rewrite Hdrop).
      rewrite length_drop in Hlen. lia.
    + cbn [app tail]. f_equal.
      replace (S (length l - 5)) with (length l - 5 + 1) by lia.
      by rewrite <-drop_drop, Hdrop.
Qed.

(** X29. The history of a session is the last five messages added for it, in
    the order they were added, whatever was added for other sessions in
    between. *)
Theorem history_keeps_the_last_five (calls : list ContextManager.Added)
    (sessionId : jsstring) :
  ContextManager.getConversationHistory sessionId
    (fold_left ContextManager.add calls ContextManager.new)
  = ContextManager.slice_last ContextManager.maxHistoryLength
      (List.map ContextManager.message_of
         (List.filter (λ a, bool_decide (ContextManager.a_session a = sessionId))
                      calls)).
Proof.
  induction calls as [|a calls IH] using rev_ind; [done|].
  rewrite fold_left_app. cbn [fold_left].
  rewrite List.filter_app, List.map_app. cbn [List.filter List.map].
  set (cm := fold_left ContextManager.add calls ContextManager.new) in *.
  unfold ContextManager.getConversationHistory in *.
  unfold ContextManager.add at 1, ContextManager.addMessage.
  cbn [ContextManager.conversationHistory].
  case_bool_decide as Hsame.
  - subst sessionId. cbn [List.map app].
    rewrite JsMapFacts.get_set_eq. cbn [default].
    rewrite take_snoc_drop. cbn zeta. rewrite <-IH. clear IH.
    assert (default [] (JsMap.get (ContextManager.a_session a)
              (if JsMap.has (ContextManager.a_session a)
                    (ContextManager.conversationHistory cm)
               then ContextManager.conversationHistory cm
               else JsMap.set (ContextManager.a_session a) []
                      (ContextManager.conversationHistory cm)))
            = default [] (JsMap.get (ContextManager.a_session a)
                            (ContextManager.conversationHistory cm))) as ->.
    { unfold JsMap.has.
      destruct (JsMap.get (ContextManager.a_session a)
                  (ContextManager.conversationHistory cm)) eqn:Hg.
      - by rewrite Hg.
      - by rewrite JsMapFacts.get_set_eq. }
    done.
  - cbn [List.map]. rewrite app_nil_r, <-IH.
    rewrite JsMapFacts.get_set_ne by done.
    destruct (JsMap.has _ _); [done|].
    by rewrite JsMapFacts.get_set_ne.
Qed.

End RouteLaws.
